(** * faktoor.js: retry policy, error taxonomy, codecs and the Gmail wire
      translator, embedded in Rocq.

    Strings are JavaScript strings: finite sequences of UTF-16 code units.
    Asynchronous functions are embedded in explicit state-passing style: a
    promise that resolves is [Resolved v], one that rejects is [Rejected t]. *)

From Stdlib Require Import String Ascii.
From Stdlib Require Import Bool Arith NArith ZArith QArith Qminmax Lia List.
Import ListNotations.
Close Scope Q_scope.

Set Implicit Arguments.

(* ================================================================== *)
(** ** JavaScript strings *)

(** A code unit is a number below 65536; [jsstring] is the sequence. *)
Definition jsstring := list N.

Definition lit (s : string) : jsstring :=
  map N_of_ascii (list_ascii_of_string s).
Arguments lit s%_string.

(** [===] on strings. *)
Fixpoint jseqb (a b : jsstring) : bool :=
  match a, b with
  | [], [] => true
  | x :: a', y :: b' => N.eqb x y && jseqb a' b'
  | _, _ => false
  end.

(** Truthiness of a string: the empty string is falsy. *)
Definition truthy (s : jsstring) : bool :=
  match s with [] => false | _ => true end.

(** Truthiness of an optional string property ([undefined] is falsy). *)
Definition truthy_opt (s : option jsstring) : bool :=
  match s with Some v => truthy v | None => false end.

(** [Array.prototype.includes] on an array of strings. *)
Definition includes (l : list jsstring) (x : jsstring) : bool :=
  existsb (jseqb x) l.

(** Settled state of a promise, or completion of a call that may throw. *)
Inductive outcome (T E : Type) : Type :=
| Resolved (v : T)
| Rejected (e : E).
Arguments Resolved {T E} v.
Arguments Rejected {T E} e.

(* ================================================================== *)
(** ** Built-in functions of the JavaScript runtime the sources call *)

Module JS.
Local Open Scope N_scope.

(** Numbers, as far as the sources need them: [NaN], the infinities, or an
    integer-valued double. *)
Inductive jsnumber :=
| NaN
| Infinity (negative : bool)
| Fin (z : Z).

(** WhiteSpace and LineTerminator code units: what [String.prototype.trim]
    strips, what [\s] matches and what [parseInt] skips. *)
Definition isWhiteSpace (c : N) : bool :=
  ((9 <=? c) && (c <=? 13)) || (c =? 32) || (c =? 160) || (c =? 5760)
  || ((8192 <=? c) && (c <=? 8202)) || (c =? 8232) || (c =? 8233)
  || (c =? 8239) || (c =? 8287) || (c =? 12288) || (c =? 65279).

Definition isDigit (c : N) : bool := (48 <=? c) && (c <=? 57).

Fixpoint trimStart (s : jsstring) : jsstring :=
  match s with
  | c :: s' => if isWhiteSpace c then trimStart s' else s
  | [] => []
  end.

Definition trimEnd (s : jsstring) : jsstring := rev (trimStart (rev s)).

Definition trim (s : jsstring) : jsstring := trimEnd (trimStart s).

(** Nearest double to a non-negative integer (ties to even), overflowing to
    [Infinity]. Integers below 2^53 are exact. *)
Definition round_double_pos (z : Z) : jsnumber :=
  let bits := (Z.log2 z + 1)%Z in
  if (bits <=? 53)%Z then Fin z
  else
    let sh := (bits - 53)%Z in
    let q := (z / 2 ^ sh)%Z in
    let r := (z mod 2 ^ sh)%Z in
    let half := (2 ^ (sh - 1))%Z in
    let q' := if (half <? r)%Z || ((r =? half)%Z && Z.odd q)
              then (q + 1)%Z else q in
    let v := (q' * 2 ^ sh)%Z in
    if (2 ^ 1024 <=? v)%Z then Infinity false else Fin v.

Definition round_double (z : Z) : jsnumber :=
  if (0 <=? z)%Z then round_double_pos z
  else match round_double_pos (- z) with
       | Fin v => Fin (- v)
       | Infinity _ => Infinity true
       | NaN => NaN
       end.

(** The longest prefix of decimal digits, as a number, with the count of
    digits read. *)
Fixpoint digits_value (acc : Z) (n : nat) (s : jsstring) : Z * nat :=
  match s with
  | c :: s' =>
      if isDigit c
      then digits_value (acc * 10 + (Z.of_N c - 48))%Z (S n) s'
      else (acc, n)
  | [] => (acc, n)
  end.

(** [Number.parseInt(s, 10)]: skip leading white space, read an optional
    sign and the longest run of digits; [NaN] when there is no digit. The
    mathematical value is rounded to a double (the sign of a zero is not
    tracked). *)
Definition parseInt10 (s : jsstring) : jsnumber :=
  let t := trimStart s in
  let '(neg, body) :=
    match t with
    | c :: t' => if c =? 45 then (true, t')
                 else if c =? 43 then (false, t') else (false, t)
    | [] => (false, t)
    end in
  match digits_value 0%Z 0%nat body with
  | (_, O) => NaN
  | (v, S _) => round_double (if neg then (- v)%Z else v)
  end.

(** [x * 1000] on doubles. *)
Definition times1000 (x : jsnumber) : jsnumber :=
  match x with
  | Fin z => round_double (z * 1000)%Z
  | other => other
  end.

(** [String.fromCharCode(x)]: the argument goes through ToUint16. *)
Definition fromCharCode (x : jsnumber) : jsstring :=
  match x with
  | Fin z => [Z.to_N (z mod 65536)]
  | _ => [0]
  end.

(** *** Base64: [btoa] and [atob] *)

(** The base64 alphabet: the character of a 6-bit value. *)
Definition b64char (v : N) : N :=
  if v <? 26 then v + 65            (* A-Z *)
  else if v <? 52 then v + 71       (* a-z *)
  else if v <? 62 then v - 4        (* 0-9 *)
  else if v =? 62 then 43           (* + *)
  else 47.                          (* / *)

(** The 6-bit value of a character of the alphabet. *)
Definition b64value (c : N) : option N :=
  if (65 <=? c) && (c <=? 90) then Some (c - 65)
  else if (97 <=? c) && (c <=? 122) then Some (c - 71)
  else if (48 <=? c) && (c <=? 57) then Some (c + 4)
  else if c =? 43 then Some 62
  else if c =? 47 then Some 63
  else None.

Fixpoint btoa_bytes (l : list N) : jsstring :=
  match l with
  | [] => []
  | a :: l1 =>
      match l1 with
      | [] => [b64char (a / 4); b64char (a mod 4 * 16); 61; 61]
      | b :: l2 =>
          match l2 with
          | [] => [b64char (a / 4); b64char (a mod 4 * 16 + b / 16);
                   b64char (b mod 16 * 4); 61]
          | c :: l3 =>
              b64char (a / 4) :: b64char (a mod 4 * 16 + b / 16)
              :: b64char (b mod 16 * 4 + c / 64) :: b64char (c mod 64)
              :: btoa_bytes l3
          end
      end
  end.

(** [btoa(s)]: throws (here [None]) when a character is above 255. *)
Definition btoa (s : jsstring) : option jsstring :=
  if forallb (fun c => c <=? 255) s then Some (btoa_bytes s) else None.

Definition isAsciiWhitespace (c : N) : bool :=
  (c =? 9) || (c =? 10) || (c =? 12) || (c =? 13) || (c =? 32).

(** Removal of at most two trailing [=] signs. *)
Definition strip_padding (s : jsstring) : jsstring :=
  match rev s with
  | a :: r =>
      if a =? 61 then
        match r with
        | b :: r' => if b =? 61 then rev r' else rev r
        | [] => rev r
        end
      else s
  | [] => s
  end.

Fixpoint sextets (s : jsstring) : option (list N) :=
  match s with
  | [] => Some []
  | c :: s' =>
      match b64value c, sextets s' with
      | Some v, Some vs => Some (v :: vs)
      | _, _ => None
      end
  end.

(** Bytes of a sequence of 6-bit values; the bits left over at the end are
    dropped. *)
Fixpoint atob_bytes (l : list N) : list N :=
  match l with
  | [] => []
  | a :: l1 =>
      match l1 with
      | [] => []
      | b :: l2 =>
          match l2 with
          | [] => [a * 4 + b / 16]
          | c :: l3 =>
              match l3 with
              | [] => [a * 4 + b / 16; b mod 16 * 16 + c / 4]
              | d :: l4 =>
                  (a * 4 + b / 16) :: (b mod 16 * 16 + c / 4)
                  :: (c mod 4 * 64 + d) :: atob_bytes l4
              end
          end
      end
  end.

(** [atob(s)], the forgiving-base64 decode of the HTML standard: strip
    ASCII white space, drop one or two [=] when the length is a multiple of
    four, fail when the length is 1 more than a multiple of four or a
    character is outside the alphabet. *)
Definition atob (s : jsstring) : option jsstring :=
  let s1 := filter (fun c => negb (isAsciiWhitespace c)) s in
  let s2 := if Nat.eqb (length s1 mod 4) 0 then strip_padding s1 else s1 in
  if Nat.eqb (length s2 mod 4) 1 then None
  else option_map atob_bytes (sextets s2).

(** ['='.repeat(n)] *)
Definition pad (n : nat) : jsstring := repeat 61 n.

(** *** URI escaping: [encodeURIComponent], [unescape], [decodeURIComponent] *)

Definition isAlnum (c : N) : bool :=
  ((65 <=? c) && (c <=? 90)) || ((97 <=? c) && (c <=? 122))
  || ((48 <=? c) && (c <=? 57)).

(** The characters [encodeURIComponent] leaves alone: letters, digits and
    [- _ . ! ~ * ' ( )]. *)
Definition uriUnescaped (c : N) : bool :=
  isAlnum c || existsb (N.eqb c) [45; 95; 46; 33; 126; 42; 39; 40; 41].

Definition hexUpper (v : N) : N := if v <? 10 then 48 + v else 55 + v.
Definition hexLower (v : N) : N := if v <? 10 then 48 + v else 87 + v.

Definition hexval (c : N) : option N :=
  if (48 <=? c) && (c <=? 57) then Some (c - 48)
  else if (65 <=? c) && (c <=? 70) then Some (c - 55)
  else if (97 <=? c) && (c <=? 102) then Some (c - 87)
  else None.

Definition isLeadSurrogate (c : N) : bool := (55296 <=? c) && (c <=? 56319).
Definition isTrailSurrogate (c : N) : bool := (56320 <=? c) && (c <=? 57343).

(** The UTF-8 encoding of a code point. *)
Definition utf8 (cp : N) : list N :=
  if cp <? 128 then [cp]
  else if cp <? 2048 then [192 + cp / 64; 128 + cp mod 64]
  else if cp <? 65536 then
    [224 + cp / 4096; 128 + cp / 64 mod 64; 128 + cp mod 64]
  else [240 + cp / 262144; 128 + cp / 4096 mod 64;
        128 + cp / 64 mod 64; 128 + cp mod 64].

(** [%XX] with upper-case digits, for each octet. *)
Definition escape_octets (l : list N) : jsstring :=
  flat_map (fun b => [37; hexUpper (b / 16); hexUpper (b mod 16)]) l.

(** [encodeURIComponent(s)]: throws URIError (here [None]) on a surrogate
    that is not part of a pair. *)
Fixpoint encodeURIComponent (s : jsstring) : option jsstring :=
  match s with
  | [] => Some []
  | c :: s' =>
      if uriUnescaped c then option_map (cons c) (encodeURIComponent s')
      else if isLeadSurrogate c then
        match s' with
        | d :: s'' =>
            if isTrailSurrogate d
            then option_map
                   (app (escape_octets
                           (utf8 ((c - 55296) * 1024 + (d - 56320) + 65536))))
                   (encodeURIComponent s'')
            else None
        | [] => None
        end
      else if isTrailSurrogate c then None
      else option_map (app (escape_octets (utf8 c))) (encodeURIComponent s')
  end.

Definition hex2 (a b : N) : option N :=
  match hexval a, hexval b with
  | Some x, Some y => Some (x * 16 + y)
  | _, _ => None
  end.

Definition hex4 (a b c d : N) : option N :=
  match hex2 a b, hex2 c d with
  | Some x, Some y => Some (x * 256 + y)
  | _, _ => None
  end.

(** [unescape(s)]: [%uXXXX] and [%XX] become the character with that code;
    a [%] not followed by such digits stays. *)
Fixpoint unescape (s : jsstring) : jsstring :=
  match s with
  | [] => []
  | c :: s' =>
      if c =? 37 then
        match s' with
        | a :: b :: r2 =>
            if a =? 117 then
              match r2 with
              | h2 :: h3 :: h4 :: r5 =>
                  match hex4 b h2 h3 h4 with
                  | Some v => v :: unescape r5
                  | None => c :: unescape s'
                  end
              | _ => c :: unescape s'
              end
            else
              match hex2 a b with
              | Some v => v :: unescape r2
              | None => c :: unescape s'
              end
        | _ => c :: unescape s'
        end
      else c :: unescape s'
  end.

(** [decodeURIComponent] reads its argument as plain characters and
    escaped octets, and fails on a [%] without two hexadecimal digits. *)
Inductive item :=
| Raw (c : N)
| Oct (b : N).

Fixpoint items (s : jsstring) : option (list item) :=
  match s with
  | [] => Some []
  | c :: s' =>
      if c =? 37 then
        match s' with
        | a :: b :: r =>
            match hex2 a b, items r with
            | Some v, Some l => Some (Oct v :: l)
            | _, _ => None
            end
        | _ => None
        end
      else option_map (cons (Raw c)) (items s')
  end.

Definition isContinuation (b : N) : bool := (128 <=? b) && (b <? 192).

(** The UTF-16 code units of a code point. *)
Definition utf16 (cp : N) : jsstring :=
  if cp <? 65536 then [cp]
  else [55296 + (cp - 65536) / 1024; 56320 + (cp - 65536) mod 1024].

(** Escaped octets must form well-formed UTF-8: the right number of
    continuation octets, no overlong form, no surrogate, nothing above
    U+10FFFF. Any failure is a URIError (here [None]). *)
Fixpoint decode_items (l : list item) : option jsstring :=
  match l with
  | [] => Some []
  | Raw c :: l1 => option_map (cons c) (decode_items l1)
  | Oct b :: l1 =>
      if b <? 128 then option_map (cons b) (decode_items l1)
      else if b <? 192 then None
      else if b <? 224 then
        match l1 with
        | Oct b2 :: l2 =>
            let cp := (b - 192) * 64 + (b2 - 128) in
            if isContinuation b2 && (128 <=? cp)
            then option_map (app (utf16 cp)) (decode_items l2)
            else None
        | _ => None
        end
      else if b <? 240 then
        match l1 with
        | Oct b2 :: Oct b3 :: l3 =>
            let cp := (b - 224) * 4096 + (b2 - 128) * 64 + (b3 - 128) in
            if isContinuation b2 && isContinuation b3 && (2048 <=? cp)
               && negb ((55296 <=? cp) && (cp <=? 57343))
            then option_map (app (utf16 cp)) (decode_items l3)
            else None
        | _ => None
        end
      else if b <? 248 then
        match l1 with
        | Oct b2 :: Oct b3 :: Oct b4 :: l4 =>
            let cp := (b - 240) * 262144 + (b2 - 128) * 4096
                      + (b3 - 128) * 64 + (b4 - 128) in
            if isContinuation b2 && isContinuation b3 && isContinuation b4
               && (65536 <=? cp) && (cp <=? 1114111)
            then option_map (app (utf16 cp)) (decode_items l4)
            else None
        | _ => None
        end
      else None
  end.

Definition decodeURIComponent (s : jsstring) : option jsstring :=
  match items s with
  | Some l => decode_items l
  | None => None
  end.

(** *** Hexadecimal numbers and [join] *)

(** The longest prefix of hexadecimal digits, as a number, with the count
    of digits read. *)
Fixpoint hex_digits_value (acc : Z) (n : nat) (s : jsstring) : Z * nat :=
  match s with
  | c :: s' =>
      match hexval c with
      | Some v => hex_digits_value (acc * 16 + Z.of_N v)%Z (S n) s'
      | None => (acc, n)
      end
  | [] => (acc, n)
  end.

(** [Number.parseInt(s, 16)]: skip leading white space, read an optional
    sign, an optional [0x] or [0X] and the longest run of hexadecimal
    digits; [NaN] when there is no digit. *)
Definition parseInt16 (s : jsstring) : jsnumber :=
  let t := trimStart s in
  let '(neg, body) :=
    match t with
    | c :: t' => if c =? 45 then (true, t')
                 else if c =? 43 then (false, t') else (false, t)
    | [] => (false, t)
    end in
  let digits :=
    match body with
    | z :: x :: r => if (z =? 48) && ((x =? 120) || (x =? 88)) then r else body
    | _ => body
    end in
  match hex_digits_value 0%Z 0%nat digits with
  | (_, O) => NaN
  | (v, S _) => round_double (if neg then (- v)%Z else v)
  end.

(** [Array.prototype.join(sep)] on an array of strings. *)
Fixpoint join (sep : jsstring) (l : list jsstring) : jsstring :=
  match l with
  | [] => []
  | x :: l' =>
      match l' with
      | [] => x
      | _ :: _ => x ++ sep ++ join sep l'
      end
  end.

End JS.

(* ================================================================== *)
(** ** Regular expressions

    The fragment of ECMAScript regular expressions the sources use, with the
    backtracking semantics of the language: a matcher returns every way to
    match, in the order the backtracking search would try them, so that the
    match JavaScript reports is the head of the list. *)

Module RegExp.
Import JS.

Definition class := N -> bool.

Inductive regex :=
| Str (s : jsstring)                         (* literal characters *)
| Set_ (p : class)                           (* [...] , \s , \d *)
| Cat (a b : regex)                          (* ab *)
| Opt (a : regex)                            (* a? *)
| Rep (greedy : bool) (min : nat) (p : class)  (* [...]{min,} and [...]{min,}? *)
| Cap (i : nat) (a : regex)                  (* i-th capturing group *)
| Bol                                        (* ^ *)
| Eol.                                       (* $ *)

Declare Scope regex_scope.
Delimit Scope regex_scope with re.
Bind Scope regex_scope with regex.
Infix ">>" := Cat (at level 60, right associativity) : regex_scope.

(** Classes. *)
Definition only (c : string) : class :=
  fun x => match lit c with [y] => N.eqb x y | _ => false end.
Definition none_of (cs : string) : class :=
  fun x => negb (existsb (N.eqb x) (lit cs)).
Definition any : class := fun _ => true.                    (* [\s\S] *)
Definition space : class := isWhiteSpace.                   (* \s *)
Definition digit : class := isDigit.                        (* \d *)
Definition neither (p q : class) : class :=
  fun x => negb (p x) && negb (q x).

(** Canonicalize of the [i] flag, on the characters that can equal a
    pattern character of the sources (all of them ASCII): a code unit of
    128 or more never canonicalizes to an ASCII one, and an ASCII letter
    canonicalizes to its upper case. *)
Definition canonicalize (c : N) : N :=
  if ((97 <=? c) && (c <=? 122))%N then (c - 32)%N else c.

Definition char_eqb (icase : bool) (x y : N) : bool :=
  if icase then N.eqb (canonicalize x) (canonicalize y) else N.eqb x y.

(** A point of a match attempt: the number of characters consumed since the
    attempt started, the input from there on and the captures made so far
    (latest first). *)
Record state := {
  pos : nat;
  rest : jsstring;
  captures : list (nat * jsstring)
}.

Definition advance (st : state) (k : nat) : state :=
  {| pos := pos st + k; rest := skipn k (rest st); captures := captures st |}.

Definition capture (i : nat) (st : state) : option jsstring :=
  option_map snd (find (fun p => Nat.eqb (fst p) i) (captures st)).

(** Whether the literal [s] starts the input [t]. *)
Fixpoint starts_with (icase : bool) (s t : jsstring) : bool :=
  match s, t with
  | [], _ => true
  | x :: s', y :: t' => char_eqb icase x y && starts_with icase s' t'
  | _ :: _, [] => false
  end.

(** Length of the longest prefix made of characters of the class. *)
Fixpoint run (p : class) (t : jsstring) : nat :=
  match t with
  | c :: t' => if p c then S (run p t') else 0
  | [] => 0
  end.

(** The ways [r] matches from [st], in backtracking order. An optional
    group whose body matched the empty string is rejected in favour of
    skipping it, as RepeatMatcher does. *)
Fixpoint matches (icase at_start : bool) (r : regex) (st : state)
  : list state :=
  match r with
  | Str s =>
      if starts_with icase s (rest st) then [advance st (length s)] else []
  | Set_ p =>
      match rest st with
      | c :: _ => if p c then [advance st 1] else []
      | [] => []
      end
  | Cat a b => flat_map (matches icase at_start b) (matches icase at_start a st)
  | Opt a =>
      filter (fun st' => negb (Nat.eqb (pos st') (pos st)))
             (matches icase at_start a st) ++ [st]
  | Rep greedy min p =>
      let n := run p (rest st) in
      let ks := seq min (S n - min) in
      map (advance st) (if greedy then rev ks else ks)
  | Cap i a =>
      map (fun st' =>
             {| pos := pos st'; rest := rest st';
                captures := (i, firstn (pos st' - pos st) (rest st))
                              :: captures st' |})
          (matches icase at_start a st)
  | Bol => if at_start && Nat.eqb (pos st) 0 then [st] else []
  | Eol => match rest st with [] => [st] | _ => [] end
  end.

(** The match that starts at the head of [t]; [at_start] tells whether [t]
    is the whole input. *)
Definition match_at (icase : bool) (r : regex) (at_start : bool) (t : jsstring)
  : option state :=
  hd_error (matches icase at_start r {| pos := 0; rest := t; captures := [] |}).

(** RegExpBuiltinExec without the [g] flag: the first index, from [i] on,
    at which the pattern matches; the result is that index and the final
    state. *)
Fixpoint exec_from (icase : bool) (r : regex) (i : nat) (t : jsstring)
  : option (nat * state) :=
  match match_at icase r (Nat.eqb i 0) t with
  | Some st => Some (i, st)
  | None =>
      match t with
      | [] => None
      | _ :: t' => exec_from icase r (S i) t'
      end
  end.

Definition exec (icase : bool) (r : regex) (s : jsstring) :=
  exec_from icase r 0 s.

(** [s.replace(/r/, f)] without the [g] flag: the first match is replaced
    by [f] of the match. The replacement strings of the sources contain no
    [$], so a string replacement is a constant [f]. *)
Definition replace_first (icase : bool) (r : regex) (f : state -> jsstring)
           (s : jsstring) : jsstring :=
  match exec icase r s with
  | Some (i, st) => firstn i s ++ f st ++ rest st
  | None => s
  end.

(** [s.replace(/r/g, f)]: [at_start] tells whether [t] is the whole input;
    [skip] characters of [t] still belong to the previous match. After an
    empty match the search resumes one character further. *)
Fixpoint replace_from (icase : bool) (r : regex) (f : state -> jsstring)
         (at_start : bool) (skip : nat) (t : jsstring) : jsstring :=
  match skip with
  | S k =>
      match t with
      | [] => []
      | _ :: t' => replace_from icase r f false k t'
      end
  | O =>
      match match_at icase r at_start t with
      | Some st =>
          f st ++
          match t with
          | [] => []
          | c :: t' =>
              match pos st with
              | O => c :: replace_from icase r f false 0 t'
              | S k => replace_from icase r f false k t'
              end
          end
      | None =>
          match t with
          | [] => []
          | c :: t' => c :: replace_from icase r f false 0 t'
          end
      end
  end.

Definition replace_all (icase : bool) (r : regex) (f : state -> jsstring)
           (s : jsstring) : jsstring :=
  replace_from icase r f true 0 s.

(** A constant replacement. *)
Definition const (s : jsstring) : state -> jsstring := fun _ => s.

(** A group under a star, [(?:a)*], where [m] is the matcher of the group:
    the greedy RepeatMatcher, which tries one more round of the group
    before it tries to stop and rejects a round that consumed nothing.
    [fuel] bounds the number of rounds; the length of the input is
    enough, since every round consumes a character. *)
Fixpoint star (fuel : nat) (m : state -> list state) (st : state)
  : list state :=
  match fuel with
  | O => [st]
  | S fuel' =>
      flat_map (fun st' => if Nat.eqb (pos st') (pos st) then []
                           else star fuel' m st')
               (m st) ++ [st]
  end.

(** [RegExp.prototype.test] without the [g] flag. *)
Definition test (icase : bool) (r : regex) (s : jsstring) : bool :=
  match exec icase r s with Some _ => true | None => false end.

End RegExp.

(* ================================================================== *)
(** ** parser/src/index.ts: address and text codecs *)

Module Parser.
Import JS RegExp.
Local Open Scope regex_scope.

Record Address := {
  email : jsstring;
  name : option jsstring
}.

(** [[^>@\s]] *)
Definition addr_char : class := neither (fun c => existsb (N.eqb c) (lit ">@")) space.

(** [[^Q<]], where Q is the double quote. *)
Definition name_char : class := fun c => negb ((c =? 34) || (c =? 60))%N.

(** The pattern of [parseAddress], written with spaces between its parts
    and Q for the double quote:
    [^ (?: Q? ( [^Q<]* ) Q? \s* )? <? ( [^>@\s]+ @ [^>@\s]+ ) >? $].
    [name_part] is the body of the optional group, [address_part] what
    follows the group. *)
Definition name_part : regex :=
  Opt (Str [34%N]) >> Cap 1 (Rep true 0 name_char)
  >> Opt (Str [34%N]) >> Rep true 0 space.

Definition address_part : regex :=
  Opt (Str (lit "<")) >>
  Cap 2 (Rep true 1 addr_char >> Str (lit "@") >> Rep true 1 addr_char) >>
  Opt (Str (lit ">")) >>
  Eol.

Definition address_re : regex := Bol >> Opt name_part >> address_part.

(** [parseAddress(raw)] *)
Definition parseAddress (raw : jsstring) : Address :=
  let trimmed := trim raw in
  match exec false address_re trimmed with
  | None => {| email := trimmed; name := None |}
  | Some (_, st) =>
      {| email := match capture 2 st with
                  | Some e => trim e
                  | None => trimmed
                  end;
         name := match capture 1 st with
                 | Some n => if truthy (trim n) then Some (trim n) else None
                 | None => None
                 end |}
  end.

(** [formatAddress(address)] *)
Definition formatAddress (address : Address) : jsstring :=
  if truthy_opt (name address)
  then [34%N] ++ match name address with Some n => n | None => [] end
       ++ [34%N] ++ lit " <" ++ email address ++ lit ">"
  else email address.

(** [c => '%' + ('00' + c.charCodeAt(0).toString(16)).slice(-2)]: the last
    two hexadecimal digits of the code, in lower case. *)
Definition percent (c : N) : jsstring :=
  [37%N; hexLower (c / 16 mod 16)%N; hexLower (c mod 16)%N].

(** [decodeBase64Url(data)], on a runtime that has [atob] (every browser,
    Node from version 16 on). [None] is a thrown exception. *)
Definition decodeBase64Url (data : jsstring) : option jsstring :=
  let base64 :=
    replace_all false (Str (lit "_")) (const (lit "/"))
      (replace_all false (Str (lit "-")) (const (lit "+")) data) in
  let padded := base64 ++ pad ((4 - length base64 mod 4) mod 4) in
  match atob padded with
  | Some bin => decodeURIComponent (flat_map percent bin)
  | None => None
  end.

(** [=+$]: a run of [=] signs at the very end. *)
Definition trailing_equals : regex := Rep true 1 (only "=") >> Eol.

(** [encodeBase64Url(data)], on a runtime that has [btoa]. *)
Definition encodeBase64Url (data : jsstring) : option jsstring :=
  match encodeURIComponent data with
  | None => None
  | Some escaped =>
      match btoa (unescape escaped) with
      | None => None
      | Some base64 =>
          Some (replace_first false trailing_equals (const [])
                  (replace_all false (Str (lit "/")) (const (lit "_"))
                     (replace_all false (Str (lit "+")) (const (lit "-"))
                        base64)))
      end
  end.

(** The replacement of the numeric character references:
    [(_, num) => String.fromCharCode(Number.parseInt(num, 10))]. *)
Definition char_of_reference (st : state) : jsstring :=
  fromCharCode (parseInt10 (match capture 1 st with
                            | Some num => num
                            | None => []
                            end)).

(** The bullet the source file holds for list items: the three characters
    U+00E2 U+20AC U+00A2 and a space. *)
Definition bullet : jsstring := [226; 8364; 162; 32]%N.

Definition newline : jsstring := [10%N].

(** [<style[^>]*>[\s\S]*?</style>] and the same for [script]. *)
Definition block_re (tag : string) : regex :=
  Str (lit "<" ++ lit tag) >> Rep true 0 (none_of ">") >> Str (lit ">")
  >> Rep false 0 any >> Str (lit "</" ++ lit tag ++ lit ">").

(** [htmlToText(html)]: the chain of replacements, in source order. *)
Definition htmlToText (html : jsstring) : jsstring :=
  let s1 := replace_all true (block_re "style") (const []) html in
  let s2 := replace_all true (block_re "script") (const []) s1 in
  let s3 := replace_all true
              (Str (lit "<br") >> Rep true 0 space >> Opt (Str (lit "/"))
               >> Str (lit ">")) (const newline) s2 in
  let s4 := replace_all true (Str (lit "</p>")) (const (newline ++ newline)) s3 in
  let s5 := replace_all true (Str (lit "</div>")) (const newline) s4 in
  let s6 := replace_all true (Str (lit "</li>")) (const newline) s5 in
  let s7 := replace_all true
              (Str (lit "<li") >> Rep true 0 (none_of ">") >> Str (lit ">"))
              (const bullet) s6 in
  let s8 := replace_all false
              (Str (lit "<") >> Rep true 1 (none_of ">") >> Str (lit ">"))
              (const []) s7 in
  let s9 := replace_all false (Str (lit "&nbsp;")) (const (lit " ")) s8 in
  let s10 := replace_all false (Str (lit "&amp;")) (const (lit "&")) s9 in
  let s11 := replace_all false (Str (lit "&lt;")) (const (lit "<")) s10 in
  let s12 := replace_all false (Str (lit "&gt;")) (const (lit ">")) s11 in
  let s13 := replace_all false (Str (lit "&quot;")) (const [34%N]) s12 in
  let s14 := replace_all false
               (Str (lit "&#") >> Cap 1 (Rep true 1 digit) >> Str (lit ";"))
               char_of_reference s13 in
  let s15 := replace_all false (Rep true 3 (fun c => (c =? 10)%N))
               (const (newline ++ newline)) s14 in
  trim s15.

(** The assertion [(?=(?:[^Q]*Q[^Q]*Q)*[^Q]*$)] of the pattern the address
    lists are split with (Q is the double quote): what follows can be read
    as pairs of quotes and a remainder without a quote. *)
Definition not_quote : class := fun c => negb (c =? 34)%N.

Definition quoted_pair : regex :=
  Rep true 0 not_quote >> Str [34%N] >> Rep true 0 not_quote >> Str [34%N].

Definition outside_quotes (t : jsstring) : bool :=
  match flat_map (matches false false (Rep true 0 not_quote >> Eol))
                 (star (length t) (matches false false quoted_pair)
                       {| pos := 0; rest := t; captures := [] |}) with
  | [] => false
  | _ :: _ => true
  end.

(** [raw.split(/,(?=...)/)]: the input is cut at every comma at which the
    assertion holds; [piece] holds the characters of the current piece,
    latest first. The pattern has no capturing group and never matches
    the empty string, so the pieces are all there is in the result and
    the empty input gives one empty piece. *)
Fixpoint split_from (piece : jsstring) (t : jsstring) : list jsstring :=
  match t with
  | [] => [rev piece]
  | c :: t' =>
      if (c =? 44)%N && outside_quotes t'
      then rev piece :: split_from [] t'
      else split_from (c :: piece) t'
  end.

Definition split_addresses (raw : jsstring) : list jsstring :=
  split_from [] raw.

(** [parseAddressList(raw)] *)
Definition parseAddressList (raw : jsstring) : list Address :=
  if negb (truthy (trim raw)) then []
  else filter (fun addr => existsb (N.eqb 64) (email addr))
              (map parseAddress (split_addresses raw)).

(** [formatAddressList(addresses)] *)
Definition formatAddressList (addresses : list Address) : jsstring :=
  join (lit ", ") (map formatAddress addresses).

(** [=\r?\n] and [=([0-9A-Fa-f]{2})] *)
Definition hex_digit : class :=
  fun c => match hexval c with Some _ => true | None => false end.

Definition soft_break : regex :=
  Str (lit "=") >> Opt (Str [13%N]) >> Str [10%N].

Definition escaped_octet : regex :=
  Str (lit "=") >> Cap 1 (Set_ hex_digit >> Set_ hex_digit).

(** [(_, hex) => String.fromCharCode(Number.parseInt(hex, 16))] *)
Definition char_of_hex (st : state) : jsstring :=
  fromCharCode (parseInt16 (match capture 1 st with
                            | Some hex => hex
                            | None => []
                            end)).

(** [decodeQuotedPrintable(data)] *)
Definition decodeQuotedPrintable (data : jsstring) : jsstring :=
  replace_all false escaped_octet char_of_hex
    (replace_all false soft_break (const []) data).

(** [[^\s@]] *)
Definition email_char : class := neither space (only "@").

(** [^[^\s@]+@[^\s@]+\.[^\s@]+$] *)
Definition valid_email_re : regex :=
  Bol >> Rep true 1 email_char >> Str (lit "@") >> Rep true 1 email_char
  >> Str (lit ".") >> Rep true 1 email_char >> Eol.

(** [isValidEmail(email)] *)
Definition isValidEmail (email : jsstring) : bool :=
  test false valid_email_re email.

(** [@([^@]+)$] *)
Definition domain_re : regex :=
  Str (lit "@") >> Cap 1 (Rep true 1 (none_of "@")) >> Eol.

(** [getEmailDomain(email)]; [None] is [null]. *)
Definition getEmailDomain (email : jsstring) : option jsstring :=
  match exec false domain_re email with
  | Some (_, st) => capture 1 st
  | None => None
  end.

End Parser.

(* ================================================================== *)
(** ** core/src/errors.ts: the error taxonomy *)

Module Errors.
Import JS.

(** The class an error object was constructed from. [PlainError] is the
    built-in [Error]; [FaktoorApiErrorK] is the helper class declared at the
    end of gmail/src/api.ts. *)
Inductive ErrorClass :=
| PlainError
| FaktoorErrorK
| AuthenticationErrorK
| RateLimitErrorK
| NotFoundErrorK
| NetworkErrorK
| ValidationErrorK
| ProviderErrorK
| FaktoorApiErrorK.

(** An error object. [code], [retryable], [retryAfter] and [provider] are
    [None] when the object does not have the property ([retryAfter] and
    [cause] are also [None] when they hold [undefined]). [cause] is typed
    [Error] in the sources, but nothing checks it at run time: it holds
    whatever value was passed.

    [Thrown] is anything a JavaScript function can throw: an [Error]
    object, or a value that is not an instance of [Error] (for which only
    the presence and truthiness of a [retryable] property is recorded), or
    [undefined]. *)
#[warnings="-register-all"]
Inductive JsError :=
| mkError (cls : ErrorClass) (message : jsstring) (code : option jsstring)
          (retryable : option bool) (retryAfter : option jsnumber)
          (provider : option jsstring) (cause : option Thrown)
with Thrown :=
| ErrorObj (e : JsError)
| NonError (retryableProp : option bool)
| Undefined.

Definition cls (e : JsError) := let '(mkError c _ _ _ _ _ _) := e in c.
Definition message (e : JsError) := let '(mkError _ m _ _ _ _ _) := e in m.
Definition code (e : JsError) := let '(mkError _ _ c _ _ _ _) := e in c.
Definition retryable (e : JsError) := let '(mkError _ _ _ r _ _ _) := e in r.
Definition retryAfter (e : JsError) := let '(mkError _ _ _ _ a _ _) := e in a.
Definition provider (e : JsError) := let '(mkError _ _ _ _ _ p _) := e in p.
Definition cause (e : JsError) := let '(mkError _ _ _ _ _ _ c) := e in c.

(** [new Error(message)] *)
Definition Error (msg : jsstring) : JsError :=
  mkError PlainError msg None None None None None.

(** [new FaktoorError(message, {code, retryable, cause})]:
    [retryable] defaults to [false]. *)
Definition FaktoorError (msg code : jsstring) (retryable : option bool)
           (cause : option Thrown) : JsError :=
  mkError FaktoorErrorK msg (Some code)
          (Some (match retryable with Some r => r | None => false end))
          None None cause.

(** A subclass constructor calls [super] and then overwrites [name]; the
    class of the object is the subclass. *)
Definition subclass (k : ErrorClass) (base : JsError) : JsError :=
  let '(mkError _ m c r a p ca) := base in mkError k m c r a p ca.

Definition AuthenticationError (msg : jsstring) (cause : option Thrown) :=
  subclass AuthenticationErrorK
           (FaktoorError msg (lit "AUTH_ERROR") (Some false) cause).

Definition RateLimitError (msg : jsstring) (retryAfter : option jsnumber)
           (cause : option Thrown) :=
  let '(mkError _ m c r _ p ca) :=
    FaktoorError msg (lit "RATE_LIMIT") (Some true) cause in
  mkError RateLimitErrorK m c r retryAfter p ca.

Definition NotFoundError (resourceType resourceId : jsstring) :=
  subclass NotFoundErrorK
           (FaktoorError (resourceType ++ lit " not found: " ++ resourceId)
                         (lit "NOT_FOUND") (Some false) None).

Definition NetworkError (msg : jsstring) (cause : option Thrown) :=
  subclass NetworkErrorK
           (FaktoorError msg (lit "NETWORK_ERROR") (Some true) cause).

Definition ValidationError (msg : jsstring) :=
  subclass ValidationErrorK
           (FaktoorError msg (lit "VALIDATION_ERROR") (Some false) None).

(** [new ProviderError(provider, message, options?)]:
    [retryable: options?.retryable ?? false]. *)
Definition ProviderError (prov msg : jsstring) (retryable : option bool)
           (cause : option Thrown) :=
  let '(mkError _ m c r a _ ca) :=
    FaktoorError msg (lit "PROVIDER_ERROR")
                 (Some (match retryable with Some r => r | None => false end))
                 cause in
  mkError ProviderErrorK m c r a (Some prov) ca.

(** [x instanceof FaktoorApiError]: no class of the taxonomy extends the
    helper class, so only objects built from it are instances. *)
Definition instanceof_FaktoorApiError (e : JsError) : bool :=
  match cls e with FaktoorApiErrorK => true | _ => false end.

End Errors.

(* ================================================================== *)
(** ** gmail/src/api.ts: requests and their errors *)

Module GmailApi.
Import JS Errors.

(** What [response.json()] gives for an error body: a rejection, [null],
    or an object whose [error.message] may be missing. *)
Inductive ErrorBody :=
| Unparsable
| NullBody
| ErrorData (message : option jsstring).

(** The parts of a fetch [Response] the client reads. [payload] is how
    [response.json()] settles when [request] awaits it, the value being
    read as the expected type; a rejection carries what the engine throws
    for the body at hand. *)
Record Response (T : Type) := {
  status : Z;
  statusText : jsstring;
  retryAfterHeader : option jsstring;     (* headers.get('Retry-After') *)
  errorBody : ErrorBody;
  payload : outcome T Thrown
}.

(** [response.ok]: the status is in the range 200-299. *)
Definition ok {T} (r : Response T) : bool :=
  ((200 <=? status r) && (status r <=? 299))%Z.

Record Credentials := {
  accessToken : jsstring;
  refreshToken : option jsstring;
  expiresAt : option Z                    (* milliseconds since the epoch *)
}.

(** [handleError(response)]: never returns, the result is what it throws. *)
Definition handleError {T} (response : Response T) : Thrown :=
  match errorBody response with
  | NullBody =>
      (* reading [error] of [null] is a TypeError *)
      ErrorObj (Error (lit "Cannot read properties of null"))
  | body =>
      let message :=
        match body with
        | ErrorData (Some m) => if truthy m then m else statusText response
        | _ => statusText response
        end in
      if (status response =? 401)%Z then
        ErrorObj (AuthenticationError message None)
      else if (status response =? 429)%Z then
        ErrorObj (RateLimitError message
                    (match retryAfterHeader response with
                     | Some h => if truthy h
                                 then Some (times1000 (parseInt10 h))
                                 else None
                     | None => None
                     end) None)
      else if (status response =? 403)%Z then
        ErrorObj (AuthenticationError (lit "Access denied: " ++ message) None)
      else if (status response =? 404)%Z then
        ErrorObj (ProviderError (lit "gmail") (lit "Not found: " ++ message)
                                None None)
      else
        ErrorObj (ProviderError (lit "gmail") message
                                (Some (500 <=? status response)%Z) None)
  end.

(** [error instanceof FaktoorApiError], on anything thrown. *)
Definition is_FaktoorApiError (t : Thrown) : bool :=
  match t with
  | ErrorObj e => instanceof_FaktoorApiError e
  | _ => false
  end.

(** [error as Error], stored as the cause of the wrapping error: the
    assertion does nothing at run time, the value caught is stored as it
    is (a caught [undefined] leaves the property [undefined]). *)
Definition as_cause (t : Thrown) : option Thrown :=
  match t with
  | Undefined => None
  | _ => Some t
  end.

(** [request(method, path, options)]. [now] is the clock and [fetched] is
    how the call to [fetch] settles; the result is [Resolved None] for an
    empty (204) response. *)
Definition request {T} (cred : Credentials) (now : Z)
           (fetched : outcome (Response T) Thrown) : outcome (option T) Thrown :=
  if match expiresAt cred with Some e => (e <? now)%Z | None => false end
  then
    if truthy_opt (refreshToken cred)
    then Rejected (ErrorObj (AuthenticationError
           (lit "Token expired. Refresh token flow not yet implemented.") None))
    else Rejected (ErrorObj (AuthenticationError (lit "Token expired") None))
  else
    (* the body of the [try] block *)
    let attempt : outcome (option T) Thrown :=
      match fetched with
      | Rejected t => Rejected t
      | Resolved response =>
          if negb (ok response) then Rejected (handleError response)
          else if (status response =? 204)%Z then Resolved None
          else match payload response with
               | Resolved v => Resolved (Some v)
               | Rejected t => Rejected t
               end
      end in
    (* the [catch] clause *)
    match attempt with
    | Resolved v => Resolved v
    | Rejected error =>
        if is_FaktoorApiError error then Rejected error
        else Rejected (ErrorObj (NetworkError
                                   (lit "Failed to connect to Gmail API")
                                   (as_cause error)))
    end.

End GmailApi.

(* ================================================================== *)
(** ** core/src/client.ts: the retry policy *)

Module Client.
Import Errors.

Inductive Backoff := exponential | fixed | none.

Record RetryConfig := {
  attempts : Z;
  backoff : Backoff;
  initialDelay : Q;
  maxDelay : Q
}.

Definition DEFAULT_RETRY : RetryConfig :=
  {| attempts := 3; backoff := exponential;
     initialDelay := 1000%Q; maxDelay := 30000%Q |}.

(** [getDelay(attempt, config)]; [rnd] is the value [Math.random()] returns
    when the exponential branch calls it. Delays are rationals: the
    exponential branch is the real-number reading of the double arithmetic,
    the other two branches do no arithmetic at all. *)
Definition getDelay (attempt : nat) (config : RetryConfig) (rnd : Q) : Q :=
  match backoff config with
  | none => 0%Q
  | fixed => initialDelay config
  | exponential =>
      let delay := Qmin (initialDelay config * inject_Z (2 ^ Z.of_nat attempt))
                        (maxDelay config) in
      let jitter := (delay * (1 # 10) * rnd)%Q in
      (delay + jitter)%Q
  end.

(** Whether [getDelay] consumes a random number. *)
Definition draws_random (config : RetryConfig) : bool :=
  match backoff config with exponential => true | _ => false end.

Section WithRetry.
(** The wrapped operation [fn] acts on some state [S] of its own (the
    backend, a counter in a test double, ...). *)
Variables St T : Type.
Variable fn : St -> outcome T Thrown * St.
(** The sequence of values [Math.random()] produces. *)
Variable random : nat -> Q.

(** What an execution can observe: the operation's state, the number of
    times [fn] was invoked, the delays passed to [sleep] (oldest first)
    and the number of random values drawn. *)
Record World := {
  env : St;
  calls : nat;
  slept : list Q;
  drawn : nat
}.

Definition M (A : Type) := World -> A * World.
Definition ret {A} (a : A) : M A := fun w => (a, w).
Definition bind {A B} (m : M A) (k : A -> M B) : M B :=
  fun w => let (a, w') := m w in k a w'.
Notation "x <- m ;; k" := (bind m (fun x => k))
  (at level 61, m at next level, right associativity).

(** [await fn()] *)
Definition invoke : M (outcome T Thrown) :=
  fun w => let (r, s') := fn (env w) in
           (r, {| env := s'; calls := S (calls w);
                  slept := slept w; drawn := drawn w |}).

(** [await sleep(getDelay(attempt, config))] *)
Definition sleep_delay (attempt : nat) (config : RetryConfig) : M unit :=
  fun w =>
    let d := getDelay attempt config (random (drawn w)) in
    (tt, {| env := env w; calls := calls w;
            slept := slept w ++ [d];
            drawn := if draws_random config
                     then S (drawn w) else drawn w |}).

(** [error instanceof Error && 'retryable' in error && !error.retryable] *)
Definition non_retryable (error : Thrown) : bool :=
  match error with
  | ErrorObj e =>
      match retryable e with
      | Some r => negb r
      | None => false
      end
  | _ => false
  end.

(** The [for] loop of [withRetry]: [remaining] iterations are left,
    [attempt] is the loop counter. *)
Fixpoint retry_loop (config : RetryConfig) (remaining attempt : nat)
         (lastError : Thrown) : M (outcome T Thrown) :=
  match remaining with
  | O => ret (Rejected lastError)
  | S remaining' =>
      r <- invoke ;;
      match r with
      | Resolved v => ret (Resolved v)
      | Rejected error =>
          if non_retryable error then ret (Rejected error)
          else
            _ <- (if (Z.of_nat attempt <? attempts config - 1)%Z
                  then sleep_delay attempt config else ret tt) ;;
            retry_loop config remaining' (S attempt) error
      end
  end.

(** [withRetry(fn, config)]; [None] is [config === false]. The loop runs
    while [attempt < config.attempts], that is [attempts] times when
    [attempts] is positive and not at all otherwise. *)
Definition withRetry (config : option RetryConfig) : M (outcome T Thrown) :=
  match config with
  | None => invoke
  | Some c => retry_loop c (Z.to_nat (attempts c)) 0 Undefined
  end.

End WithRetry.

End Client.

(* ================================================================== *)
(** ** gmail/src/parser.ts: the wire translator *)

Module GmailParser.
Import JS RegExp.

Record PartBody := {
  attachmentId : option jsstring;
  size : option Z;
  data : option jsstring
}.

(** [GmailMessagePart]: a node of the MIME tree. *)
#[warnings="-register-all"]
Inductive GmailMessagePart :=
| Part (mimeType : option jsstring) (filename : option jsstring)
       (headers : option (list (jsstring * jsstring)))
       (body : option PartBody)
       (parts : option (list GmailMessagePart)).

Record EmailBody := {
  html : option jsstring;               (* [None] is [null] *)
  text : jsstring
}.

Record AttachmentMeta := {
  att_id : jsstring;
  att_filename : jsstring;
  att_mimeType : jsstring;
  att_size : Z
}.

(** [decodeBase64Url(data)] of the Gmail parser, on a runtime that has
    [atob]: the decoded octets are returned as they are. [None] is a thrown
    exception. *)
Definition decodeBase64Url (data : jsstring) : option jsstring :=
  let base64 :=
    replace_all false (Str (lit "_")) (const (lit "/"))
      (replace_all false (Str (lit "-")) (const (lit "+")) data) in
  let padded := base64 ++ pad ((4 - length base64 mod 4) mod 4) in
  atob padded.

(** [part.body?.data], when it is truthy. *)
Definition inline_data (body : option PartBody) : option jsstring :=
  match body with
  | Some b => match data b with
              | Some d => if truthy d then Some d else None
              | None => None
              end
  | None => None
  end.

Definition mime_is (m : option jsstring) (s : string) : bool :=
  match m with Some v => jseqb v (lit s) | None => false end.

(** [processpart] of [extractBody]: the two local variables [html] and
    [text] are the state, [None] is an exception thrown by the decoder. *)
Fixpoint processpart (part : GmailMessagePart) (st : EmailBody)
  : option EmailBody :=
  let '(Part mimeType _ _ body parts) := part in
  match (if mime_is mimeType "text/html" then inline_data body else None) with
  | Some d =>
      match decodeBase64Url d with
      | Some v => Some {| html := Some v; text := text st |}
      | None => None
      end
  | None =>
      match (if mime_is mimeType "text/plain" then inline_data body else None) with
      | Some d =>
          match decodeBase64Url d with
          | Some v => Some {| html := html st; text := v |}
          | None => None
          end
      | None =>
          match parts with
          | Some subparts =>
              (fix each (l : list GmailMessagePart) (st : EmailBody) :=
                 match l with
                 | [] => Some st
                 | subpart :: l' =>
                     match processpart subpart st with
                     | Some st' => each l' st'
                     | None => None
                     end
                 end) subparts st
          | None => Some st
          end
      end
  end.

(** [extractBody(payload)] *)
Definition extractBody (payload : option GmailMessagePart) : option EmailBody :=
  let init := {| html := None; text := [] |} in
  match payload with
  | Some p => processpart p init
  | None => Some init
  end.

(** [extractAttachments(payload, messageId)] *)
Fixpoint processPart (part : GmailMessagePart) (acc : list AttachmentMeta)
  : list AttachmentMeta :=
  let '(Part mimeType filename _ body parts) := part in
  let acc1 :=
    match body, filename with
    | Some b, Some f =>
        match attachmentId b with
        | Some a =>
            if truthy a && truthy f
            then acc ++ [{| att_id := a; att_filename := f;
                            att_mimeType :=
                              match mimeType with
                              | Some m => m
                              | None => lit "application/octet-stream"
                              end;
                            att_size := match size b with
                                        | Some n => n
                                        | None => 0%Z
                                        end |}]
            else acc
        | None => acc
        end
    | _, _ => acc
    end in
  match parts with
  | Some subparts =>
      (fix each (l : list GmailMessagePart) (acc : list AttachmentMeta) :=
         match l with
         | [] => acc
         | subpart :: l' => each l' (processPart subpart acc)
         end) subparts acc1
  | None => acc1
  end.

Definition extractAttachments (payload : option GmailMessagePart)
  : list AttachmentMeta :=
  match payload with
  | Some p => processPart p []
  | None => []
  end.

Inductive FolderType := inbox | sent | drafts | trash | spam | archive | custom.

(** [labelToFolderType(labelId)] *)
Definition labelToFolderType (labelId : jsstring) : FolderType :=
  if jseqb labelId (lit "INBOX") then inbox
  else if jseqb labelId (lit "SENT") then sent
  else if jseqb labelId (lit "DRAFT") then drafts
  else if jseqb labelId (lit "TRASH") then trash
  else if jseqb labelId (lit "SPAM") then spam
  else custom.

Record WireLabel := {
  label_id : jsstring;
  label_name : jsstring;
  label_type : jsstring;
  messagesTotal : option Z;
  messagesUnread : option Z
}.

Record Folder := {
  folder_name : jsstring;
  path : jsstring;
  type : FolderType;
  totalCount : Z;
  unreadCount : Z
}.

(** [labelToFolder(label)] *)
Definition labelToFolder (label : WireLabel) : Folder :=
  {| folder_name := label_name label;
     path := label_id label;
     type := labelToFolderType (label_id label);
     totalCount := match messagesTotal label with Some n => n | None => 0%Z end;
     unreadCount := match messagesUnread label with Some n => n | None => 0%Z end |}.

(** The message as the API returns it. *)
Record WireMessage := {
  id : jsstring;
  threadId : jsstring;
  labelIds : option (list jsstring);
  snippet : option jsstring;
  sizeEstimate : option Z;
  payload : option GmailMessagePart;
  raw : option jsstring
}.

Inductive LabelKind := system | user.

Record GmailLabel := {
  gl_id : jsstring;
  gl_name : jsstring;
  gl_type : LabelKind
}.

(** The fields of [GmailEmail] that do not come from the message headers
    (addresses, subject and dates are left out of the embedding). *)
Record GmailEmail := {
  email_id : jsstring;
  email_threadId : jsstring;
  folder : jsstring;
  email_body : EmailBody;
  isRead : bool;
  isStarred : bool;
  isDraft : bool;
  labels : list GmailLabel;
  attachments : list AttachmentMeta;
  email_raw : option jsstring;
  email_snippet : jsstring;
  email_sizeEstimate : Z
}.

Definition folder_labels : list jsstring :=
  [lit "INBOX"; lit "SENT"; lit "DRAFT"; lit "TRASH"; lit "SPAM"].

(** [labelIds.find((l) => [...].includes(l)) ?? 'INBOX'] *)
Definition folderLabel (labelIds : list jsstring) : jsstring :=
  match find (fun l => includes folder_labels l) labelIds with
  | Some l => l
  | None => lit "INBOX"
  end.

(** [parseGmailMessage(message)]; [None] when [extractBody] throws. *)
Definition parseGmailMessage (message : WireMessage) : option GmailEmail :=
  let labelIds := match labelIds message with Some l => l | None => [] end in
  let folderLabel := folderLabel labelIds in
  match extractBody (payload message) with
  | None => None
  | Some body =>
      let attachments := extractAttachments (payload message) in
      let gmailLabels :=
        map (fun i => {| gl_id := i; gl_name := i;
                         gl_type := if starts_with false (lit "Label_") i
                                    then user else system |}) labelIds in
      Some {| email_id := id message;
              email_threadId := threadId message;
              folder := folderLabel;
              email_body := body;
              isRead := negb (includes labelIds (lit "UNREAD"));
              isStarred := includes labelIds (lit "STARRED");
              isDraft := includes labelIds (lit "DRAFT");
              labels := gmailLabels;
              attachments := attachments;
              email_raw := raw message;
              email_snippet := match snippet message with
                               | Some v => v
                               | None => []
                               end;
              email_sizeEstimate := match sizeEstimate message with
                                    | Some v => v
                                    | None => 0%Z
                                    end |}
  end.

(** The pattern of the [parseAddress] of this package, written as in the
    parser package: [^ (?: Q? ( [^Q<]* ) Q? \s* )? <? ( [^>]+ ) >? $]. The
    optional group is the same, the address is any run of characters
    other than [>]. *)
Definition gmail_address_re : regex :=
  (Bol >> Opt Parser.name_part >> Opt (Str (lit "<"))
   >> Cap 2 (Rep true 1 (none_of ">")) >> Opt (Str (lit ">")) >> Eol)%re.

(** [parseAddress(raw)] of the Gmail parser. *)
Definition parseAddress (raw : jsstring) : Parser.Address :=
  match exec false gmail_address_re raw with
  | None => {| Parser.email := trim raw; Parser.name := None |}
  | Some (_, st) =>
      {| Parser.email := match capture 2 st with
                         | Some e => trim e
                         | None => trim raw
                         end;
         Parser.name := match capture 1 st with
                        | Some n => if truthy (trim n) then Some (trim n) else None
                        | None => None
                        end |}
  end.

(** [parseAddresses(raw)]; [None] is [undefined]. *)
Definition parseAddresses (raw : option jsstring) : list Parser.Address :=
  match raw with
  | None => []
  | Some r =>
      if negb (truthy r) then []
      else filter (fun addr => truthy (Parser.email addr))
                  (map (fun part => parseAddress (trim part))
                       (Parser.split_addresses r))
  end.

End GmailParser.

(* ================================================================== *)
(** ** gmail/src/provider.ts: the streaming protocol *)

Module GmailProvider.
Import Errors GmailParser.

Record MessageRef := {
  ref_id : jsstring;
  ref_threadId : jsstring
}.

(** The answer of [messages.list]. *)
Record ListResponse := {
  messages : option (list MessageRef);
  nextPageToken : option jsstring
}.

(** The parameters [stream] computes once from its options, before the
    loop: [batchSize], the label of the folder and the search query. *)
Record StreamParams := {
  batchSize : Z;
  streamLabelIds : option (list jsstring);
  q : option jsstring
}.

(** The requests the provider sends to the backend. *)
Inductive Request :=
| ListPage (params : StreamParams) (pageToken : option jsstring)
| GetMessage (id : jsstring).

Definition is_list (r : Request) : bool :=
  match r with ListPage _ _ => true | GetMessage _ => false end.

Section Stream.
(** The backend: some state [B], and how it answers the two calls the
    generator makes (each answer may be a rejection, already classified
    by [GmailApi.request]). *)
Variable B : Type.
Variable api_list :
  StreamParams -> option jsstring -> B -> outcome ListResponse Thrown * B.
Variable api_get : jsstring -> B -> outcome WireMessage Thrown * B.

(** The backend and the requests sent so far, oldest first. *)
Record World := {
  backend : B;
  sent : list Request
}.

(** Where the generator is suspended: before its first instruction, at
    the [yield] inside the [for] loop (with the messages of the current
    page still to visit and the continuation token of that page) or
    after completion. *)
Inductive Generator :=
| Fresh
| AtYield (remaining : list MessageRef) (pageToken : option jsstring)
| Completed.

(** What [next()] settles to. *)
Inductive IteratorResult :=
| Value (e : GmailEmail)
| Done
| Throws (t : Thrown).

(** The body of the [for] loop for [msg], up to the [yield]; [remaining]
    are the messages of the page after [msg]. *)
Definition visit (msg : MessageRef) (remaining : list MessageRef)
           (token : option jsstring) (w : World)
  : IteratorResult * Generator * World :=
  let (r, b') := api_get (ref_id msg) (backend w) in
  let w' := {| backend := b';
               sent := sent w ++ [GetMessage (ref_id msg)] |} in
  match r with
  | Rejected t => (Throws t, Completed, w')
  | Resolved full =>
      match parseGmailMessage full with
      | None => (Throws (ErrorObj (Error (lit "InvalidCharacterError"))),
                 Completed, w')
      | Some e => (Value e, AtYield remaining token, w')
      end
  end.

(** One turn of the [do ... while] loop: request a page, then enter the
    [for] loop. *)
Definition fetch_page (params : StreamParams) (pageToken : option jsstring)
           (w : World) : IteratorResult * Generator * World :=
  let (r, b') := api_list params pageToken (backend w) in
  let w' := {| backend := b';
               sent := sent w ++ [ListPage params pageToken] |} in
  match r with
  | Rejected t => (Throws t, Completed, w')
  | Resolved response =>
      match messages response with
      | Some (msg :: remaining) =>
          visit msg remaining (nextPageToken response) w'
      | _ => (Done, Completed, w')       (* [!response.messages?.length] *)
      end
  end.

(** [next()]: run the generator to its next [yield], or to its end. *)
Definition next (params : StreamParams) (g : Generator) (w : World)
  : IteratorResult * Generator * World :=
  match g with
  | Fresh => fetch_page params None w
  | AtYield (msg :: remaining) token => visit msg remaining token w
  | AtYield [] token =>
      (* the page is used up: [pageToken = response.nextPageToken],
         then the test of the [while] *)
      if truthy_opt token then fetch_page params token w
      else (Done, Completed, w)
  | Completed => (Done, Completed, w)
  end.

(** [return()], what [break] in a [for await] loop calls: the generator
    has no [finally] block, so it just completes. *)
Definition gen_return (g : Generator) (w : World) : Generator * World :=
  (Completed, w).

(** A consumer that takes up to [n] items with [for await] and then
    leaves the loop. *)
Fixpoint take (params : StreamParams) (n : nat) (g : Generator) (w : World)
  : list GmailEmail * Generator * World :=
  match n with
  | O => let (g', w') := gen_return g w in ([], g', w')
  | S n' =>
      match next params g w with
      | (Value e, g', w') =>
          let '(es, g'', w'') := take params n' g' w' in (e :: es, g'', w'')
      | (_, g', w') => ([], g', w')
      end
  end.

Definition pages_requested (w : World) : nat :=
  length (filter is_list (sent w)).

End Stream.

End GmailProvider.

(* ================================================================== *)
(** * Reference definitions

    What the properties are stated with: descriptions of texts and MIME
    trees that do not come from the sources, and the data of the examples. *)

(** ** Texts *)

Section TextDefinitions.
Import JS RegExp Parser.
Local Open Scope N_scope.

(** The characters of the alphabet. *)
Definition in_alphabet (c : N) : bool :=
  match b64value c with Some _ => true | None => false end.

(** Base64 without the padding. *)
Fixpoint b64_body (l : list N) : jsstring :=
  match l with
  | [] => []
  | a :: l1 =>
      match l1 with
      | [] => [b64char (a / 4); b64char (a mod 4 * 16)]
      | b :: l2 =>
          match l2 with
          | [] => [b64char (a / 4); b64char (a mod 4 * 16 + b / 16);
                   b64char (b mod 16 * 4)]
          | c :: l3 =>
              b64char (a / 4) :: b64char (a mod 4 * 16 + b / 16)
              :: b64char (b mod 16 * 4 + c / 64) :: b64char (c mod 64)
              :: b64_body l3
          end
      end
  end.

(** Well-formed UTF-16: code units below 65536 in which every surrogate is
    half of a pair. Every string of printable characters is of this kind. *)
Fixpoint well_formed (s : jsstring) : bool :=
  match s with
  | [] => true
  | c :: s' =>
      if isLeadSurrogate c then
        match s' with
        | d :: s'' => isTrailSurrogate d && well_formed s''
        | [] => false
        end
      else negb (isTrailSurrogate c) && (c <? 65536) && well_formed s'
  end.

(** The UTF-8 octets of a well-formed string. *)
Fixpoint utf8_bytes (s : jsstring) : list N :=
  match s with
  | [] => []
  | c :: s' =>
      if isLeadSurrogate c then
        match s' with
        | d :: s'' =>
            utf8 ((c - 55296) * 1024 + (d - 56320) + 65536) ++ utf8_bytes s''
        | [] => []
        end
      else utf8 c ++ utf8_bytes s'
  end.

(** The two substitutions of the encoder, and those of the decoder. *)
Definition to_url (c : N) : N :=
  let c1 := if c =? 43 then 45 else c in if c1 =? 47 then 95 else c1.

Definition from_url (c : N) : N :=
  let c1 := if c =? 45 then 43 else c in if c1 =? 95 then 47 else c1.

(** The string has no occurrence of the character. *)
Definition lacks (c : N) (s : jsstring) : bool :=
  forallb (fun x => negb (N.eqb x c)) s.

End TextDefinitions.

Section PatternDefinitions.
Import JS RegExp Parser.

(** Equality of two strings up to the case of ASCII letters. *)
Definition ci_equal (p o : jsstring) : bool :=
  Nat.eqb (length p) (length o) && starts_with true p o.

(** The closing tag does not occur, in any letter case, at a position of
    [body] in [body ++ closing]. *)
Fixpoint no_early_close (p body closing : jsstring) : bool :=
  match body with
  | [] => true
  | _ :: body' =>
      negb (starts_with true p (body ++ closing))
      && no_early_close p body' closing
  end.

(** The pattern of a block: an opening literal, [[^>]*], [>], a lazy
    [[\s\S]*?] and a closing literal. *)
Definition block_pattern (p1 p2 : jsstring) : regex :=
  (Str p1 >> Rep true 0 (none_of ">") >> Str (lit ">")
   >> Rep false 0 any >> Str p2)%re.

(** Patterns without [^]. *)
Fixpoint bol_free (r : regex) : bool :=
  match r with
  | Bol => false
  | Cat a b => bol_free a && bol_free b
  | Opt a | Cap _ a => bol_free a
  | _ => true
  end.

(** Whether a literal occurs somewhere in a string, in any letter case. *)
Fixpoint occurs_ci (p s : jsstring) : bool :=
  starts_with true p s
  || match s with
     | [] => false
     | _ :: s' => occurs_ci p s'
     end.

(** No occurrence of the literal, in any letter case, starts at one of the
    first [n] positions of the string. *)
Fixpoint absent_before (p : jsstring) (n : nat) (s : jsstring) : bool :=
  match n with
  | O => true
  | S n' =>
      negb (starts_with true p s)
      && match s with
         | [] => true
         | _ :: s' => absent_before p n' s'
         end
  end.

(** The characters a bare address is written with: neither white space nor
    one of the characters the pattern of [parseAddress] gives a meaning
    to. *)
Definition plain (c : N) : bool := addr_char c && name_char c.

End PatternDefinitions.

(** ** Messages *)

Section MessageDefinitions.
Import JS GmailParser.

Inductive kind := Html | Plain.

Definition kind_eqb (a b : kind) : bool :=
  match a, b with Html, Html | Plain, Plain => true | _, _ => false end.

(** The parts the walk assigns from, in document order, each with the field
    it sets and its inline data: a text/html or text/plain part with truthy
    inline data, reached through parts that are not themselves such a part. *)
Fixpoint qualifying_leaves (p : GmailMessagePart) : list (kind * jsstring) :=
  let '(Part mimeType _ _ body parts) := p in
  match (if mime_is mimeType "text/html" then inline_data body else None) with
  | Some d => [(Html, d)]
  | None =>
      match (if mime_is mimeType "text/plain" then inline_data body else None) with
      | Some d => [(Plain, d)]
      | None =>
          match parts with
          | Some l => flat_map qualifying_leaves l
          | None => []
          end
      end
  end.

(** The inline data of the last leaf of a kind, if there is one. *)
Definition last_of (k : kind) (leaves : list (kind * jsstring)) : option jsstring :=
  last (map (fun kd => Some (snd kd))
            (filter (fun kd => kind_eqb (fst kd) k) leaves)) None.

(** One assignment of the walk. *)
Definition assign (st : EmailBody) (kd : kind * jsstring) : option EmailBody :=
  match decodeBase64Url (snd kd) with
  | Some v =>
      Some match fst kd with
           | Html => {| html := Some v; text := text st |}
           | Plain => {| html := html st; text := v |}
           end
  | None => None
  end.

Fixpoint assign_all (l : list (kind * jsstring)) (st : EmailBody)
  : option EmailBody :=
  match l with
  | [] => Some st
  | kd :: l' =>
      match assign st kd with
      | Some st' => assign_all l' st'
      | None => None
      end
  end.

(** What [extractBody] walks over. *)
Definition leaves_of (payload : option GmailMessagePart) : list (kind * jsstring) :=
  match payload with
  | Some p => qualifying_leaves p
  | None => []
  end.

(** The folder by priority: the first of INBOX, SENT, DRAFT, TRASH, SPAM, in
    that order, that the message carries; INBOX when it carries none. *)
Definition folder_by_priority (labelIds : list jsstring) : jsstring :=
  match find (fun f => includes labelIds f) folder_labels with
  | Some f => f
  | None => lit "INBOX"
  end.

Definition with_labels (l : list jsstring) : WireMessage :=
  {| id := lit "m1"; threadId := lit "t1"; labelIds := Some l;
     snippet := None; sizeEstimate := None; payload := None; raw := None |}.

End MessageDefinitions.

(** ** Data of the examples *)

(** A test double: it fails on its first two invocations with a network
    error and succeeds from the third on; its state counts the invocations. *)
Definition flaky (n : nat) : outcome nat Errors.Thrown * nat :=
  if (n <? 2)%nat
  then (Rejected (Errors.ErrorObj (Errors.NetworkError (lit "connection failed") None)), S n)
  else (Resolved n, S n).

(** A test double that always fails with an authentication error. *)
Definition denied (n : nat) : outcome nat Errors.Thrown * nat :=
  (Rejected (Errors.ErrorObj (Errors.AuthenticationError (lit "denied") None)), S n).

Definition no_backoff (n : Z) : Client.RetryConfig :=
  {| Client.attempts := n; Client.backoff := Client.none;
     Client.initialDelay := 0%Q; Client.maxDelay := 0%Q |}.

Definition fresh_world : Client.World nat :=
  {| Client.env := 0; Client.calls := 0; Client.slept := []; Client.drawn := 0 |}.

Definition fixed_above_cap : Client.RetryConfig :=
  {| Client.attempts := 3; Client.backoff := Client.fixed;
     Client.initialDelay := 5000%Q; Client.maxDelay := 1000%Q |}.

Definition three_labels : list jsstring :=
  [lit "UNREAD"; lit "TRASH"; lit "INBOX"].

Definition unauthorized : GmailApi.Response unit :=
  {| GmailApi.status := 401;
     GmailApi.statusText := lit "Unauthorized";
     GmailApi.retryAfterHeader := None;
     GmailApi.errorBody := GmailApi.ErrorData (Some (lit "Invalid Credentials"));
     GmailApi.payload := Resolved tt |}.

Definition oauth_token : GmailApi.Credentials :=
  {| GmailApi.accessToken := lit "ya29.token";
     GmailApi.refreshToken := None;
     GmailApi.expiresAt := None |}.

(** A backend with three pages of two messages each, reached through the
    continuation tokens p2 and p3. *)
Definition ref (s : string) : GmailProvider.MessageRef :=
  {| GmailProvider.ref_id := lit s; GmailProvider.ref_threadId := lit "t" |}.

Definition page (l : list GmailProvider.MessageRef) (token : option jsstring)
  : GmailProvider.ListResponse :=
  {| GmailProvider.messages := Some l; GmailProvider.nextPageToken := token |}.

Definition three_pages (_ : GmailProvider.StreamParams) (token : option jsstring)
           (b : unit) : outcome GmailProvider.ListResponse Errors.Thrown * unit :=
  (Resolved
     match token with
     | None => page [ref "m1"; ref "m2"] (Some (lit "p2"))
     | Some t =>
         if jseqb t (lit "p2") then page [ref "m3"; ref "m4"] (Some (lit "p3"))
         else if jseqb t (lit "p3") then page [ref "m5"; ref "m6"] None
         else page [] None
     end, b).

Definition get_message (id : jsstring) (b : unit)
  : outcome GmailParser.WireMessage Errors.Thrown * unit :=
  (Resolved {| GmailParser.id := id; GmailParser.threadId := lit "t";
               GmailParser.labelIds := Some [lit "INBOX"];
               GmailParser.snippet := None; GmailParser.sizeEstimate := None;
               GmailParser.payload := None; GmailParser.raw := None |}, b).

Definition default_params : GmailProvider.StreamParams :=
  {| GmailProvider.batchSize := 50; GmailProvider.streamLabelIds := None;
     GmailProvider.q := None |}.

Definition nothing_sent : GmailProvider.World unit :=
  {| GmailProvider.backend := tt; GmailProvider.sent := [] |}.

Definition leaf (mime data : string) : GmailParser.GmailMessagePart :=
  GmailParser.Part (Some (lit mime)) None None
    (Some {| GmailParser.attachmentId := None; GmailParser.size := None;
             GmailParser.data := Some (lit data) |}) None.

(** A multipart/alternative container with two text/plain leaves, whose data
    decode to the one-letter texts a and b. *)
Definition two_plain_leaves : GmailParser.GmailMessagePart :=
  GmailParser.Part (Some (lit "multipart/alternative")) None None None
    (Some [leaf "text/plain" "YQ"; leaf "text/plain" "Yg"]).

(** The letter H, e with acute accent, the euro sign and an emoji (a
    surrogate pair). *)
Definition sample_text : jsstring := [72; 233; 8364; 55357; 56832]%N.

Definition bare_address : Parser.Address :=
  {| Parser.email := lit "user@example.com"; Parser.name := None |}.

Definition named_address : Parser.Address :=
  {| Parser.email := lit "john@example.com"; Parser.name := Some (lit "John Doe") |}.

(** ** Retries *)

Section RetryDefinitions.
Import Errors Client.
Variables St T : Type.
Variable fn : St -> outcome T Thrown * St.
Variable random : nat -> Q.

(** The state of the operation after [k] invocations from [s]. *)
Fixpoint after (k : nat) (s : St) : St :=
  match k with
  | O => s
  | S k' => after k' (snd (fn s))
  end.

(** The first [k] invocations from [s] all fail, each with an error the
    wrapper retries. *)
Definition fails_retryably (k : nat) (s : St) : bool :=
  forallb (fun j => match fst (fn (after j s)) with
                    | Rejected e => negb (non_retryable e)
                    | Resolved _ => false
                    end) (seq 0 k).

(** The delays slept after the failed attempts [0], ..., [k - 1], when [d]
    random values were drawn before. *)
Definition delays (c : RetryConfig) (d k : nat) : list Q :=
  map (fun j => getDelay j c (random (if draws_random c then d + j else d)))
      (seq 0 k).

End RetryDefinitions.

(** [this.expiresAt && this.expiresAt < new Date()], the test [request]
    starts with, at the time [now]. *)
Definition token_expired (cred : GmailApi.Credentials) (now : Z) : bool :=
  match GmailApi.expiresAt cred with
  | Some e => (e <? now)%Z
  | None => false
  end.

(** An operation that sends one request with the credentials [cred] and is
    answered by [r] every time. Its state counts the invocations, and
    [clock n] is the time [new Date()] gives to the invocation that comes
    after [n] others: every invocation reads the clock anew. *)
Definition always_answered {T : Type} (cred : GmailApi.Credentials)
           (clock : nat -> Z) (r : GmailApi.Response T) (n : nat)
  : outcome (option T) Errors.Thrown * nat :=
  (GmailApi.request cred (clock n) (Resolved r), S n).

(** A clock that has advanced by five seconds, the delay of
    [fixed_above_cap], at every invocation, and a token that runs out one
    second after the first. *)
Definition five_seconds_apart (n : nat) : Z := 5000 * Z.of_nat n.

Definition short_lived_token : GmailApi.Credentials :=
  {| GmailApi.accessToken := lit "ya29.token";
     GmailApi.refreshToken := None;
     GmailApi.expiresAt := Some 1000%Z |}.

(** ** Numbers in headers *)

Section NumberDefinitions.
Import JS.

(** The number a string of decimal digits denotes. *)
Definition decimal (s : jsstring) : Z :=
  fold_left (fun acc c => (acc * 10 + (Z.of_N c - 48))%Z) s 0%Z.

(** A rate-limited response whose [Retry-After] header is [h]. *)
Definition rate_limited (h : string) : GmailApi.Response unit :=
  {| GmailApi.status := 429;
     GmailApi.statusText := lit "Too Many Requests";
     GmailApi.retryAfterHeader := Some (lit h);
     GmailApi.errorBody := GmailApi.Unparsable;
     GmailApi.payload :=
       Rejected (Errors.ErrorObj (Errors.Error (lit "Unexpected end of JSON input"))) |}.

(** A response with status 200 whose body is an HTML page, and what
    [response.json()] rejects with for it. *)
Definition not_json_error : Errors.Thrown :=
  Errors.ErrorObj (Errors.Error (lit "Unexpected token < in JSON at position 0")).

Definition not_json : GmailApi.Response unit :=
  {| GmailApi.status := 200;
     GmailApi.statusText := lit "OK";
     GmailApi.retryAfterHeader := None;
     GmailApi.errorBody := GmailApi.Unparsable;
     GmailApi.payload := Rejected not_json_error |}.

End NumberDefinitions.

(** ** Paged listings *)

Section StreamDefinitions.
Import GmailParser GmailProvider.
(** A mailbox seen through [messages.list]: the page each continuation
    token leads to. *)
Variable pages : option jsstring -> ListResponse.
Variable params : StreamParams.

(** What a reader of the whole stream meets when it follows at most [fuel]
    pages from the page of [tok]: the message references, and the requests
    sent. The stream stops at a page without messages and after a page
    without a continuation token. *)
Fixpoint listing (fuel : nat) (tok : option jsstring) : list MessageRef :=
  match fuel with
  | O => []
  | S fuel' =>
      match messages (pages tok) with
      | Some (m :: ms) =>
          (m :: ms) ++
          (if truthy_opt (nextPageToken (pages tok))
           then listing fuel' (nextPageToken (pages tok)) else [])
      | _ => []
      end
  end.

Fixpoint requests (fuel : nat) (tok : option jsstring) : list Request :=
  match fuel with
  | O => []
  | S fuel' =>
      ListPage params tok ::
      match messages (pages tok) with
      | Some (m :: ms) =>
          map (fun r => GetMessage (ref_id r)) (m :: ms) ++
          (if truthy_opt (nextPageToken (pages tok))
           then requests fuel' (nextPageToken (pages tok)) else [])
      | _ => []
      end
  end.

(** The chain of pages from [tok] ends within [fuel] pages. *)
Fixpoint ends_within (fuel : nat) (tok : option jsstring) : bool :=
  match fuel with
  | O => false
  | S fuel' =>
      match messages (pages tok) with
      | Some (_ :: _) =>
          if truthy_opt (nextPageToken (pages tok))
          then ends_within fuel' (nextPageToken (pages tok)) else true
      | _ => true
      end
  end.

End StreamDefinitions.

(** The pages of the backend [three_pages]. *)
Definition three_pages_of (token : option jsstring) : GmailProvider.ListResponse :=
  match token with
  | None => page [ref "m1"; ref "m2"] (Some (lit "p2"))
  | Some t =>
      if jseqb t (lit "p2") then page [ref "m3"; ref "m4"] (Some (lit "p3"))
      else if jseqb t (lit "p3") then page [ref "m5"; ref "m6"] None
      else page [] None
  end.

(** The message [get_message] answers with. *)
Definition message_of (id : jsstring) : GmailParser.WireMessage :=
  {| GmailParser.id := id; GmailParser.threadId := lit "t";
     GmailParser.labelIds := Some [lit "INBOX"];
     GmailParser.snippet := None; GmailParser.sizeEstimate := None;
     GmailParser.payload := None; GmailParser.raw := None |}.

(** A first page that is empty but carries a continuation token. *)
Definition empty_first_page (_ : GmailProvider.StreamParams) (token : option jsstring)
           (b : unit) : outcome GmailProvider.ListResponse Errors.Thrown * unit :=
  (Resolved
     match token with
     | None => page [] (Some (lit "p2"))
     | Some _ => page [ref "m3"; ref "m4"] None
     end, b).

(** ** MIME trees *)

Section TreeDefinitions.
Import JS GmailParser.

(** The parts of a MIME tree in document order: a part, then its sub-parts
    with theirs. *)
Fixpoint all_parts (p : GmailMessagePart) : list GmailMessagePart :=
  let '(Part _ _ _ _ parts) := p in
  p :: match parts with
       | Some l => flat_map all_parts l
       | None => []
       end.

(** The attachment a part stands for: it has an attachment id and a file
    name, neither of them empty. *)
Definition attachment_of (p : GmailMessagePart) : option AttachmentMeta :=
  let '(Part mimeType filename _ body _) := p in
  match body, filename with
  | Some b, Some f =>
      match attachmentId b with
      | Some a =>
          if truthy a && truthy f
          then Some {| att_id := a; att_filename := f;
                       att_mimeType := match mimeType with
                                       | Some m => m
                                       | None => lit "application/octet-stream"
                                       end;
                       att_size := match size b with
                                   | Some n => n
                                   | None => 0%Z
                                   end |}
          else None
      | None => None
      end
  | _, _ => None
  end.

Definition parts_of (payload : option GmailMessagePart) : list GmailMessagePart :=
  match payload with
  | Some p => all_parts p
  | None => []
  end.

(** A file attached to a message that is itself attached. *)
Definition attached (name id : string) (sub : option (list GmailMessagePart))
  : GmailMessagePart :=
  Part None (Some (lit name)) None
       (Some {| attachmentId := Some (lit id); size := Some 7%Z; data := None |})
       sub.

Definition nested_attachments : GmailMessagePart :=
  Part (Some (lit "multipart/mixed")) (Some []) None None
       (Some [attached "outer.eml" "a1" (Some [attached "inner.pdf" "a2" None]);
              attached "last.txt" "a3" None]).

(** A message whose only part is [p]. *)
Definition message_with (p : GmailMessagePart) : WireMessage :=
  {| id := lit "m1"; threadId := lit "t1"; labelIds := None;
     snippet := None; sizeEstimate := None; payload := Some p; raw := None |}.

End TreeDefinitions.

(** ** Quoted-printable text *)

Section QuotedPrintableDefinitions.
Import JS Parser.

(** What a quoted-printable text is made of: a character written as it is,
    an octet written as [=] and two hexadecimal digits, and a soft line
    break ([=] before a line break, CR LF or LF alone). *)
Inductive qp_item :=
| QLit (c : N)
| QEsc (x y : N)
| QSoft (crlf : bool).

Definition qp_render (i : qp_item) : jsstring :=
  match i with
  | QLit c => [c]
  | QEsc x y => [61; x; y]%N
  | QSoft crlf => 61%N :: (if crlf then [13; 10]%N else [10%N])
  end.

(** What the item stands for. *)
Definition qp_value (i : qp_item) : jsstring :=
  match i with
  | QLit c => [c]
  | QEsc x y => match hex2 x y with Some v => [v] | None => [] end
  | QSoft _ => []
  end.

(** A character written as it is is not [=]; the digits of an octet are
    hexadecimal digits, of either case. *)
Definition qp_item_ok (i : qp_item) : bool :=
  match i with
  | QLit c => negb (c =? 61)%N
  | QEsc x y => hex_digit x && hex_digit y
  | QSoft _ => true
  end.

Definition qp_soft (i : qp_item) : bool :=
  match i with QSoft _ => true | _ => false end.

(** The text caf=C3=A9, broken after the first letter, with =3d41. *)
Definition qp_sample : list qp_item :=
  [QLit 99; QSoft true; QLit 97; QLit 102; QEsc 67 51; QEsc 65 57;
   QSoft false; QEsc 51 100; QLit 52; QLit 49]%N.

End QuotedPrintableDefinitions.

(** ** Address lists *)

Section AddressListDefinitions.
Import JS RegExp Parser.

(** The number of double quotes of a text. *)
Definition quotes (t : jsstring) : nat :=
  length (filter (fun c => N.eqb c 34) t).

(** An address given by its name, the local part and the domain of its
    email. *)
Definition mailbox (a : jsstring * jsstring * jsstring) : Address :=
  let '(nm, loc, domain) := a in
  {| email := loc ++ 64%N :: domain; name := Some nm |}.

(** The name is not empty and has no double quote, no [<] and no white
    space at its ends; the local part and the domain are not empty and have
    no white space, [>], [@], double quote and comma. *)
Definition listable (a : jsstring * jsstring * jsstring) : bool :=
  let '(nm, loc, domain) := a in
  truthy nm && jseqb (trim nm) nm && forallb name_char nm
  && truthy loc && truthy domain
  && forallb (fun c => addr_char c && negb (N.eqb c 34) && negb (N.eqb c 44))
             (loc ++ domain).

(** The address as [formatAddress] writes it: the name between double
    quotes, a space and the email between angle brackets. *)
Definition written (a : jsstring * jsstring * jsstring) : jsstring :=
  let '(nm, loc, domain) := a in
  34%N :: nm ++ 34%N :: [32%N] ++ 60%N :: (loc ++ 64%N :: domain) ++ [62%N].

Definition two_mailboxes : list (jsstring * jsstring * jsstring) :=
  [(lit "Doe, John", lit "john", lit "example.com");
   (lit "Jane", lit "jane.roe", lit "example.org")].

End AddressListDefinitions.

(** ** Plain text *)

Section PlainTextDefinitions.
Import JS RegExp Parser.

(** No position of the string starts a run of three line feeds. *)
Fixpoint calm (s : jsstring) : bool :=
  (run (fun c => (c =? 10)%N) s <? 3)
  && match s with
     | [] => true
     | _ :: s' => calm s'
     end.

(** A text [htmlToText] has nothing to do on: no [<], no [&], no three
    line feeds in a row and no white space at its ends. *)
Definition plain_text (s : jsstring) : bool :=
  lacks 60 s && lacks 38 s && calm s && jseqb (trim s) s.

End PlainTextDefinitions.

(** ** Documents with style and script blocks *)

Section BlockDefinitions.
Import JS RegExp Parser.

Inductive block_kind := StyleBlock | ScriptBlock.

Definition tag_of (k : block_kind) : string :=
  match k with
  | StyleBlock => "style"
  | ScriptBlock => "script"
  end.

Definition same_kind (k k' : block_kind) : bool :=
  match k, k' with
  | StyleBlock, StyleBlock | ScriptBlock, ScriptBlock => true
  | _, _ => false
  end.

(** The literals a block of the kind starts and ends with, [<style] and
    [</style>] for a style block. *)
Definition opening_of (k : block_kind) : jsstring := lit "<" ++ lit (tag_of k).
Definition closing_of (k : block_kind) : jsstring :=
  lit "</" ++ lit (tag_of k) ++ lit ">".

(** A piece of a document: some text, or a block written as its opening
    literal, its attributes, [>], its content and its end tag. *)
Inductive piece :=
| Text (t : jsstring)
| Block (k : block_kind) (opening attrs body closing : jsstring).

Definition render_piece (p : piece) : jsstring :=
  match p with
  | Text t => t
  | Block _ opening attrs body closing =>
      opening ++ attrs ++ lit ">" ++ body ++ closing
  end.

Definition render (d : list piece) : jsstring := flat_map render_piece d.

Definition is_block (k : block_kind) (p : piece) : bool :=
  match p with
  | Text _ => false
  | Block k' _ _ _ _ => same_kind k k'
  end.

(** The document without its blocks of the kind. *)
Definition drop (k : block_kind) (d : list piece) : list piece :=
  filter (fun p => negb (is_block k p)) d.

Definition without_style (d : list piece) : jsstring :=
  render (drop StyleBlock d).

(** The document without its blocks: the text alone. *)
Definition texts (d : list piece) : jsstring :=
  render (drop ScriptBlock (drop StyleBlock d)).

(** A block is closed by the literal end tag: it starts with the opening
    literal and ends with the closing literal of its kind, in any letter
    case, its attributes hold no [>], and the end tag is the first one
    after that [>]. *)
Definition closed (p : piece) : bool :=
  match p with
  | Text _ => true
  | Block k opening attrs body closing =>
      ci_equal (opening_of k) opening
      && ci_equal (closing_of k) closing
      && lacks 62 attrs
      && no_early_close (closing_of k) body closing
  end.

(** An occurrence of the literal, in any letter case, begins at the head
    of the text: the literal is there, or as much of it as the text has
    room for. *)
Fixpoint begins (p t : jsstring) : bool :=
  match p, t with
  | [], _ => true
  | _ :: _, [] => true
  | x :: p', y :: t' => char_eqb true x y && begins p' t'
  end.

(** No occurrence of the literal begins in the text, not even one that
    the end of the text cuts short. *)
Fixpoint begins_nowhere (p t : jsstring) : bool :=
  match t with
  | [] => true
  | _ :: t' => negb (begins p t) && begins_nowhere p t'
  end.

(** A document in which the blocks are what the opening literals
    announce: every block is closed, no [<style] begins outside the style
    blocks, and no [<script] and no [<style] begins in the text. *)
Definition tidy (d : list piece) : bool :=
  forallb closed d
  && begins_nowhere (opening_of StyleBlock) (without_style d)
  && begins_nowhere (opening_of ScriptBlock) (texts d)
  && begins_nowhere (opening_of StyleBlock) (texts d).

(** The least number of characters a match of the pattern consumes. *)
Fixpoint min_len (r : regex) : nat :=
  match r with
  | Str s => length s
  | Set_ _ => 1
  | Cat a b => min_len a + min_len b
  | Opt _ => 0
  | Rep _ min _ => min
  | Cap _ a => min_len a
  | Bol | Eol => 0
  end.

(** A page with two style blocks and a script block that holds an end tag
    of the other kind and a tag, and a rest in which a style block is
    closed with a space in its end tag and a script block not at all. *)
Definition sample_page : list piece :=
  [Text (lit "<p>Hi</p>");
   Block StyleBlock (lit "<STYLE") (lit " type=x") (lit "a<b{}") (lit "</Style>");
   Text (lit "<p>there</p>");
   Block ScriptBlock (lit "<script") (lit " defer")
         (lit "if (a<b) write('</style><p>')") (lit "</SCRIPT>");
   Block StyleBlock (lit "<style") [] (lit "p{}") (lit "</style>");
   Text (lit "<p>bye</p>")].

Definition malformed_rest : jsstring :=
  lit "<style>i{}</style ><script>go()".

End BlockDefinitions.

(* ================================================================== *)
(** * Properties *)

(* ------------------------------------------------------------------ *)
(** ** Tactics for arithmetic on code units *)

(** Linear arithmetic with division and remainder by constants. *)
Ltac ndiv := zify; Z.to_euclidean_division_equations; lia.

(** Case analysis on every comparison of the goal, discarding the cases the
    hypotheses rule out. *)
Ltac ncases :=
  repeat (match goal with
          | |- context [N.ltb ?a ?b] => destruct (N.ltb_spec a b)
          | |- context [N.leb ?a ?b] => destruct (N.leb_spec a b)
          | |- context [N.eqb ?a ?b] => destruct (N.eqb_spec a b)
          end; cbn [andb orb negb]; try lia).

(** The same, for goals with divisions. *)
Ltac dcases :=
  repeat (match goal with
          | |- context [N.ltb ?a ?b] => destruct (N.ltb_spec a b)
          | |- context [N.leb ?a ?b] => destruct (N.leb_spec a b)
          | |- context [N.eqb ?a ?b] => destruct (N.eqb_spec a b)
          end; cbn [andb orb negb]; try ndiv).

Ltac btrue :=
  repeat (apply andb_true_intro; split);
  try apply negb_true_iff; try apply andb_false_iff;
  rewrite ?N.ltb_lt, ?N.leb_le, ?N.leb_gt, ?N.ltb_ge; ndiv.

(** Decide the test of the conditional at the head of the goal. *)
Ltac head_if :=
  match goal with
  | |- (if ?c then _ else _) = _ =>
      first [ replace c with true by (symmetry; btrue)
            | replace c with false by (symmetry; apply N.ltb_ge; ndiv) ];
      cbv iota
  end.

(** ** Strings *)

Lemma jseqb_eq : forall a b, jseqb a b = true <-> a = b.
Proof.
  induction a as [|x a IH]; destruct b as [|y b]; simpl; split;
    try discriminate; try reflexivity.
  - intros H. apply andb_true_iff in H as [Hx Hr].
    apply N.eqb_eq in Hx. apply IH in Hr. congruence.
  - intros H. injection H as -> ->. rewrite N.eqb_refl. simpl. now apply IH.
Qed.

Lemma jseqb_neq : forall a b, jseqb a b = false <-> a <> b.
Proof.
  intros a b. split.
  - intros H E. apply jseqb_eq in E. congruence.
  - intros H. destruct (jseqb a b) eqn:E; [|reflexivity].
    apply jseqb_eq in E. contradiction.
Qed.

Lemma includes_In : forall l x, includes l x = true <-> In x l.
Proof.
  intros l x. unfold includes. rewrite existsb_exists. split.
  - intros [y [Hy E]]. apply jseqb_eq in E. now subst.
  - intros H. exists x. split; [assumption|]. now apply jseqb_eq.
Qed.

(* ------------------------------------------------------------------ *)
(** ** The retry policy *)

Section RetryProperties.
Import Errors Client.
Variables St T : Type.
Variable fn : St -> outcome T Thrown * St.
Variable random : nat -> Q.

Let World := Client.World St.

(** One failed attempt that may be retried: the operation was invoked once
    more and, unless it was the last attempt, the wrapper slept. *)
Lemma retry_loop_step :
  forall c n k last (w : World) e s',
    fn (env w) = (Rejected e, s') ->
    non_retryable e = false ->
    retry_loop fn random c (S n) k last w =
    retry_loop fn random c n (S k) e
      (snd ((if (Z.of_nat k <? attempts c - 1)%Z
             then sleep_delay random k c else ret tt)
              {| env := s'; calls := S (calls w);
                 slept := slept w; drawn := drawn w |})).
Proof.
  intros c n k last w e s' Hfn Hnr.
  cbn [retry_loop]. unfold bind at 1. unfold invoke. rewrite Hfn, Hnr.
  unfold bind.
  destruct ((if (Z.of_nat k <? attempts c - 1)%Z
             then sleep_delay random k c else ret tt) _) as [u w1].
  reflexivity.
Qed.

Lemma retry_loop_resolved :
  forall c n k last (w : World) v s',
    fn (env w) = (Resolved v, s') ->
    retry_loop fn random c (S n) k last w =
    (Resolved v, {| env := s'; calls := S (calls w);
                    slept := slept w; drawn := drawn w |}).
Proof.
  intros c n k last w v s' Hfn.
  cbn [retry_loop]. unfold bind, invoke. rewrite Hfn. reflexivity.
Qed.

Lemma retry_loop_nonretryable :
  forall c n k last (w : World) e s',
    fn (env w) = (Rejected e, s') ->
    non_retryable e = true ->
    retry_loop fn random c (S n) k last w =
    (Rejected e, {| env := s'; calls := S (calls w);
                    slept := slept w; drawn := drawn w |}).
Proof.
  intros c n k last w e s' Hfn Hnr.
  cbn [retry_loop]. unfold bind, invoke. rewrite Hfn, Hnr. reflexivity.
Qed.

Lemma sleep_delay_none :
  forall k c (w : World),
    backoff c = none ->
    sleep_delay random k c w =
    (tt, {| env := env w; calls := calls w;
            slept := slept w ++ [0%Q]; drawn := drawn w |}).
Proof.
  intros k c w Hb. unfold sleep_delay, getDelay, draws_random.
  rewrite Hb. reflexivity.
Qed.

(** With the loop never entered the operation is not invoked at all and
    the wrapper rejects with [undefined]. *)
Lemma withRetry_no_attempts :
  forall c (w : World),
    (attempts c <= 0)%Z ->
    withRetry fn random (Some c) w = (Rejected Undefined, w).
Proof.
  intros c w H. unfold withRetry.
  replace (Z.to_nat (attempts c)) with 0%nat by lia. reflexivity.
Qed.

(** C4. An operation that fails twice with errors that may be retried and
    then succeeds, wrapped with [attempts = 3] and [backoff = 'none'],
    yields the success after exactly three invocations (and two sleeps of
    0 ms). An operation that fails with an error whose [retryable] property
    is [false] is invoked exactly once and that very error is raised again,
    whatever number of attempts (one at least) is configured. *)
Theorem withRetry_invocations :
  (forall c (w : World) e1 s1 e2 s2 v s3,
      attempts c = 3%Z -> backoff c = none ->
      fn (env w) = (Rejected e1, s1) -> non_retryable e1 = false ->
      fn s1 = (Rejected e2, s2) -> non_retryable e2 = false ->
      fn s2 = (Resolved v, s3) ->
      withRetry fn random (Some c) w =
      (Resolved v, {| env := s3; calls := 3 + calls w;
                      slept := (slept w ++ [0%Q]) ++ [0%Q];
                      drawn := drawn w |}))
  /\
  (forall c (w : World) e s1,
      (1 <= attempts c)%Z ->
      fn (env w) = (Rejected (ErrorObj e), s1) ->
      retryable e = Some false ->
      withRetry fn random (Some c) w =
      (Rejected (ErrorObj e), {| env := s1; calls := 1 + calls w;
                                 slept := slept w; drawn := drawn w |})).
Proof.
  split.
  - intros c w e1 s1 e2 s2 v s3 Ha Hb H1 N1 H2 N2 H3.
    unfold withRetry. rewrite Ha. change (Z.to_nat 3) with 3%nat.
    rewrite (retry_loop_step c _ _ _ w H1 N1). rewrite Ha.
    change (Z.of_nat 0 <? 3 - 1)%Z with true. cbv iota.
    rewrite sleep_delay_none by assumption. cbn [snd].
    erewrite retry_loop_step; [| cbn [env]; eassumption | assumption].
    rewrite Ha. change (Z.of_nat 1 <? 3 - 1)%Z with true. cbv iota.
    rewrite sleep_delay_none by assumption. cbn [snd env calls slept drawn].
    erewrite retry_loop_resolved; [| cbn [env]; eassumption].
    reflexivity.
  - intros c w e s1 Ha Hfn Hr.
    unfold withRetry.
    destruct (Z.to_nat (attempts c)) as [|n] eqn:E; [lia|].
    apply retry_loop_nonretryable; [assumption|].
    unfold non_retryable. rewrite Hr. reflexivity.
Qed.

(** C9. With [backoff = 'fixed'] the delay is [initialDelay] for every
    attempt number and whatever [Math.random] would return; it is not
    capped: when [initialDelay] is above [maxDelay], so is the delay. *)
Theorem getDelay_fixed_uncapped :
  forall attempt config rnd,
    backoff config = fixed ->
    getDelay attempt config rnd = initialDelay config
    /\ ((maxDelay config < initialDelay config)%Q ->
        (maxDelay config < getDelay attempt config rnd)%Q).
Proof.
  intros attempt config rnd Hb. unfold getDelay. rewrite Hb.
  split; [reflexivity | trivial].
Qed.

End RetryProperties.

Lemma withRetry_invocations_witness :
  Client.withRetry flaky (fun _ => 0%Q) (Some (no_backoff 3)) fresh_world =
    (Resolved 2, {| Client.env := 3; Client.calls := 3;
                    Client.slept := [0%Q; 0%Q]; Client.drawn := 0 |})
  /\ Client.withRetry denied (fun _ => 0%Q) (Some (no_backoff 5)) fresh_world =
    (Rejected (Errors.ErrorObj (Errors.AuthenticationError (lit "denied") None)),
     {| Client.env := 1; Client.calls := 1;
        Client.slept := []; Client.drawn := 0 |}).
Proof.
  split.
  - eapply (proj1 (withRetry_invocations flaky (fun _ => 0%Q)) (no_backoff 3)
                  fresh_world); reflexivity.
  - eapply (proj2 (withRetry_invocations denied (fun _ => 0%Q)) (no_backoff 5)
                  fresh_world); [vm_compute; discriminate | reflexivity | reflexivity].
Defined.

Lemma getDelay_fixed_uncapped_witness :
  Client.getDelay 7 fixed_above_cap (1 # 2) = 5000%Q
  /\ (1000 < Client.getDelay 7 fixed_above_cap (1 # 2))%Q.
Proof.
  destruct (getDelay_fixed_uncapped 7 fixed_above_cap (1 # 2) eq_refl) as [H1 H2].
  split; [exact H1 | apply H2; reflexivity].
Defined.

(* ------------------------------------------------------------------ *)
(** ** Labels, folders and flags *)

Section LabelProperties.
Import GmailParser.

Ltac label_cases labelId :=
  unfold labelToFolderType;
  repeat match goal with
         | |- context [jseqb labelId ?s] =>
             let E := fresh "E" in
             destruct (jseqb labelId s) eqn:E;
             [apply jseqb_eq in E | apply jseqb_neq in E]
         end.

(** C10. [labelToFolderType] sends exactly INBOX, SENT, DRAFT, TRASH and
    SPAM to inbox, sent, drafts, trash and spam, and every other label id
    to custom; so it never answers archive, and no folder built by
    [labelToFolder] has that type. *)
Theorem labelToFolderType_exact :
  forall labelId,
    (labelToFolderType labelId = inbox <-> labelId = lit "INBOX")
    /\ (labelToFolderType labelId = sent <-> labelId = lit "SENT")
    /\ (labelToFolderType labelId = drafts <-> labelId = lit "DRAFT")
    /\ (labelToFolderType labelId = trash <-> labelId = lit "TRASH")
    /\ (labelToFolderType labelId = spam <-> labelId = lit "SPAM")
    /\ (labelToFolderType labelId = custom <-> ~ In labelId folder_labels)
    /\ labelToFolderType labelId <> archive
    /\ (forall label, type (labelToFolder label) <> archive).
Proof.
  intros labelId.
  assert (Harch : forall l, labelToFolderType l <> archive).
  { intros l. label_cases l; discriminate. }
  repeat split; try apply Harch; try (intros; apply Harch);
    unfold folder_labels; simpl In;
    label_cases labelId; subst;
    try discriminate; try reflexivity; try congruence;
    try (intros; intuition (try discriminate; congruence)).
Qed.

(** The folder follows the order of the message's own label list: a
    message labelled SENT then INBOX is filed under SENT, where the
    priority order asks for INBOX, and swapping its two labels changes the
    folder. *)
Lemma folder_priority_counterexample :
  option_map folder (parseGmailMessage (with_labels [lit "SENT"; lit "INBOX"]))
    = Some (lit "SENT")
  /\ folder_by_priority [lit "SENT"; lit "INBOX"] = lit "INBOX"
  /\ option_map folder (parseGmailMessage (with_labels [lit "INBOX"; lit "SENT"]))
     <> option_map folder (parseGmailMessage (with_labels [lit "SENT"; lit "INBOX"])).
Proof.
  repeat split; vm_compute; congruence.
Qed.

Lemma parseGmailMessage_folder :
  forall message e,
    parseGmailMessage message = Some e ->
    folder e = folderLabel (match labelIds message with
                            | Some l => l
                            | None => []
                            end).
Proof.
  intros message e H. unfold parseGmailMessage in H.
  destruct (extractBody (payload message)); [|discriminate].
  injection H as <-. reflexivity.
Qed.

Lemma folderLabel_first :
  forall l,
    (exists before f after,
        l = before ++ f :: after /\ In f folder_labels
        /\ (forall x, In x before -> ~ In x folder_labels)
        /\ folderLabel l = f)
    \/ ((forall x, In x l -> ~ In x folder_labels)
        /\ folderLabel l = lit "INBOX").
Proof.
  unfold folderLabel. induction l as [|x l IH]; cbn [find].
  - right. split; [intros x []|reflexivity].
  - destruct (includes folder_labels x) eqn:E.
    + left. exists [], x, l. repeat split.
      * now apply includes_In.
      * intros y [].
    + assert (Hx : ~ In x folder_labels).
      { intros H. apply includes_In in H. congruence. }
      destruct IH as [[before [f [after [-> [Hf [Hb Hr]]]]]] | [Hall Hr]].
      * left. exists (x :: before), f, after. repeat split; try assumption.
        intros y [<- | Hy]; [assumption | now apply Hb].
      * right. split; [|assumption].
        intros y [<- | Hy]; [assumption | now apply Hall].
Qed.

(** C3, as the code has it. The folder of the parsed message is the first
    element of the message's own label list, in the order of that list,
    that is one of INBOX, SENT, DRAFT, TRASH, SPAM; it is INBOX when the
    list has none of the five. *)
Theorem parseGmailMessage_folder_first_label :
  forall message e,
    parseGmailMessage message = Some e ->
    let l := match labelIds message with Some l => l | None => [] end in
    (exists before f after,
        l = before ++ f :: after /\ In f folder_labels
        /\ (forall x, In x before -> ~ In x folder_labels)
        /\ folder e = f)
    \/ ((forall x, In x l -> ~ In x folder_labels)
        /\ folder e = lit "INBOX").
Proof.
  intros message e H l. rewrite (parseGmailMessage_folder _ H).
  apply folderLabel_first.
Qed.

End LabelProperties.

Lemma parseGmailMessage_folder_first_label_witness :
  exists e,
    GmailParser.parseGmailMessage (with_labels three_labels) = Some e
    /\ ((exists before f after,
            three_labels = before ++ f :: after
            /\ In f GmailParser.folder_labels
            /\ (forall x, In x before -> ~ In x GmailParser.folder_labels)
            /\ GmailParser.folder e = f)
        \/ ((forall x, In x three_labels -> ~ In x GmailParser.folder_labels)
            /\ GmailParser.folder e = lit "INBOX")).
Proof.
  eexists. split; [reflexivity|].
  apply (parseGmailMessage_folder_first_label (with_labels three_labels)).
  reflexivity.
Defined.

(* ------------------------------------------------------------------ *)
(** ** Classification of HTTP failures *)

Section ApiProperties.
Import JS Errors GmailApi.
Variable T : Type.

(** [handleError] on its own follows the status table. *)
Lemma handleError_table :
  forall (r : Response T),
    errorBody r <> NullBody ->
    exists e,
      handleError r = ErrorObj e
      /\ cause e = None
      /\ ((status r = 401%Z \/ status r = 403%Z) ->
          cls e = AuthenticationErrorK /\ code e = Some (lit "AUTH_ERROR")
          /\ retryable e = Some false)
      /\ (status r = 429%Z ->
          cls e = RateLimitErrorK /\ code e = Some (lit "RATE_LIMIT")
          /\ retryable e = Some true
          /\ retryAfter e = match retryAfterHeader r with
                            | Some h => if truthy h
                                        then Some (times1000 (parseInt10 h))
                                        else None
                            | None => None
                            end)
      /\ (status r <> 401%Z -> status r <> 403%Z -> status r <> 429%Z ->
          cls e = ProviderErrorK /\ code e = Some (lit "PROVIDER_ERROR")
          /\ retryable e = Some (if (status r =? 404)%Z then false
                                 else (500 <=? status r)%Z)).
Proof.
  intros r Hb. unfold handleError.
  destruct (errorBody r) as [| |m] eqn:Eb; [|contradiction|];
    destruct (Z.eqb_spec (status r) 401) as [E1|E1];
    destruct (Z.eqb_spec (status r) 429) as [E2|E2];
    destruct (Z.eqb_spec (status r) 403) as [E3|E3];
    destruct (Z.eqb_spec (status r) 404) as [E4|E4];
    try lia;
    (eexists; (split; [reflexivity|]); cbn;
     repeat split; intros; try lia; try reflexivity;
     repeat match goal with H : _ \/ _ |- _ => destruct H end; try lia).
Qed.

Lemma handleError_not_FaktoorApiError :
  forall (r : Response T), is_FaktoorApiError (handleError r) = false.
Proof.
  intros r. unfold handleError.
  destruct (errorBody r);
    repeat match goal with
           | |- context [if ?b then _ else _] => destruct b
           end; reflexivity.
Qed.

(** Whatever [handleError] throws is caught by [request] and raised again
    wrapped in a network error. *)
Lemma request_not_ok :
  forall cred now (r : Response T),
    match expiresAt cred with Some e => (e <? now)%Z | None => false end = false ->
    ok r = false ->
    request cred now (Resolved r) =
    Rejected (ErrorObj (NetworkError (lit "Failed to connect to Gmail API")
                                     (as_cause (handleError r)))).
Proof.
  intros cred now r He Hok. unfold request. rewrite He, Hok. cbn [negb].
  rewrite handleError_not_FaktoorApiError. reflexivity.
Qed.

End ApiProperties.

(** C1, at a 401 response. [handleError] throws the authentication error the
    status table asks for, but what [request] raises to its caller is a
    network error (code NETWORK_ERROR, retryable) that holds the
    authentication error as its cause. *)
Theorem request_401_raises_NetworkError :
  GmailApi.handleError unauthorized =
    Errors.ErrorObj (Errors.AuthenticationError (lit "Invalid Credentials") None)
  /\ exists e,
      GmailApi.request oauth_token 0 (Resolved unauthorized) =
        Rejected (Errors.ErrorObj e)
      /\ Errors.cls e = Errors.NetworkErrorK
      /\ Errors.code e = Some (lit "NETWORK_ERROR")
      /\ Errors.retryable e = Some true
      /\ Errors.cause e =
           Some (Errors.ErrorObj
                   (Errors.AuthenticationError (lit "Invalid Credentials") None)).
Proof.
  split; [reflexivity|].
  eexists. split; [reflexivity|]. repeat split.
Qed.

(* ------------------------------------------------------------------ *)
(** ** Streaming *)

Section StreamProperties.
Import Errors GmailParser GmailProvider.
Variable B : Type.
Variable api_list :
  StreamParams -> option jsstring -> B -> outcome ListResponse Thrown * B.
Variable api_get : jsstring -> B -> outcome WireMessage Thrown * B.
Variable params : StreamParams.

Let World := GmailProvider.World B.
Let next := next api_list api_get params.
Let take := take api_list api_get params.
Let visit := visit api_get.

Lemma pages_requested_app :
  forall (b b' : B) l r,
    pages_requested {| backend := b'; sent := l ++ [r] |} =
    (pages_requested {| backend := b; sent := l |} + if is_list r then 1 else 0)%nat.
Proof.
  intros b b' l r. unfold pages_requested. cbn [sent].
  rewrite filter_app, length_app. cbn [filter].
  destruct (is_list r); reflexivity.
Qed.

(** Visiting a message sends one request for that message, no page
    request. *)
Lemma visit_pages :
  forall msg remaining token (w : World),
    pages_requested (snd (visit msg remaining token w)) = pages_requested w.
Proof.
  intros msg remaining token w. unfold visit, GmailProvider.visit.
  destruct (api_get (ref_id msg) (backend w)) as [r b'].
  assert (H : pages_requested
                {| backend := b'; sent := sent w ++ [GetMessage (ref_id msg)] |}
              = pages_requested w).
  { rewrite (pages_requested_app (backend w)). destruct w. cbn. lia. }
  destruct r as [full|t]; [destruct (parseGmailMessage full)|]; exact H.
Qed.

(** While the page being consumed still has messages, [next()] sends no
    page request. *)
Lemma next_within_page :
  forall msg remaining token (w : World),
    pages_requested (snd (next (AtYield (msg :: remaining) token) w))
    = pages_requested w.
Proof. intros. apply visit_pages. Qed.

Lemma fetch_page_pages :
  forall token (w : World),
    pages_requested (snd (fetch_page api_list api_get params token w))
    = S (pages_requested w).
Proof.
  intros token w. unfold fetch_page.
  destruct (api_list params token (backend w)) as [r b'].
  assert (H : pages_requested
                {| backend := b'; sent := sent w ++ [ListPage params token] |}
              = S (pages_requested w)).
  { rewrite (pages_requested_app (backend w)). destruct w. cbn. lia. }
  destruct r as [response|t]; [|exact H].
  destruct (messages response) as [[|msg l]|]; try exact H.
  fold (visit msg l (nextPageToken response)). rewrite visit_pages. exact H.
Qed.

(** A call of [next()] sends at most one page request. *)
Lemma next_at_most_one_page :
  forall g (w : World),
    (pages_requested (snd (next g w)) <= S (pages_requested w))%nat.
Proof.
  intros g w. unfold next, GmailProvider.next.
  destruct g as [|[|msg remaining] token|].
  - rewrite fetch_page_pages. lia.
  - destruct (truthy_opt token); [rewrite fetch_page_pages|]; cbn; lia.
  - fold (visit msg remaining token). rewrite visit_pages. lia.
  - cbn. lia.
Qed.

(** A consumer that stops within the page being consumed causes no further
    page request. *)
Lemma take_within_page :
  forall n remaining token (w : World),
    (n <= length remaining)%nat ->
    pages_requested (snd (take n (AtYield remaining token) w))
    = pages_requested w.
Proof.
  induction n as [|n IH]; intros remaining token w Hn.
  - reflexivity.
  - destruct remaining as [|msg remaining]; [cbn in Hn; lia|].
    cbn [take GmailProvider.take GmailProvider.next].
    pose proof (visit_pages msg remaining token w) as Hv.
    unfold visit, GmailProvider.visit in *.
    destruct (api_get (ref_id msg) (backend w)) as [r b'].
    destruct r as [full|t]; [destruct (parseGmailMessage full) as [e|]|];
      cbn [snd] in *; try exact Hv.
    specialize (IH remaining token
                  {| backend := b'; sent := sent w ++ [GetMessage (ref_id msg)] |}).
    destruct (take n (AtYield remaining token) _) as [[es g'] w''].
    cbn [snd] in *. rewrite IH; [exact Hv | cbn in Hn; lia].
Qed.

(** When the first page holds at least [n] messages ([n] at least 1), a
    consumer that takes [n] items and leaves the loop has caused exactly one
    page request. *)
Lemma take_first_page :
  forall n (w : World) response b',
    (1 <= n)%nat ->
    api_list params None (backend w) = (Resolved response, b') ->
    (exists l, messages response = Some l /\ (n <= length l)%nat) ->
    pages_requested (snd (take n Fresh w)) = S (pages_requested w).
Proof.
  intros n w response b' Hn Hl [l [Hm Hlen]].
  destruct n as [|n]; [lia|].
  destruct l as [|msg l]; [cbn in Hlen; lia|].
  pose proof (@take_within_page (S n) (msg :: l) (nextPageToken response)
                {| backend := b'; sent := sent w ++ [ListPage params None] |} Hlen)
    as Hp.
  unfold take in *.
  cbn [GmailProvider.take GmailProvider.next] in *.
  unfold fetch_page. rewrite Hl, Hm. rewrite Hp.
  rewrite (pages_requested_app (backend w)). destruct w. cbn. lia.
Qed.

End StreamProperties.

(** C7. On the backend with three pages of two messages, a consumer that
    takes two items and leaves the loop has caused one page request (and two
    message requests), where reading the stream to its end takes three. For
    every backend: [return()] sends nothing; a [next()] issued while the
    current page still has messages sends no page request; so a consumer
    that stops within the current page causes no further page request, and
    one that stops within the first page has caused exactly one. *)
Theorem stream_early_termination :
  (let '(items, g, w) :=
     GmailProvider.take three_pages get_message default_params 2
                        GmailProvider.Fresh nothing_sent in
   map GmailParser.email_id items = [lit "m1"; lit "m2"]
   /\ g = GmailProvider.Completed
   /\ GmailProvider.pages_requested w = 1
   /\ GmailProvider.sent w =
        [GmailProvider.ListPage default_params None;
         GmailProvider.GetMessage (lit "m1");
         GmailProvider.GetMessage (lit "m2")])
  /\ (let '(items, g, w) :=
        GmailProvider.take three_pages get_message default_params 7
                           GmailProvider.Fresh nothing_sent in
      length items = 6 /\ GmailProvider.pages_requested w = 3)
  /\ (forall (B : Type) api_list api_get params,
         (forall g (w : GmailProvider.World B),
             GmailProvider.gen_return g w = (GmailProvider.Completed, w))
         /\ (forall msg remaining token (w : GmailProvider.World B),
                GmailProvider.pages_requested
                  (snd (GmailProvider.next api_list api_get params
                          (GmailProvider.AtYield (msg :: remaining) token) w))
                = GmailProvider.pages_requested w)
         /\ (forall n remaining token (w : GmailProvider.World B),
                n <= length remaining ->
                GmailProvider.pages_requested
                  (snd (GmailProvider.take api_list api_get params n
                          (GmailProvider.AtYield remaining token) w))
                = GmailProvider.pages_requested w)
         /\ (forall n (w : GmailProvider.World B) response b',
                1 <= n ->
                api_list params None (GmailProvider.backend w)
                  = (Resolved response, b') ->
                (exists l, GmailProvider.messages response = Some l
                           /\ n <= length l) ->
                GmailProvider.pages_requested
                  (snd (GmailProvider.take api_list api_get params n
                          GmailProvider.Fresh w))
                = S (GmailProvider.pages_requested w))).
Proof.
  split; [vm_compute; repeat split|].
  split; [vm_compute; repeat split|].
  intros B api_list api_get params. repeat split.
  - apply next_within_page.
  - intros. now apply take_within_page.
  - intros. eapply take_first_page; eassumption.
Qed.

Lemma stream_early_termination_witness :
  GmailProvider.pages_requested
    (snd (GmailProvider.take three_pages get_message default_params 2
            GmailProvider.Fresh nothing_sent)) = 1.
Proof.
  refine (proj2 (proj2 (proj2
            (proj2 (proj2 stream_early_termination)
                   unit three_pages get_message default_params)))
            2 nothing_sent _ tt _ _ _).
  - apply le_S, le_n.
  - reflexivity.
  - eexists. split; [reflexivity|]. apply le_n.
Defined.

(* ------------------------------------------------------------------ *)
(** ** Body extraction *)

Section BodyProperties.
Import JS GmailParser.

(** Induction on the MIME tree: a property holds of a part when it holds of
    all its sub-parts. *)
Section PartInduction.
Variable P : GmailMessagePart -> Prop.
Hypothesis step :
  forall mimeType filename headers body parts,
    match parts with Some l => Forall P l | None => True end ->
    P (Part mimeType filename headers body parts).

Lemma part_induction : forall p : GmailMessagePart, P p.
Proof.
  refine (fix IH (p : GmailMessagePart) : P p :=
            match p with
            | Part m f h b parts => step m f h b parts _
            end).
  destruct parts as [l|]; [|exact I].
  refine ((fix all (l : list GmailMessagePart) : Forall P l :=
             match l with
             | [] => Forall_nil P
             | x :: l' => Forall_cons x (IH x) (all l')
             end) l).
Qed.
End PartInduction.

Lemma assign_all_app :
  forall l1 l2 st,
    assign_all (l1 ++ l2) st =
    match assign_all l1 st with
    | Some st' => assign_all l2 st'
    | None => None
    end.
Proof.
  induction l1 as [|kd l1 IH]; intros l2 st; cbn [assign_all app].
  - reflexivity.
  - destruct (assign st kd); [apply IH | reflexivity].
Qed.

(** The walk is the sequence of assignments of the qualifying leaves. *)
Lemma processpart_assign_all :
  forall p st, processpart p st = assign_all (qualifying_leaves p) st.
Proof.
  induction p as [m f h b parts IH] using part_induction. intros st.
  cbn [processpart qualifying_leaves].
  destruct (if mime_is m "text/html" then inline_data b else None) as [d|].
  { cbn [assign_all]. unfold assign. cbn [fst snd].
    destruct (decodeBase64Url d); reflexivity. }
  destruct (if mime_is m "text/plain" then inline_data b else None) as [d|].
  { cbn [assign_all]. unfold assign. cbn [fst snd].
    destruct (decodeBase64Url d); reflexivity. }
  destruct parts as [l|]; [|reflexivity].
  revert st. induction l as [|x l IHl]; intros st; cbn [flat_map].
  - reflexivity.
  - inversion IH as [|? ? Hx Hl]; subst.
    rewrite assign_all_app, Hx.
    destruct (assign_all (qualifying_leaves x) st); [now apply IHl | reflexivity].
Qed.

Lemma last_of_cons :
  forall k kd l,
    last_of k (kd :: l) =
    match last_of k l with
    | Some d => Some d
    | None => if kind_eqb (fst kd) k then Some (snd kd) else None
    end.
Proof.
  intros k kd l. unfold last_of. cbn [filter].
  set (L := filter (fun kd0 => kind_eqb (fst kd0) k) l).
  assert (H : forall (M : list (kind * jsstring)),
             M = [] \/ exists d, last (map (fun kd0 => Some (snd kd0)) M) None = Some d).
  { induction M as [|x M IHM]; [now left|]. right.
    destruct IHM as [-> | [d Hd]]; [now exists (snd x)|].
    exists d. destruct M; [discriminate|]. exact Hd. }
  destruct (kind_eqb (fst kd) k).
  - destruct (H L) as [-> | [d Hd]]; [reflexivity|].
    rewrite Hd. destruct L; [discriminate|]. exact Hd.
  - destruct (H L) as [-> | [d Hd]]; [reflexivity|]. now rewrite Hd.
Qed.

Lemma assign_all_result :
  forall l st,
    match assign_all l st with
    | Some body =>
        Forall (fun kd => decodeBase64Url (snd kd) <> None) l
        /\ Some (text body) = match last_of Plain l with
                              | Some d => decodeBase64Url d
                              | None => Some (text st)
                              end
        /\ html body = match last_of Html l with
                       | Some d => decodeBase64Url d
                       | None => html st
                       end
    | None => Exists (fun kd => decodeBase64Url (snd kd) = None) l
    end.
Proof.
  induction l as [|[k d] l IH]; intros st.
  - cbn. repeat split. constructor.
  - cbn [assign_all]. unfold assign. cbn [fst snd].
    destruct (decodeBase64Url d) as [v|] eqn:Ed.
    2:{ now left. }
    match goal with |- context [assign_all l ?s] => specialize (IH s) end.
    destruct (assign_all l _) as [body|].
    2:{ now right. }
    destruct IH as [Hall [Ht Hh]].
    rewrite !last_of_cons. cbn [fst snd].
    split; [constructor; [cbn; congruence | exact Hall]|].
    destruct k; cbn [kind_eqb html text] in *.
    + split.
      * destruct (last_of Plain l); exact Ht.
      * destruct (last_of Html l); [exact Hh | congruence].
    + split.
      * destruct (last_of Plain l); [exact Ht | congruence].
      * destruct (last_of Html l); exact Hh.
Qed.

(** C2, as the code has it. Each qualifying part overwrites its field, so
    the LAST text/plain part with inline data, in document order, gives
    [text] and the last text/html part gives [html]; parts of the same type
    are never merged; without a qualifying part the body is the default
    [{ html: null, text: '' }]. The extraction throws exactly when the data
    of some qualifying part is not valid base64. *)
Theorem extractBody_last_leaf_wins :
  forall payload,
    match extractBody payload with
    | Some body =>
        Forall (fun kd => decodeBase64Url (snd kd) <> None) (leaves_of payload)
        /\ Some (text body) = match last_of Plain (leaves_of payload) with
                              | Some d => decodeBase64Url d
                              | None => Some []
                              end
        /\ html body = match last_of Html (leaves_of payload) with
                       | Some d => decodeBase64Url d
                       | None => None
                       end
    | None =>
        Exists (fun kd => decodeBase64Url (snd kd) = None) (leaves_of payload)
    end.
Proof.
  intros [p|]; unfold extractBody, leaves_of.
  - rewrite processpart_assign_all.
    exact (assign_all_result (qualifying_leaves p) {| html := None; text := [] |}).
  - repeat split. constructor.
Qed.

End BodyProperties.

(** The text of the body is the content of the second leaf, not of the
    first. *)
Lemma extractBody_first_leaf_counterexample :
  GmailParser.decodeBase64Url (lit "YQ") = Some (lit "a")
  /\ GmailParser.decodeBase64Url (lit "Yg") = Some (lit "b")
  /\ GmailParser.extractBody (Some two_plain_leaves) =
       Some {| GmailParser.html := None; GmailParser.text := lit "b" |}
  /\ option_map GmailParser.text (GmailParser.extractBody (Some two_plain_leaves))
       <> GmailParser.decodeBase64Url (lit "YQ").
Proof.
  repeat split; vm_compute; congruence.
Qed.

(* ------------------------------------------------------------------ *)
(** ** Replacements by regular expression *)

Section RegExpProperties.
Import JS RegExp Parser.

(** A global replacement of one character by another is a [map]. *)
Lemma replace_from_char :
  forall c d s b,
    replace_from false (Str [c]) (const [d]) b 0 s =
    map (fun x => if N.eqb x c then d else x) s.
Proof.
  intros c d. induction s as [|x s IH]; intros b.
  - reflexivity.
  - cbn [replace_from map]. unfold match_at.
    cbn [matches rest starts_with char_eqb hd_error].
    rewrite (N.eqb_sym c x), andb_true_r.
    destruct (N.eqb x c).
    + cbn [hd_error advance pos length const app Nat.add]. f_equal. apply IH.
    + cbn [hd_error]. f_equal. apply IH.
Qed.

Lemma replace_all_char :
  forall c d s,
    replace_all false (Str [c]) (const [d]) s =
    map (fun x => if N.eqb x c then d else x) s.
Proof. intros. apply replace_from_char. Qed.

Lemma only_equals : forall x, only "=" x = N.eqb x 61.
Proof. reflexivity. Qed.

Lemma exec_trailing_equals :
  forall body k i,
    Forall (fun c => c <> 61%N) body ->
    k <= 2 ->
    exec_from false trailing_equals i (body ++ pad k) =
    match k with
    | 0 => None
    | _ => Some (i + length body,
                 {| pos := k; rest := []; captures := [] |})
    end.
Proof.
  induction body as [|x body IH]; intros k i Hb Hk.
  - cbn [app length]. rewrite Nat.add_0_r.
    destruct k as [|[|[|k]]]; try lia; reflexivity.
  - inversion Hb as [|? ? Hx Hb']; subst.
    cbn [app exec_from]. unfold match_at, trailing_equals.
    cbn [matches rest run]. rewrite only_equals.
    apply N.eqb_neq in Hx. rewrite Hx. cbn [seq rev map flat_map hd_error].
    rewrite IH by assumption. cbn [length].
    replace (S i + length body) with (i + S (length body)) by lia.
    reflexivity.
Qed.

(** Removing the padding: [.replace(/=+$/, '')]. *)
Lemma replace_trailing_equals :
  forall body k,
    Forall (fun c => c <> 61%N) body ->
    k <= 2 ->
    replace_first false trailing_equals (const []) (body ++ pad k) = body.
Proof.
  intros body k Hb Hk. unfold replace_first, exec.
  rewrite exec_trailing_equals by assumption.
  destruct k.
  - cbn [pad repeat]. apply app_nil_r.
  - cbn [rest const Nat.add]. rewrite firstn_app, firstn_all, Nat.sub_diag.
    cbn [firstn]. now rewrite !app_nil_r.
Qed.

End RegExpProperties.

(* ------------------------------------------------------------------ *)
(** ** Base64 *)

Section Base64Properties.
Import JS.
Local Open Scope N_scope.

(** Induction on a list of octets, three at a time. *)
Lemma list_ind3 :
  forall (A : Type) (P : list A -> Prop),
    P [] -> (forall a, P [a]) -> (forall a b, P [a; b]) ->
    (forall a b c r, P r -> P (a :: b :: c :: r)) ->
    forall l, P l.
Proof.
  intros A P H0 H1 H2 H3.
  fix IH 1. intros [|a [|b [|c r]]];
    [exact H0 | apply H1 | apply H2 | apply H3; apply IH].
Qed.

Lemma b64char_in_alphabet : forall v, in_alphabet (b64char v) = true.
Proof.
  intros v. unfold in_alphabet, b64char. ncases; unfold b64value; ncases; reflexivity.
Qed.

Lemma b64value_b64char : forall v, v < 64 -> b64value (b64char v) = Some v.
Proof.
  intros v Hv. unfold b64char. ncases; unfold b64value; ncases; f_equal; lia.
Qed.

Lemma in_alphabet_inv :
  forall c, in_alphabet c = true ->
            c <> 61 /\ c <> 45 /\ c <> 95 /\ isAsciiWhitespace c = false.
Proof.
  intros c. unfold in_alphabet, b64value, isAsciiWhitespace.
  ncases; intros; try discriminate; repeat split; lia.
Qed.

Lemma b64_body_alphabet :
  forall l, Forall (fun c => in_alphabet c = true) (b64_body l).
Proof.
  induction l using list_ind3; cbn [b64_body];
    repeat constructor; auto using b64char_in_alphabet.
Qed.

Lemma mod4_step : forall n : nat, (S (S (S (S n))) mod 4 = n mod 4)%nat.
Proof.
  intros n. change (S (S (S (S n)))) with (4 + n)%nat.
  rewrite Nat.add_comm. exact (Nat.Div0.mod_add n 1 4).
Qed.

(** [btoa] pads the body to a multiple of four characters, with the number
    of [=] signs [decodeBase64Url] computes from the length of the body. *)
Lemma btoa_bytes_body :
  forall l,
    let k := ((4 - length (b64_body l) mod 4) mod 4)%nat in
    btoa_bytes l = b64_body l ++ pad k
    /\ (k <= 2)%nat
    /\ (length (b64_body l ++ pad k) mod 4 = 0)%nat
    /\ (length (b64_body l) mod 4 <> 1)%nat.
Proof.
  induction l as [|a|a b|a b c r IH] using list_ind3.
  - cbn. repeat split; lia.
  - cbn. repeat split; lia.
  - cbn. repeat split; lia.
  - cbn zeta in *. cbn [btoa_bytes b64_body length app].
    rewrite !mod4_step. destruct IH as (E & Hk & Hl & H1).
    rewrite <- E. repeat split; try assumption.
    rewrite E. exact Hl.
Qed.

Lemma filter_all :
  forall (A : Type) (p : A -> bool) l,
    Forall (fun x => p x = true) l -> filter p l = l.
Proof.
  induction 1 as [|x l Hx Hl IH]; cbn; [reflexivity|]. now rewrite Hx, IH.
Qed.

Lemma rev_head_Forall :
  forall (A : Type) (P : A -> Prop) l x r,
    Forall P l -> rev l = x :: r -> P x.
Proof.
  intros A P l x r Hl E. rewrite Forall_forall in Hl. apply Hl.
  apply in_rev. rewrite E. now left.
Qed.

Lemma strip_padding_body :
  forall body k,
    Forall (fun c => c <> 61) body -> (k <= 2)%nat ->
    strip_padding (body ++ pad k) = body.
Proof.
  intros body k Hb Hk. unfold strip_padding.
  destruct k as [|[|[|k]]]; try lia; cbn [pad repeat].
  - rewrite app_nil_r. destruct (rev body) as [|x r] eqn:E; [reflexivity|].
    pose proof (rev_head_Forall Hb E) as Hx.
    apply N.eqb_neq in Hx. now rewrite Hx.
  - rewrite rev_app_distr. cbn [rev app N.eqb Pos.eqb].
    destruct (rev body) as [|x r] eqn:E.
    + apply (f_equal (@rev N)) in E. rewrite rev_involutive in E. now subst.
    + pose proof (rev_head_Forall Hb E) as Hx.
      apply N.eqb_neq in Hx. rewrite Hx.
      rewrite <- E. apply rev_involutive.
  - rewrite rev_app_distr. cbn [rev app N.eqb Pos.eqb]. apply rev_involutive.
Qed.

(** Decoding the body gives the octets back. *)
Lemma sextets_b64_body :
  forall l,
    Forall (fun b => b < 256) l ->
    option_map atob_bytes (sextets (b64_body l)) = Some l.
Proof.
  induction l as [|a|a b|a b c r IH] using list_ind3; intros Hl.
  - reflexivity.
  - inversion Hl; subst. cbn [b64_body sextets].
    rewrite !b64value_b64char by ndiv. cbn. repeat f_equal. ndiv.
  - inversion Hl as [|? ? Ha Hl1]; inversion Hl1; subst. cbn [b64_body sextets].
    rewrite !b64value_b64char by ndiv. cbn. repeat f_equal; ndiv.
  - inversion Hl as [|? ? Ha Hl1]; inversion Hl1 as [|? ? Hb Hl2];
      inversion Hl2 as [|? ? Hc Hr]; subst.
    specialize (IH Hr). cbn [b64_body sextets].
    rewrite !b64value_b64char by ndiv.
    destruct (sextets (b64_body r)) as [vs|]; [|discriminate].
    cbn [option_map atob_bytes] in *. injection IH as IH. rewrite IH.
    repeat f_equal; ndiv.
Qed.

(** [atob] undoes [btoa] on octets. *)
Lemma atob_btoa_bytes :
  forall l, Forall (fun b => b < 256) l -> atob (btoa_bytes l) = Some l.
Proof.
  intros l Hl. destruct (btoa_bytes_body l) as (E & Hk & Hlen & H1).
  set (k := ((4 - length (b64_body l) mod 4) mod 4)%nat) in *.
  assert (Hne : Forall (fun c => c <> 61) (b64_body l)).
  { eapply Forall_impl; [|apply b64_body_alphabet].
    intros c Hc. now apply in_alphabet_inv in Hc. }
  unfold atob. rewrite E.
  rewrite filter_all.
  2:{ apply Forall_app. split.
      - eapply Forall_impl; [|apply b64_body_alphabet].
        intros c Hc. apply in_alphabet_inv in Hc as (_ & _ & _ & ->). reflexivity.
      - unfold pad. apply Forall_forall. intros x Hx.
        apply repeat_spec in Hx. now subst. }
  rewrite Hlen. cbn [Nat.eqb]. rewrite strip_padding_body by assumption.
  destruct (Nat.eqb_spec (length (b64_body l) mod 4) 1); [contradiction|].
  now apply sextets_b64_body.
Qed.

End Base64Properties.

(* ------------------------------------------------------------------ *)
(** ** UTF-8 and URI escaping *)

Section Utf8Properties.
Import JS.
Local Open Scope N_scope.

Lemma well_formed_ind :
  forall P : jsstring -> Prop,
    P [] ->
    (forall c s, isLeadSurrogate c = false -> isTrailSurrogate c = false ->
                 c < 65536 -> well_formed s = true -> P s -> P (c :: s)) ->
    (forall c d s, isLeadSurrogate c = true -> isTrailSurrogate d = true ->
                   well_formed s = true -> P s -> P (c :: d :: s)) ->
    forall s, well_formed s = true -> P s.
Proof.
  intros P H0 H1 H2. fix IH 1. intros [|c s]; [intros; exact H0|].
  cbn [well_formed]. destruct (isLeadSurrogate c) eqn:El.
  - destruct s as [|d s]; [discriminate|]. intros H.
    apply andb_true_iff in H as [Hd Hs]. apply H2; auto.
  - intros H. apply andb_true_iff in H as [H Hs].
    apply andb_true_iff in H as [Ht Hc].
    apply negb_true_iff in Ht. apply N.ltb_lt in Hc. apply H1; auto.
Qed.

Lemma hex2_hexUpper :
  forall b, b < 256 -> hex2 (hexUpper (b / 16)) (hexUpper (b mod 16)) = Some b.
Proof.
  intros b Hb. unfold hex2, hexUpper. dcases; unfold hexval; dcases;
    f_equal; ndiv.
Qed.

Lemma hex2_hexLower :
  forall b, b < 256 ->
            hex2 (hexLower (b / 16 mod 16)) (hexLower (b mod 16)) = Some b.
Proof.
  intros b Hb. unfold hex2, hexLower. dcases; unfold hexval; dcases;
    f_equal; ndiv.
Qed.

Lemma hexUpper_not_u : forall v, v < 16 -> N.eqb (hexUpper v) 117 = false.
Proof. intros v Hv. unfold hexUpper. dcases; reflexivity. Qed.

(** [unescape] reads back the octets [encodeURIComponent] escaped. *)
Lemma unescape_escape_octets :
  forall l rest,
    Forall (fun b => b < 256) l ->
    unescape (escape_octets l ++ rest) = l ++ unescape rest.
Proof.
  induction l as [|b l IH]; intros rest Hl; [reflexivity|].
  inversion Hl as [|? ? Hb Hl']; subst.
  cbn [escape_octets flat_map app unescape N.eqb Pos.eqb].
  rewrite hexUpper_not_u by ndiv. rewrite hex2_hexUpper by assumption.
  f_equal. now apply IH.
Qed.

Lemma utf8_octets : forall cp, cp < 1114112 -> Forall (fun b => b < 256) (utf8 cp).
Proof.
  intros cp Hcp. unfold utf8. dcases; repeat constructor; ndiv.
Qed.

Lemma uriUnescaped_ascii :
  forall c, uriUnescaped c = true -> c < 128 /\ c <> 37.
Proof.
  intros c. unfold uriUnescaped, isAlnum. cbn [existsb].
  dcases; intros; try discriminate; lia.
Qed.

Lemma pair_code_point :
  forall c d,
    isLeadSurrogate c = true -> isTrailSurrogate d = true ->
    let cp := (c - 55296) * 1024 + (d - 56320) + 65536 in
    65536 <= cp /\ cp < 1114112 /\ utf16 cp = [c; d].
Proof.
  intros c d Hc Hd cp. unfold isLeadSurrogate, isTrailSurrogate in *.
  apply andb_true_iff in Hc as [Hc1 Hc2]. apply andb_true_iff in Hd as [Hd1 Hd2].
  apply N.leb_le in Hc1, Hc2, Hd1, Hd2. subst cp.
  repeat split; try lia. unfold utf16. dcases. f_equal; [|f_equal]; ndiv.
Qed.

Lemma utf8_bytes_octets :
  forall s, well_formed s = true -> Forall (fun b => b < 256) (utf8_bytes s).
Proof.
  apply well_formed_ind;
    [| intros c s Hl Ht Hc Hs IH | intros c d s Hl Ht Hs IH]; cbn [utf8_bytes].
  - constructor.
  - rewrite Hl. apply Forall_app. split; [apply utf8_octets; lia | assumption].
  - rewrite Hl. apply Forall_app. split; [|assumption].
    apply utf8_octets. now apply pair_code_point.
Qed.

(** [unescape(encodeURIComponent(s))] is the UTF-8 encoding of [s]. *)
Lemma unescape_encodeURIComponent :
  forall s,
    well_formed s = true ->
    exists e, encodeURIComponent s = Some e /\ unescape e = utf8_bytes s.
Proof.
  apply well_formed_ind;
    [| intros c s Hl Ht Hc Hs [e [He Hu]] | intros c d s Hl Ht Hs [e [He Hu]]].
  - exists []. split; reflexivity.
  - cbn [encodeURIComponent utf8_bytes]. rewrite He, Hl, Ht.
    destruct (uriUnescaped c) eqn:Eu.
    + apply uriUnescaped_ascii in Eu as [Hlt Hne].
      exists (c :: e). split; [reflexivity|].
      cbn [unescape]. apply N.eqb_neq in Hne. rewrite Hne.
      unfold utf8. apply N.ltb_lt in Hlt. rewrite Hlt. cbn [app]. now rewrite Hu.
    + eexists. split; [reflexivity|].
      rewrite unescape_escape_octets by (apply utf8_octets; lia). now rewrite Hu.
  - cbn [encodeURIComponent utf8_bytes]. rewrite He, Hl, Ht.
    assert (Hu' : uriUnescaped c = false).
    { destruct (uriUnescaped c) eqn:Eu; [|reflexivity].
      apply uriUnescaped_ascii in Eu as [Hlt _].
      unfold isLeadSurrogate in Hl. apply andb_true_iff in Hl as [Hl _].
      apply N.leb_le in Hl. lia. }
    rewrite Hu'. eexists. split; [reflexivity|].
    rewrite unescape_escape_octets; [now rewrite Hu|].
    apply utf8_octets. now apply pair_code_point.
Qed.

End Utf8Properties.

Section DecodeProperties.
Import JS.
Local Open Scope N_scope.

(** The string [decodeBase64Url] hands to [decodeURIComponent] is read as
    one escaped octet per character of the decoded base64. *)
Lemma items_percent :
  forall l,
    Forall (fun b => b < 256) l ->
    items (flat_map Parser.percent l) = Some (map Oct l).
Proof.
  induction l as [|b l IH]; intros Hl; [reflexivity|].
  inversion Hl as [|? ? Hb Hl']; subst.
  cbn [flat_map Parser.percent app items N.eqb Pos.eqb map].
  rewrite hex2_hexLower by assumption. now rewrite IH.
Qed.

(** Decoding the UTF-8 octets of a code point that is not a surrogate gives
    its UTF-16 code units. *)
Lemma decode_items_utf8 :
  forall cp rest,
    cp < 1114112 -> ~ (55296 <= cp <= 57343) ->
    decode_items (map Oct (utf8 cp) ++ rest) =
    option_map (app (utf16 cp)) (decode_items rest).
Proof.
  intros cp rest Hcp Hns. unfold utf8.
  destruct (N.ltb_spec cp 128) as [H1|H1];
    [|destruct (N.ltb_spec cp 2048) as [H2|H2];
      [|destruct (N.ltb_spec cp 65536) as [H3|H3]]];
    cbn [map app decode_items]; unfold isContinuation;
    repeat head_if.
  - unfold utf16. replace (cp <? 65536) with true by (symmetry; apply N.ltb_lt; lia).
    destruct (decode_items rest); reflexivity.
  - replace ((192 + cp / 64 - 192) * 64 + (128 + cp mod 64 - 128)) with cp by ndiv.
    reflexivity.
  - replace ((224 + cp / 4096 - 224) * 4096 + (128 + cp / 64 mod 64 - 128) * 64
             + (128 + cp mod 64 - 128)) with cp by ndiv.
    reflexivity.
  - replace ((240 + cp / 262144 - 240) * 262144
             + (128 + cp / 4096 mod 64 - 128) * 4096
             + (128 + cp / 64 mod 64 - 128) * 64
             + (128 + cp mod 64 - 128)) with cp by ndiv.
    reflexivity.
Qed.

Lemma map_Oct_app :
  forall a b, map Oct (a ++ b) = map Oct a ++ map Oct b.
Proof. intros. apply map_app. Qed.

(** Decoding the UTF-8 octets of a well-formed string gives the string. *)
Lemma decode_items_utf8_bytes :
  forall s, well_formed s = true -> decode_items (map Oct (utf8_bytes s)) = Some s.
Proof.
  apply well_formed_ind;
    [| intros c s Hl Ht Hc Hs IH | intros c d s Hl Ht Hs IH]; cbn [utf8_bytes].
  - reflexivity.
  - rewrite Hl, map_Oct_app, decode_items_utf8, IH.
    + unfold utf16. apply N.ltb_lt in Hc. now rewrite Hc.
    + lia.
    + unfold isLeadSurrogate, isTrailSurrogate in *.
      apply andb_false_iff in Hl, Ht. intros [Ha Hb].
      destruct (N.le_gt_cases c 56319) as [Hle|Hgt].
      * destruct Hl as [Hl|Hl]; apply N.leb_gt in Hl; lia.
      * destruct Ht as [Ht|Ht]; apply N.leb_gt in Ht; lia.
  - destruct (pair_code_point c d Hl Ht) as (Hlo & Hhi & E).
    rewrite Hl, map_Oct_app, decode_items_utf8, IH.
    + cbn zeta in E. now rewrite E.
    + assumption.
    + lia.
Qed.

End DecodeProperties.

Section Base64UrlProperties.
Import JS RegExp Parser.
Local Open Scope N_scope.

Lemma to_url_alphabet :
  forall c, in_alphabet c = true ->
            to_url c <> 43 /\ to_url c <> 47 /\ to_url c <> 61
            /\ from_url (to_url c) = c.
Proof.
  intros c Hc. apply in_alphabet_inv in Hc as (H61 & H45 & H95 & _).
  destruct (N.eqb_spec c 43) as [->|H43];
    [vm_compute; repeat split; discriminate|].
  destruct (N.eqb_spec c 47) as [->|H47];
    [vm_compute; repeat split; discriminate|].
  unfold to_url, from_url.
  apply N.eqb_neq in H43 as E43. apply N.eqb_neq in H47 as E47.
  apply N.eqb_neq in H45 as E45. apply N.eqb_neq in H95 as E95.
  cbv zeta. rewrite E43, E47, E45, E95. repeat split; assumption.
Qed.

(** What the encoder does to the output of [btoa]: the body of the base64
    text with [+] and [/] replaced, the padding removed. *)
Lemma url_safe_btoa :
  forall l,
    replace_first false trailing_equals (const [])
      (replace_all false (Str (lit "/")) (const (lit "_"))
         (replace_all false (Str (lit "+")) (const (lit "-")) (btoa_bytes l)))
    = map to_url (b64_body l).
Proof.
  intros l. destruct (btoa_bytes_body l) as (E & Hk & _ & _).
  set (k := ((4 - length (b64_body l) mod 4) mod 4)%nat) in *.
  rewrite E.
  change (lit "/") with [47]. change (lit "_") with [95].
  change (lit "+") with [43]. change (lit "-") with [45].
  rewrite !replace_all_char, map_map, map_app.
  replace (map _ (pad k)) with (pad k).
  2:{ unfold pad. clear. induction k; cbn; [reflexivity | now f_equal]. }
  rewrite replace_trailing_equals; [reflexivity | | assumption].
  apply Forall_map. eapply Forall_impl; [|apply b64_body_alphabet].
  intros c Hc. now apply (to_url_alphabet c Hc).
Qed.

Lemma encodeBase64Url_result :
  forall s e,
    encodeBase64Url s = Some e ->
    exists escaped,
      encodeURIComponent s = Some escaped
      /\ e = map to_url (b64_body (unescape escaped)).
Proof.
  intros s e H. unfold encodeBase64Url in H.
  destruct (encodeURIComponent s) as [escaped|]; [|discriminate].
  exists escaped. split; [reflexivity|].
  unfold btoa in H. destruct (forallb _ _); [|discriminate].
  injection H as <-. apply url_safe_btoa.
Qed.

(** What the decoder does to an encoded text. *)
Lemma decodeBase64Url_body :
  forall l,
    Forall (fun b => b < 256) l ->
    decodeBase64Url (map to_url (b64_body l)) =
    decodeURIComponent (flat_map percent l).
Proof.
  intros l Hl. unfold decodeBase64Url.
  change (lit "/") with [47]. change (lit "_") with [95].
  change (lit "+") with [43]. change (lit "-") with [45].
  rewrite !replace_all_char, !map_map.
  replace (map _ (b64_body l)) with (b64_body l).
  2:{ symmetry. rewrite <- (map_id (b64_body l)) at 2.
      apply map_ext_Forall. eapply Forall_impl; [|apply b64_body_alphabet].
      intros c Hc. apply (to_url_alphabet c Hc). }
  destruct (btoa_bytes_body l) as (E & _). cbn zeta in E. rewrite <- E.
  now rewrite atob_btoa_bytes.
Qed.

(** C6. For every well-formed string (in particular every string of
    printable Unicode characters) the encoder produces a text that the
    decoder turns back into the string; and whatever string the encoder
    accepts, its output contains no [+], no [/] and no [=]. *)
Theorem base64url_round_trip_and_alphabet :
  (forall s,
      well_formed s = true ->
      exists e, encodeBase64Url s = Some e /\ decodeBase64Url e = Some s)
  /\ (forall s e,
         encodeBase64Url s = Some e ->
         ~ In 43 e /\ ~ In 47 e /\ ~ In 61 e).
Proof.
  split.
  - intros s Hs.
    destruct (unescape_encodeURIComponent s Hs) as [escaped [He Hu]].
    pose proof (utf8_bytes_octets s Hs) as Hoct.
    exists (map to_url (b64_body (utf8_bytes s))). split.
    + unfold encodeBase64Url. rewrite He, Hu. unfold btoa.
      replace (forallb _ (utf8_bytes s)) with true.
      2:{ symmetry. apply forallb_forall. rewrite Forall_forall in Hoct.
          intros x Hx. apply N.leb_le. specialize (Hoct x Hx). lia. }
      now rewrite url_safe_btoa.
    + rewrite decodeBase64Url_body by assumption.
      unfold decodeURIComponent. rewrite items_percent by assumption.
      now apply decode_items_utf8_bytes.
  - intros s e H. apply encodeBase64Url_result in H as [escaped [_ ->]].
    assert (Hall : Forall (fun c => c <> 43 /\ c <> 47 /\ c <> 61)
                          (map to_url (b64_body (unescape escaped)))).
    { apply Forall_map. eapply Forall_impl; [|apply b64_body_alphabet].
      intros c Hc. destruct (to_url_alphabet c Hc) as (A & B & C & _). auto. }
    rewrite Forall_forall in Hall.
    repeat split; intros Hin; apply Hall in Hin; lia.
Qed.

End Base64UrlProperties.

Lemma base64url_round_trip_and_alphabet_witness :
  (exists e, Parser.encodeBase64Url sample_text = Some e
             /\ Parser.decodeBase64Url e = Some sample_text)
  /\ (~ In 43%N (lit "SMOp4oKs8J-YgA") /\ ~ In 47%N (lit "SMOp4oKs8J-YgA")
      /\ ~ In 61%N (lit "SMOp4oKs8J-YgA")).
Proof.
  split.
  - apply (proj1 base64url_round_trip_and_alphabet sample_text). reflexivity.
  - apply (proj2 base64url_round_trip_and_alphabet sample_text). reflexivity.
Defined.

(* ------------------------------------------------------------------ *)
(** ** Matching the style and script blocks *)

Section BlockProperties.
Import JS RegExp Parser.

Lemma hd_error_flat_map_cons :
  forall (A B : Type) (f : A -> list B) x l,
    hd_error (flat_map f (x :: l)) =
    match hd_error (f x) with
    | Some y => Some y
    | None => hd_error (flat_map f l)
    end.
Proof. intros A B f x l. cbn [flat_map]. destruct (f x); reflexivity. Qed.

(** The first success of a search that tries [0], [1], [2], ... in turn. *)
Lemma hd_error_flat_map_seq :
  forall (B : Type) (g : nat -> list B) k m a y,
    k < m ->
    (forall j, j < k -> g (a + j) = []) ->
    hd_error (g (a + k)) = Some y ->
    hd_error (flat_map g (seq a m)) = Some y.
Proof.
  intros B g. induction k as [|k IH]; intros m a y Hk Hbefore Hy;
    (destruct m as [|m]; [lia|]); cbn [seq]; rewrite hd_error_flat_map_cons.
  - rewrite Nat.add_0_r in Hy. now rewrite Hy.
  - rewrite <- (Nat.add_0_r a) at 1. rewrite Hbefore by lia. cbn [hd_error].
    apply IH; [lia | |].
    + intros j Hj. replace (S a + j) with (a + S j) by lia. apply Hbefore. lia.
    + now replace (S a + k) with (a + S k) by lia.
Qed.

Lemma starts_with_app :
  forall ic p o x,
    starts_with ic p o = true -> starts_with ic p (o ++ x) = true.
Proof.
  intros ic. induction p as [|c p IH]; intros o x H; [reflexivity|].
  destruct o as [|d o]; [discriminate|]. cbn [starts_with app] in *.
  apply andb_true_iff in H as [H1 H2]. rewrite H1. cbn [andb]. now apply IH.
Qed.

Lemma ci_equal_inv :
  forall p o x,
    ci_equal p o = true ->
    length o = length p /\ starts_with true p (o ++ x) = true
    /\ skipn (length p) (o ++ x) = x.
Proof.
  intros p o x H. apply andb_true_iff in H as [Hl Hs].
  apply Nat.eqb_eq in Hl. repeat split; [lia | now apply starts_with_app |].
  rewrite Hl, skipn_app, skipn_all, Nat.sub_diag. reflexivity.
Qed.

Lemma starts_with_app_long :
  forall ic p u v,
    length p <= length u ->
    starts_with ic p (u ++ v) = starts_with ic p u.
Proof.
  intros ic. induction p as [|c p IH]; intros u v H; [reflexivity|].
  destruct u as [|d u]; [cbn in H; lia|]. cbn [starts_with app].
  f_equal. apply IH. cbn in H. lia.
Qed.

Lemma no_early_close_spec :
  forall p body closing post j,
    length p <= length closing ->
    no_early_close p body closing = true ->
    j < length body ->
    starts_with true p (skipn j (body ++ closing ++ post)) = false.
Proof.
  intros p. induction body as [|c body IH]; intros closing post j Hp H Hj;
    [cbn in Hj; lia|].
  cbn [no_early_close] in H. apply andb_true_iff in H as [H1 H2].
  apply negb_true_iff in H1. destruct j as [|j].
  - cbn [skipn]. rewrite app_assoc, starts_with_app_long; [assumption|].
    rewrite length_app. lia.
  - cbn [skipn app]. apply IH; [assumption | assumption | cbn in Hj; lia].
Qed.

Lemma run_all :
  forall (p : class) t u,
    Forall (fun c => p c = true) t ->
    (match u with [] => True | c :: _ => p c = false end) ->
    run p (t ++ u) = length t.
Proof.
  intros p t u Ht Hu. induction Ht as [|c t Hc Ht IH]; cbn [app run length].
  - destruct u as [|c u]; [reflexivity|]. cbn [run]. now rewrite Hu.
  - now rewrite Hc, IH.
Qed.

Lemma run_any : forall t, run any t = length t.
Proof. induction t as [|c t IH]; cbn [run any length]; now f_equal. Qed.

Lemma seq_rev_S : forall n, rev (seq 0 (S n)) = n :: rev (seq 0 n).
Proof.
  intros n. rewrite seq_S, rev_app_distr. reflexivity.
Qed.

Lemma block_re_pattern :
  forall tag,
    block_re tag = block_pattern (lit "<" ++ lit tag) (lit "</" ++ lit tag ++ lit ">").
Proof. reflexivity. Qed.

Lemma none_of_gt : forall c, none_of ">" c = negb (N.eqb c 62).
Proof. intros c. unfold none_of. cbn. now rewrite orb_false_r. Qed.

Lemma skipn_length_app :
  forall (A : Type) (u v : list A), skipn (length u) (u ++ v) = v.
Proof.
  intros A u v. now rewrite skipn_app, skipn_all, Nat.sub_diag.
Qed.

(** A literal, in a pattern with the [i] flag. *)
Lemma matches_Str_ci :
  forall b p o x n caps,
    ci_equal p o = true ->
    matches true b (Str p) {| pos := n; rest := o ++ x; captures := caps |} =
    [{| pos := n + length o; rest := x; captures := caps |}].
Proof.
  intros b p o x n caps H.
  destruct (@ci_equal_inv p o x H) as (L & S & K).
  cbn [matches rest]. rewrite S. unfold advance. cbn [pos rest captures].
  now rewrite K, L.
Qed.

(** A greedy run followed by [r]: the first attempt gives the whole run to
    the class. *)
Lemma matches_greedy_run :
  forall ic b (p : class) r t u n caps y,
    Forall (fun c => p c = true) t ->
    (match u with [] => True | c :: _ => p c = false end) ->
    hd_error (matches ic b r {| pos := n + length t; rest := u; captures := caps |})
      = Some y ->
    hd_error (matches ic b (Rep true 0 p >> r)
                      {| pos := n; rest := t ++ u; captures := caps |}) = Some y.
Proof.
  intros ic b p r t u n caps y Ht Hu Hy.
  cbn [matches rest]. rewrite run_all by assumption.
  rewrite Nat.sub_0_r, seq_rev_S. cbn [map]. rewrite hd_error_flat_map_cons.
  unfold advance at 1. cbn [pos rest captures].
  rewrite skipn_length_app. now rewrite Hy.
Qed.

(** A lazy run of any characters followed by [r]: the match is the first
    position at which [r] matches. *)
Lemma matches_lazy_any :
  forall ic b r t u n caps y,
    (forall j, j < length t ->
               matches ic b r {| pos := n + j; rest := skipn j (t ++ u);
                                 captures := caps |} = []) ->
    hd_error (matches ic b r {| pos := n + length t; rest := u; captures := caps |})
      = Some y ->
    hd_error (matches ic b (Rep false 0 any >> r)
                      {| pos := n; rest := t ++ u; captures := caps |}) = Some y.
Proof.
  intros ic b r t u n caps y Hbefore Hy.
  cbn [matches rest]. rewrite run_any, Nat.sub_0_r.
  rewrite flat_map_concat_map, map_map, <- flat_map_concat_map.
  apply (@hd_error_flat_map_seq _ _ (length t)).
  - rewrite length_app. lia.
  - intros j Hj. cbn [Nat.add]. unfold advance. cbn [pos rest captures].
    now apply Hbefore.
  - cbn [Nat.add]. unfold advance. cbn [pos rest captures].
    now rewrite skipn_length_app.
Qed.

(** At the start of a block the pattern matches the whole block, up to the
    first closing tag. *)
Lemma match_at_block :
  forall b p1 p2 opening attrs body closing post,
    ci_equal p1 opening = true ->
    ci_equal p2 closing = true ->
    Forall (fun c => c <> 62%N) attrs ->
    no_early_close p2 body closing = true ->
    match_at true (block_pattern p1 p2) b
             (opening ++ attrs ++ lit ">" ++ body ++ closing ++ post) =
    Some {| pos := length (opening ++ attrs ++ lit ">" ++ body ++ closing);
            rest := post; captures := [] |}.
Proof.
  intros b p1 p2 opening attrs body closing post H1 H2 Hattrs Hbody.
  assert (L2 : length p2 <= length closing).
  { apply andb_true_iff in H2 as [H2 _]. apply Nat.eqb_eq in H2. lia. }
  unfold match_at, block_pattern.
  change (matches true b (Str p1 >> ?r) ?st)
    with (flat_map (matches true b r) (matches true b (Str p1) st)).
  rewrite matches_Str_ci by assumption. cbn [flat_map]. rewrite app_nil_r.
  apply matches_greedy_run.
  { eapply Forall_impl; [|exact Hattrs]. intros c Hc. rewrite none_of_gt.
    apply N.eqb_neq in Hc. now rewrite Hc. }
  { reflexivity. }
  change (matches true b (Str (lit ">") >> ?r) ?st)
    with (flat_map (matches true b r) (matches true b (Str (lit ">")) st)).
  rewrite matches_Str_ci by reflexivity. cbn [flat_map]. rewrite app_nil_r.
  apply matches_lazy_any.
  - intros j Hj. cbn [matches rest].
    rewrite no_early_close_spec; [reflexivity | assumption..].
  - rewrite matches_Str_ci by assumption. cbn [hd_error]. f_equal. f_equal.
    rewrite !length_app. cbn [length]. lia.
Qed.

End BlockProperties.

Section StripProperties.
Import JS RegExp Parser.

(** Where a match attempt starts does not matter to a pattern without [^]. *)
Lemma matches_bol_free :
  forall ic r,
    bol_free r = true ->
    forall b b' st, matches ic b r st = matches ic b' r st.
Proof.
  intros ic. induction r as [s|p|r1 IH1 r2 IH2|r IH|g m p|i r IH| |];
    intros H b b' st; cbn [matches bol_free] in *; try reflexivity;
    try discriminate.
  - apply andb_true_iff in H as [Ha Hb].
    rewrite (IH1 Ha b b'). apply flat_map_ext. intros st'. now apply IH2.
  - now rewrite (IH H b b').
  - now rewrite (IH H b b').
Qed.

Lemma replace_from_bol_free :
  forall ic r f,
    bol_free r = true ->
    forall b b' k t, replace_from ic r f b k t = replace_from ic r f b' k t.
Proof.
  intros ic r f H b b' k t. destruct k; destruct t; cbn [replace_from];
    unfold match_at; now rewrite ?(matches_bol_free ic r H b b').
Qed.

(** A pattern that begins with a literal matches only where the literal
    is. *)
Lemma match_at_absent :
  forall ic b p r t,
    starts_with ic p t = false ->
    match_at ic (Str p >> r) b t = None.
Proof.
  intros ic b p r t H. unfold match_at. cbn [matches rest]. now rewrite H.
Qed.

Lemma absent_before_extend :
  forall p pre o x,
    length p <= length o ->
    absent_before p (length pre) (pre ++ o) = true ->
    absent_before p (length pre) (pre ++ o ++ x) = true.
Proof.
  intros p pre o x Hp. induction pre as [|c pre IH]; intros H; [reflexivity|].
  cbn [length app absent_before] in *.
  apply andb_true_iff in H as [H1 H2]. apply andb_true_iff. split; [|now apply IH].
  change (c :: pre ++ o ++ x) with ((c :: pre) ++ o ++ x).
  rewrite app_assoc, starts_with_app_long; [assumption|].
  cbn [app length]. rewrite length_app. lia.
Qed.

(** The text before the first occurrence of the opening literal is
    copied. *)
Lemma replace_from_absent_prefix :
  forall p r f pre x b,
    bol_free r = true ->
    absent_before p (length pre) (pre ++ x) = true ->
    replace_from true (Str p >> r) f b 0 (pre ++ x) =
    pre ++ replace_from true (Str p >> r) f b 0 x.
Proof.
  intros p r f pre x b Hr. revert b.
  induction pre as [|c pre IH]; intros b H; [reflexivity|].
  cbn [length app absent_before] in H.
  apply andb_true_iff in H as [H1 H2]. apply negb_true_iff in H1.
  cbn [app replace_from]. rewrite match_at_absent by assumption.
  rewrite IH by assumption. f_equal. f_equal. now apply replace_from_bol_free.
Qed.

(** The characters of a match are dropped. *)
Lemma replace_from_skip :
  forall ic r f u v b,
    bol_free r = true ->
    replace_from ic r f b (length u) (u ++ v) = replace_from ic r f b 0 v.
Proof.
  intros ic r f u v b Hr. revert b.
  induction u as [|c u IH]; intros b; [reflexivity|].
  cbn [length app replace_from]. rewrite IH. now apply replace_from_bol_free.
Qed.

(** The first block of the input is removed with its content, and the
    search goes on after its closing tag. *)
Lemma replace_all_block :
  forall c1 p1 p2 pre opening attrs body closing post,
    ci_equal (c1 :: p1) opening = true ->
    ci_equal p2 closing = true ->
    absent_before (c1 :: p1) (length pre) (pre ++ opening) = true ->
    Forall (fun c => c <> 62%N) attrs ->
    no_early_close p2 body closing = true ->
    replace_all true (block_pattern (c1 :: p1) p2) (const [])
      (pre ++ opening ++ attrs ++ lit ">" ++ body ++ closing ++ post) =
    pre ++ replace_all true (block_pattern (c1 :: p1) p2) (const []) post.
Proof.
  intros c1 p1 p2 pre opening attrs body closing post H1 H2 Hpre Hattrs Hbody.
  unfold replace_all, block_pattern.
  rewrite replace_from_absent_prefix; [|reflexivity|].
  2:{ apply absent_before_extend; [|assumption].
      apply andb_true_iff in H1 as [H1 _]. apply Nat.eqb_eq in H1. lia. }
  f_equal. fold (block_pattern (c1 :: p1) p2).
  pose proof (@match_at_block true (c1 :: p1) p2 opening attrs body closing
                post H1 H2 Hattrs Hbody) as Hm.
  destruct opening as [|c opening]; [discriminate|].
  cbn [app] in *. cbn [replace_from]. rewrite Hm. cbn [pos length const app].
  replace (opening ++ attrs ++ lit ">" ++ body ++ closing ++ post)
    with ((opening ++ attrs ++ lit ">" ++ body ++ closing) ++ post)
    by (now rewrite <- !app_assoc).
  rewrite replace_from_skip by reflexivity.
  now apply replace_from_bol_free.
Qed.

(** Without an occurrence of its opening literal a pattern replaces
    nothing. *)
Lemma replace_from_absent :
  forall p r f s b,
    occurs_ci p s = false ->
    replace_from true (Str p >> r) f b 0 s = s.
Proof.
  intros p r f. induction s as [|c s IH]; intros b H;
    cbn [occurs_ci] in H; apply orb_false_iff in H as [H1 H2];
    cbn [replace_from]; rewrite match_at_absent by assumption;
    [reflexivity|].
  f_equal. now apply IH.
Qed.

End StripProperties.

Section HtmlToTextProperties.
Import JS RegExp Parser.

Lemma lacks_Forall :
  forall c s, lacks c s = true -> Forall (fun x => x <> c) s.
Proof.
  intros c s H. apply Forall_forall. intros x Hx.
  unfold lacks in H. rewrite forallb_forall in H. specialize (H x Hx).
  apply negb_true_iff in H. now apply N.eqb_neq.
Qed.

Lemma strip_block :
  forall tag pre opening attrs body closing post,
    ci_equal (lit "<" ++ lit tag) opening = true ->
    ci_equal (lit "</" ++ lit tag ++ lit ">") closing = true ->
    lacks 62 attrs = true ->
    no_early_close (lit "</" ++ lit tag ++ lit ">") body closing = true ->
    absent_before (lit "<" ++ lit tag) (length pre) (pre ++ opening) = true ->
    replace_all true (block_re tag) (const [])
      (pre ++ opening ++ attrs ++ lit ">" ++ body ++ closing ++ post) =
    pre ++ replace_all true (block_re tag) (const []) post.
Proof.
  intros. rewrite block_re_pattern.
  change (lit "<" ++ lit tag) with (60%N :: lit tag) in *.
  apply replace_all_block; auto using lacks_Forall.
Qed.

Lemma strip_nothing :
  forall tag s,
    occurs_ci (lit "<" ++ lit tag) s = false ->
    replace_all true (block_re tag) (const []) s = s.
Proof.
  intros tag s H. unfold replace_all, block_re. now apply replace_from_absent.
Qed.

Lemma strip_prefix :
  forall tag pre s,
    absent_before (lit "<" ++ lit tag) (length pre) (pre ++ s) = true ->
    replace_all true (block_re tag) (const []) (pre ++ s) =
    pre ++ replace_all true (block_re tag) (const []) s.
Proof.
  intros tag pre s H. unfold replace_all, block_re.
  apply replace_from_absent_prefix; [reflexivity | assumption].
Qed.

End HtmlToTextProperties.

(** A style block whose end tag has a space before [>], as HTML allows, and
    a style block that is never closed: the tags are removed, the style
    sheet stays in the text. *)
Lemma htmlToText_style_content_counterexample :
  Parser.htmlToText (lit "<style>body{}</style >hello") = lit "body{}hello"
  /\ Parser.htmlToText (lit "<p>hello</p><style>body{}") = lit "hello

body{}".
Proof.
  split; vm_compute; reflexivity.
Qed.

(* ------------------------------------------------------------------ *)
(** ** Addresses *)

Section AddressProperties.
Import JS RegExp Parser.
Local Open Scope regex_scope.

Lemma flat_map_nil :
  forall (A B : Type) (f : A -> list B) l,
    (forall x, In x l -> f x = []) -> flat_map f l = [].
Proof.
  intros A B f. induction l as [|x l IH]; intros H; [reflexivity|].
  cbn [flat_map]. rewrite (H x) by now left. apply IH.
  intros y Hy. apply H. now right.
Qed.

Lemma flat_map_singleton :
  forall (A B C : Type) (f : B -> list C) (h : A -> B) (g : A -> C) l,
    (forall x, f (h x) = [g x]) -> flat_map f (map h l) = map g l.
Proof.
  intros A B C f h g l H. induction l as [|x l IH]; [reflexivity|].
  cbn [flat_map map]. rewrite H, IH. reflexivity.
Qed.

(** The first success of a search that tries [a + m - 1], ..., [a] in turn,
    and then the elements of [tl]. *)
Lemma hd_error_flat_map_rev_seq :
  forall (A B : Type) (f : A -> list B) (h : nat -> A) m a k tl y,
    a <= k < a + m ->
    (forall j, k < j < a + m -> f (h j) = []) ->
    hd_error (f (h k)) = Some y ->
    hd_error (flat_map f (map h (rev (seq a m)) ++ tl)) = Some y.
Proof.
  intros A B f h. induction m as [|m IH]; intros a k tl y Hk Hafter Hy; [lia|].
  rewrite seq_S, rev_app_distr. cbn [rev app map flat_map].
  destruct (Nat.eq_dec k (a + m)) as [->|Hne].
  - destruct (f (h (a + m))); [discriminate|]. exact Hy.
  - rewrite Hafter by lia. cbn [app]. apply (IH a k); [lia | | assumption].
    intros j Hj. apply Hafter. lia.
Qed.

Lemma Forall_skipn :
  forall (A : Type) (P : A -> Prop) k l, Forall P l -> Forall P (skipn k l).
Proof.
  intros A P. induction k as [|k IH]; intros l H; [exact H|].
  destruct H as [|x l Hx H]; [constructor|]. cbn [skipn]. now apply IH.
Qed.

(** One step of the matcher at each construct. *)
Lemma matches_Cat :
  forall ic b a r st,
    matches ic b (a >> r) st = flat_map (matches ic b r) (matches ic b a st).
Proof. reflexivity. Qed.

(** An optional character that is not there. *)
Lemma matches_Opt_absent :
  forall b c st,
    Forall (fun x => x <> c) (rest st) ->
    matches false b (Opt (Str [c])) st = [st].
Proof.
  intros b c st H. cbn [matches].
  destruct (rest st) as [|x u]; [reflexivity|].
  inversion H as [|? ? Hx _]; subst. cbn [starts_with char_eqb].
  apply N.eqb_neq in Hx. rewrite N.eqb_sym, Hx. reflexivity.
Qed.

Lemma matches_Str_absent :
  forall b c st,
    match rest st with x :: _ => x <> c | [] => True end ->
    matches false b (Str [c]) st = [].
Proof.
  intros b c st H. cbn [matches].
  destruct (rest st) as [|x u]; [reflexivity|].
  cbn [starts_with char_eqb].
  apply N.eqb_neq in H. rewrite N.eqb_sym, H. reflexivity.
Qed.

Lemma matches_Str_present :
  forall b c st u,
    rest st = c :: u ->
    matches false b (Str [c]) st = [advance st 1].
Proof.
  intros b c st u H. cbn [matches]. rewrite H.
  cbn [starts_with char_eqb length]. now rewrite N.eqb_refl.
Qed.

Lemma exec_from_head :
  forall ic r i t st,
    match_at ic r (Nat.eqb i 0) t = Some st ->
    exec_from ic r i t = Some (i, st).
Proof.
  intros ic r i t st H. destruct t; cbn [exec_from]; now rewrite H.
Qed.

Lemma run_none :
  forall (p : class) t, Forall (fun x => p x = false) t -> run p t = 0.
Proof.
  intros p t H. destruct H as [|x t Hx _]; [reflexivity|].
  cbn [run]. now rewrite Hx.
Qed.

Lemma run_whole :
  forall (p : class) t, Forall (fun x => p x = true) t -> run p t = length t.
Proof.
  intros p t H. rewrite <- (app_nil_r t) at 1. now apply run_all.
Qed.

Lemma plain_inv :
  forall c,
    plain c = true ->
    addr_char c = true /\ name_char c = true /\ isWhiteSpace c = false
    /\ c <> 34%N /\ c <> 60%N /\ c <> 62%N /\ c <> 64%N.
Proof.
  intros c H. unfold plain in H. apply andb_true_iff in H as [Ha Hn].
  split; [exact Ha|]. split; [exact Hn|].
  unfold addr_char, neither, space in Ha. apply andb_true_iff in Ha as [H1 H2].
  apply negb_true_iff in H1, H2, Hn.
  cbn in H1. repeat (apply orb_false_iff in H1 as [? H1]).
  apply orb_false_iff in Hn as [? ?].
  repeat split; try assumption; now apply N.eqb_neq.
Qed.

Lemma trimStart_id :
  forall s, Forall (fun c => isWhiteSpace c = false) s -> trimStart s = s.
Proof.
  intros s H. destruct H as [|c s Hc _]; [reflexivity|].
  cbn [trimStart]. now rewrite Hc.
Qed.

Lemma trim_id :
  forall s, Forall (fun c => isWhiteSpace c = false) s -> trim s = s.
Proof.
  intros s H. unfold trim, trimEnd. rewrite (trimStart_id H).
  rewrite trimStart_id by now apply Forall_rev. apply rev_involutive.
Qed.

(** The body of the name group on a string without quote, angle bracket or
    white space: the name takes any prefix, the longest first. *)
Lemma matches_name_part :
  forall b s,
    Forall (fun c => name_char c = true) s ->
    Forall (fun c => isWhiteSpace c = false) s ->
    matches false b name_part {| pos := 0; rest := s; captures := [] |} =
    map (fun k => {| pos := k; rest := skipn k s; captures := [(1, firstn k s)] |})
        (rev (seq 0 (S (length s)))).
Proof.
  intros b s Hn Hw.
  assert (Hq : Forall (fun x => x <> 34%N) s).
  { eapply Forall_impl; [|exact Hn]. intros c Hc ->. discriminate. }
  unfold name_part. rewrite matches_Cat, matches_Opt_absent by exact Hq.
  cbn [flat_map]. rewrite app_nil_r, matches_Cat.
  change (matches false b (Cap 1 (Rep true 0 name_char)) ?st)
    with (map (fun st' =>
                 {| pos := pos st'; rest := rest st';
                    captures := (1, firstn (pos st' - pos st) (rest st))
                                  :: captures st' |})
              (map (advance st)
                   (rev (seq 0 (S (run name_char (rest st)) - 0))))).
  cbn [rest pos]. rewrite run_whole by exact Hn. rewrite Nat.sub_0_r, map_map.
  apply flat_map_singleton. intros k.
  unfold advance. cbn [pos rest captures Nat.add]. rewrite Nat.sub_0_r.
  rewrite matches_Cat, matches_Opt_absent by (apply Forall_skipn; exact Hq).
  cbn [flat_map]. rewrite app_nil_r. cbn [matches rest].
  rewrite run_none by (apply Forall_skipn; exact Hw).
  cbn [Nat.sub seq rev app map]. unfold advance. cbn [pos rest captures skipn].
  now rewrite Nat.add_0_r.
Qed.


(** What follows the name group fails where no [@] comes right after the
    longest run of address characters or inside it. *)
Lemma matches_address_part_none :
  forall b t n caps,
    Forall (fun x => x <> 60%N) t ->
    (forall k, 1 <= k <= run addr_char t ->
               match skipn k t with x :: _ => x <> 64%N | [] => True end) ->
    matches false b address_part {| pos := n; rest := t; captures := caps |} = [].
Proof.
  intros b t n caps Hlt Hat.
  unfold address_part. rewrite matches_Cat.
  change (lit "<") with [60%N]. rewrite matches_Opt_absent by exact Hlt.
  cbn [flat_map]. rewrite app_nil_r, matches_Cat.
  change (matches false b (Cap 2 ?a) ?st)
    with (map (fun st' =>
                 {| pos := pos st'; rest := rest st';
                    captures := (2, firstn (pos st' - pos st) (rest st))
                                  :: captures st' |})
              (matches false b a st)).
  rewrite matches_Cat.
  change (matches false b (Rep true 1 addr_char) ?st)
    with (map (advance st) (rev (seq 1 (S (run addr_char (rest st)) - 1)))).
  cbn [rest].
  rewrite (@flat_map_nil _ _ (matches false b (Str (lit "@") >> Rep true 1 addr_char)));
    [reflexivity|].
  intros st Hst. apply in_map_iff in Hst as (k & <- & Hk).
  apply in_rev, in_seq in Hk.
  rewrite matches_Cat. change (lit "@") with [64%N].
  rewrite matches_Str_absent; [reflexivity|].
  unfold advance. cbn [rest]. apply Hat. lia.
Qed.

(** What follows the name group, on one address character, [@] and a
    domain. *)
Lemma matches_address_part_bare :
  forall b c d n caps,
    plain c = true -> Forall (fun x => plain x = true) d -> d <> [] ->
    hd_error (matches false b address_part
                {| pos := n; rest := c :: 64%N :: d; captures := caps |}) =
    Some {| pos := n + 1 + 1 + length d; rest := [];
            captures := (2%nat, c :: 64%N :: d) :: caps |}.
Proof.
  intros b c d n caps Hc Hd Hne.
  destruct (@plain_inv _ Hc) as (Ha & _ & _ & _ & Hlt & _ & _).
  assert (Hda : Forall (fun x => addr_char x = true) d).
  { eapply Forall_impl; [|exact Hd]. intros x Hx. apply (@plain_inv _ Hx). }
  unfold address_part. rewrite matches_Cat.
  change (lit "<") with [60%N]. rewrite matches_Opt_absent.
  2:{ cbn [rest]. constructor; [exact Hlt|]. constructor; [discriminate|].
      eapply Forall_impl; [|exact Hd]. intros x Hx. apply (@plain_inv _ Hx). }
  cbn [flat_map]. rewrite app_nil_r, matches_Cat.
  change (matches false b (Cap 2 ?a) ?st)
    with (map (fun st' =>
                 {| pos := pos st'; rest := rest st';
                    captures := (2, firstn (pos st' - pos st) (rest st))
                                  :: captures st' |})
              (matches false b a st)).
  rewrite matches_Cat.
  change (matches false b (Rep true 1 addr_char) ?st)
    with (map (advance st) (rev (seq 1 (S (run addr_char (rest st)) - 1)))).
  cbn [rest run]. rewrite Ha.
  change (addr_char 64%N) with false. cbn iota.
  cbn [Nat.sub seq rev app map flat_map]. rewrite app_nil_r.
  unfold advance at 1. cbn [pos rest captures skipn].
  rewrite matches_Cat. change (lit "@") with [64%N].
  erewrite matches_Str_present by reflexivity.
  cbn [flat_map]. rewrite app_nil_r.
  unfold advance at 1. cbn [pos rest captures skipn length].
  change (matches false b (Rep true 1 addr_char) ?st)
    with (map (advance st) (rev (seq 1 (S (run addr_char (rest st)) - 1)))).
  cbn [rest]. rewrite run_whole by exact Hda.
  destruct d as [|x d]; [congruence|]. cbn [length].
  replace (S (S (length d)) - 1) with (S (length d)) by lia.
  rewrite seq_S, rev_app_distr. cbn [rev app map flat_map].
  unfold advance. cbn [pos rest captures].
  replace (skipn (1 + length d) (x :: d)) with (@nil N)
    by (symmetry; apply skipn_all2; cbn [length]; lia).
  change (lit ">") with [62%N].
  cbn [matches rest starts_with filter app flat_map hd_error pos captures].
  f_equal. f_equal.
  replace (n + 1 + 1 + (1 + length d) - n) with (length (c :: 64%N :: x :: d))
    by (cbn [length]; lia).
  now rewrite firstn_all.
Qed.

(** [parseAddress] on a bare address whose local part has two characters or
    more: the last character of the local part and the domain become the
    email, the rest of the local part becomes the name. *)
Lemma parseAddress_splits_local_part :
  forall loc c domain,
    loc <> [] -> domain <> [] ->
    Forall (fun x => plain x = true) (loc ++ c :: domain) ->
    parseAddress (loc ++ c :: 64%N :: domain) =
    {| email := c :: 64%N :: domain; name := Some loc |}.
Proof.
  intros loc c domain Hl Hd Hp.
  apply Forall_app in Hp as [Hloc Hcd].
  inversion Hcd as [|? ? Hc Hdom]; subst.
  set (s := loc ++ c :: 64%N :: domain).
  assert (Hn : Forall (fun x => name_char x = true) s).
  { apply Forall_app. split.
    - eapply Forall_impl; [|exact Hloc]. intros x Hx. apply (@plain_inv _ Hx).
    - constructor; [apply (@plain_inv _ Hc)|]. constructor; [reflexivity|].
      eapply Forall_impl; [|exact Hdom]. intros x Hx. apply (@plain_inv _ Hx). }
  assert (Hw : Forall (fun x => isWhiteSpace x = false) s).
  { apply Forall_app. split.
    - eapply Forall_impl; [|exact Hloc]. intros x Hx. apply (@plain_inv _ Hx).
    - constructor; [apply (@plain_inv _ Hc)|]. constructor; [reflexivity|].
      eapply Forall_impl; [|exact Hdom]. intros x Hx. apply (@plain_inv _ Hx). }
  assert (Hlt : Forall (fun x => x <> 60%N) s).
  { eapply Forall_impl; [|exact Hn]. intros x Hx ->. discriminate. }
  assert (Hlen : length s = length loc + 1 + 1 + length domain).
  { unfold s. rewrite length_app. cbn [length]. lia. }
  assert (Hm : match_at false address_re true s =
               Some {| pos := length loc + 1 + 1 + length domain; rest := [];
                       captures := [(2, c :: 64%N :: domain); (1, loc)] |}).
  { unfold match_at, address_re. rewrite matches_Cat.
    cbn [matches pos andb Nat.eqb flat_map]. rewrite app_nil_r.
    rewrite matches_name_part by assumption.
    cbn [seq rev]. rewrite map_app, filter_app.
    cbn [map filter pos Nat.eqb negb]. rewrite app_nil_r.
    rewrite filter_all.
    2:{ apply Forall_forall. intros st Hst.
        apply in_map_iff in Hst as (k & <- & Hk). apply in_rev, in_seq in Hk.
        cbn [pos]. destruct k; [lia | reflexivity]. }
    apply (@hd_error_flat_map_rev_seq _ _ _ _ (length s) 1 (length loc)).
    - destruct loc; [congruence|]. cbn [length] in *. lia.
    - intros j Hj. apply matches_address_part_none.
      + now apply Forall_skipn.
      + intros k Hk. rewrite skipn_skipn.
        replace (k + j) with ((k + j - length loc - 1) + length (loc ++ [c]))
          by (rewrite length_app; cbn [length]; lia).
        rewrite <- skipn_skipn. unfold s.
        change (loc ++ c :: 64%N :: domain) with (loc ++ [c] ++ 64%N :: domain).
        rewrite app_assoc, skipn_length_app.
        destruct (Nat.eq_dec j (S (length loc))) as [->|Hne].
        * exfalso. revert Hk. unfold s.
          change (loc ++ c :: 64%N :: domain) with (loc ++ [c] ++ 64%N :: domain).
          rewrite app_assoc.
          replace (S (length loc)) with (length (loc ++ [c]))
            by (rewrite length_app; cbn [length]; lia).
          rewrite skipn_length_app. cbn [run].
          change (addr_char 64%N) with false. cbn iota. lia.
        * replace (k + j - length loc - 1) with (S (k + j - length loc - 2)) by lia.
          cbn [skipn].
          assert (Hs : Forall (fun x => plain x = true)
                              (skipn (k + j - length loc - 2) domain))
            by now apply Forall_skipn.
          destruct Hs as [|x u Hx _]; [exact I|]. apply (@plain_inv _ Hx).
    - unfold s at 1 2.
      rewrite skipn_length_app, firstn_app, firstn_all, Nat.sub_diag.
      cbn [firstn]. rewrite app_nil_r.
      now apply matches_address_part_bare. }
  assert (Hcw : Forall (fun x => isWhiteSpace x = false) (c :: 64%N :: domain)).
  { apply Forall_app in Hw as [_ Hw]. exact Hw. }
  assert (Hlw : Forall (fun x => isWhiteSpace x = false) loc).
  { apply Forall_app in Hw as [Hw _]. exact Hw. }
  unfold parseAddress. fold s. rewrite (trim_id Hw).
  unfold exec. rewrite (@exec_from_head false address_re 0 s _ Hm).
  cbn [capture captures find fst snd Nat.eqb option_map].
  rewrite (trim_id Hcw), (trim_id Hlw).
  destruct loc; [congruence | reflexivity].
Qed.

(** Written by [formatAddress] and read back, such an address is not the
    address that was written. *)
Lemma bare_address_not_restored :
  forall loc c domain,
    loc <> [] -> domain <> [] ->
    Forall (fun x => plain x = true) (loc ++ c :: domain) ->
    let a := {| email := loc ++ c :: 64%N :: domain; name := None |} in
    formatAddress a = email a
    /\ parseAddress (formatAddress a) =
         {| email := c :: 64%N :: domain; name := Some loc |}
    /\ parseAddress (formatAddress a) <> a.
Proof.
  intros loc c domain Hl Hd Hp a. split; [reflexivity|].
  assert (E : parseAddress (formatAddress a) =
              {| email := c :: 64%N :: domain; name := Some loc |})
    by now apply parseAddress_splits_local_part.
  split; [exact E|]. rewrite E. unfold a. intros H. discriminate.
Qed.

End AddressProperties.

(** C5, at an address without a name. [formatAddress] writes the bare
    address; [parseAddress] then lets the optional name group of its pattern
    take the longest prefix that still leaves an address behind, so the last
    letter of the local part and the domain become the email and the rest
    of the local part becomes the name. An address that has a name comes
    back as it was. *)
Theorem parseAddress_formatAddress_bare_email :
  Parser.formatAddress bare_address = lit "user@example.com"
  /\ Parser.parseAddress (Parser.formatAddress bare_address) =
       {| Parser.email := lit "r@example.com"; Parser.name := Some (lit "use") |}
  /\ Parser.parseAddress (Parser.formatAddress bare_address) <> bare_address
  /\ Parser.parseAddress (Parser.formatAddress named_address) = named_address.
Proof.
  repeat split; vm_compute; congruence.
Qed.

(* ------------------------------------------------------------------ *)
(** ** The retry loop in general *)

Section RetryLoopProperties.
Import Errors Client.
Variables St T : Type.
Variable fn : St -> outcome T Thrown * St.
Variable random : nat -> Q.

Let World := Client.World St.

Lemma forallb_seq_S :
  forall (f : nat -> bool) k a,
    forallb f (seq (S a) k) = forallb (fun j => f (S j)) (seq a k).
Proof.
  intros f. induction k as [|k IH]; intros a; [reflexivity|].
  cbn [seq forallb]. now rewrite IH.
Qed.

Lemma fails_retryably_S :
  forall k s,
    fails_retryably fn (S k) s = true ->
    exists e, fn s = (Rejected e, snd (fn s)) /\ non_retryable e = false
              /\ fails_retryably fn k (snd (fn s)) = true.
Proof.
  intros k s H. unfold fails_retryably in H. cbn [seq forallb] in H.
  apply andb_true_iff in H as [H0 H]. cbn [after] in H0.
  destruct (fn s) as [[v|e] s'] eqn:E; [discriminate|]. cbn [fst snd] in *.
  exists e. split; [reflexivity|]. split; [now apply negb_true_iff|].
  unfold fails_retryably. rewrite forallb_seq_S in H.
  cbn [after] in H. rewrite E in H. exact H.
Qed.

Lemma delays_S :
  forall c d k a,
    map (fun j => getDelay (a + j) c (random (if draws_random c then d + j else d)))
        (seq 0 (S k)) =
    getDelay a c (random d)
    :: map (fun j => getDelay (S a + j) c
                       (random (if draws_random c then (if draws_random c then S d else d) + j
                                else (if draws_random c then S d else d))))
           (seq 0 k).
Proof.
  intros c d k a. cbn [seq map]. rewrite Nat.add_0_r.
  replace (if draws_random c then d + 0 else d) with d
    by (destruct (draws_random c); lia).
  f_equal. rewrite <- seq_shift, map_map. apply map_ext. intros j.
  replace (a + S j) with (S a + j) by lia.
  destruct (draws_random c); [|reflexivity].
  now replace (d + S j) with (S d + j) by lia.
Qed.

(** [k] failed attempts, none of them the last one: the loop has invoked
    the operation [k] times and slept after each failure. *)
Lemma retry_loop_failures :
  forall c k m a last (w : World),
    fails_retryably fn k (env w) = true ->
    (Z.of_nat (a + k) <= attempts c - 1)%Z ->
    exists last',
      retry_loop fn random c (k + m) a last w =
      retry_loop fn random c m (a + k) last'
        {| env := after fn k (env w);
           calls := k + calls w;
           slept := slept w ++
                    map (fun j => getDelay (a + j) c
                                    (random (if draws_random c
                                             then drawn w + j else drawn w)))
                        (seq 0 k);
           drawn := if draws_random c then drawn w + k else drawn w |}
      /\ match k with
         | O => last' = last
         | S k' => fst (fn (after fn k' (env w))) = Rejected last'
         end.
Proof.
  intros c. induction k as [|k IH]; intros m a last w Hf Ha.
  - exists last. split; [|reflexivity].
    cbn [after Nat.add seq map]. rewrite app_nil_r, !Nat.add_0_r.
    destruct w as [e cs sl d]. cbn [env calls slept drawn].
    now destruct (draws_random c).
  - apply fails_retryably_S in Hf as (e & Hfn & Hnr & Hf).
    cbn [Nat.add]. rewrite (retry_loop_step fn random c (k + m) a last w Hfn Hnr).
    replace (Z.of_nat a <? attempts c - 1)%Z with true
      by (symmetry; apply Z.ltb_lt; lia).
    unfold sleep_delay at 1. cbn [snd env calls slept drawn].
    match goal with
    | |- context [retry_loop fn random c (k + m) (S a) e ?w1] =>
        destruct (IH m (S a) e w1) as (last' & Hloop & Hlast)
    end.
    { exact Hf. }
    { lia. }
    cbn [env calls slept drawn] in Hloop, Hlast.
    exists last'. split.
    + rewrite Hloop. f_equal.
      * lia.
      * f_equal; [lia| |].
        -- rewrite <- app_assoc. f_equal. rewrite delays_S. reflexivity.
        -- destruct (draws_random c); lia.
    + destruct k as [|k'].
      * subst last'. cbn [after]. now rewrite Hfn.
      * exact Hlast.
Qed.

Lemma after_S :
  forall k s, after fn (S k) s = snd (fn (after fn k s)).
Proof.
  induction k as [|k IH]; intros s; [reflexivity|].
  change (after fn (S (S k)) s) with (after fn (S k) (snd (fn s))).
  now rewrite IH.
Qed.

Lemma fails_retryably_last :
  forall k s,
    fails_retryably fn (S k) s = true ->
    fails_retryably fn k s = true
    /\ exists e, fst (fn (after fn k s)) = Rejected e /\ non_retryable e = false.
Proof.
  intros k s H. unfold fails_retryably in H.
  rewrite seq_S, forallb_app in H. apply andb_true_iff in H as [H1 H2].
  split; [exact H1|]. cbn [forallb Nat.add] in H2. rewrite andb_true_r in H2.
  destruct (fst (fn (after fn k s))) as [v|e]; [discriminate|].
  exists e. split; [reflexivity | now apply negb_true_iff].
Qed.

(** When the operation fails [k] times with errors that are retried and
    then succeeds, and [k] is below the number of attempts, the wrapper
    resolves with that result after [k + 1] invocations and [k] sleeps; the
    sleep after the failed attempt [j] lasts [getDelay j]. *)
Theorem withRetry_succeeds_after_failures :
  forall c k (w : World) v,
    (Z.of_nat k < attempts c)%Z ->
    fails_retryably fn k (env w) = true ->
    fst (fn (after fn k (env w))) = Resolved v ->
    withRetry fn random (Some c) w =
    (Resolved v,
     {| env := after fn (S k) (env w); calls := S k + calls w;
        slept := slept w ++ delays random c (drawn w) k;
        drawn := if draws_random c then drawn w + k else drawn w |}).
Proof.
  intros c k w v Hk Hf Hv. unfold withRetry.
  replace (Z.to_nat (attempts c)) with (k + S (Z.to_nat (attempts c) - S k)) by lia.
  destruct (retry_loop_failures c k (S (Z.to_nat (attempts c) - S k)) 0
                                Undefined w Hf) as (last' & Hloop & _); [lia|].
  rewrite Hloop. cbn [Nat.add].
  assert (Hfn : fn (after fn k (env w)) = (Resolved v, after fn (S k) (env w))).
  { rewrite after_S, <- Hv. apply surjective_pairing. }
  erewrite retry_loop_resolved by (cbn [env]; exact Hfn).
  reflexivity.
Qed.

Lemma retry_loop_gives_up :
  forall c n (w : World),
    attempts c = Z.of_nat (S n) ->
    fails_retryably fn (S n) (env w) = true ->
    exists e,
      fst (fn (after fn n (env w))) = Rejected e
      /\ retry_loop fn random c (S n) 0 Undefined w =
         (Rejected e,
          {| env := after fn (S n) (env w); calls := S n + calls w;
             slept := slept w ++ delays random c (drawn w) n;
             drawn := if draws_random c then drawn w + n else drawn w |}).
Proof.
  intros c n w Ha Hf. apply fails_retryably_last in Hf as (Hf & e & He & Hnr).
  exists e. split; [exact He|].
  replace (S n) with (n + 1) at 1 by lia.
  destruct (retry_loop_failures c n 1 0 Undefined w Hf) as (last' & Hloop & _);
    [lia|].
  rewrite Hloop. cbn [Nat.add].
  assert (Hfn : fn (after fn n (env w)) = (Rejected e, after fn (S n) (env w))).
  { rewrite after_S, <- He. apply surjective_pairing. }
  erewrite retry_loop_step; [| cbn [env]; exact Hfn | exact Hnr].
  replace (Z.of_nat n <? attempts c - 1)%Z with false
    by (symmetry; apply Z.ltb_ge; lia).
  reflexivity.
Qed.

(** When every one of the [attempts] invocations fails with an error that is
    retried, the wrapper rejects with the error of the last invocation; it
    has slept after every failure but the last. *)
Theorem withRetry_gives_up_with_last_error :
  forall c n (w : World),
    attempts c = Z.of_nat (S n) ->
    fails_retryably fn (S n) (env w) = true ->
    exists e,
      fst (fn (after fn n (env w))) = Rejected e
      /\ withRetry fn random (Some c) w =
         (Rejected e,
          {| env := after fn (S n) (env w); calls := S n + calls w;
             slept := slept w ++ delays random c (drawn w) n;
             drawn := if draws_random c then drawn w + n else drawn w |}).
Proof.
  intros c n w Ha Hf. unfold withRetry. rewrite Ha, Nat2Z.id.
  now apply retry_loop_gives_up.
Qed.

End RetryLoopProperties.

Lemma withRetry_succeeds_after_failures_witness :
  Client.withRetry flaky (fun _ => 0%Q) (Some fixed_above_cap) fresh_world =
  (Resolved 2,
   {| Client.env := 3; Client.calls := 3;
      Client.slept := [5000%Q; 5000%Q]; Client.drawn := 0 |}).
Proof.
  apply (@withRetry_succeeds_after_failures nat nat flaky (fun _ => 0%Q)
           fixed_above_cap 2 fresh_world 2); reflexivity.
Defined.

Lemma withRetry_gives_up_with_last_error_witness :
  exists e,
    fst (flaky 1) = Rejected e
    /\ Client.withRetry flaky (fun _ => 0%Q) (Some (no_backoff 2)) fresh_world =
       (Rejected e,
        {| Client.env := 2; Client.calls := 2;
           Client.slept := [0%Q]; Client.drawn := 0 |}).
Proof.
  apply (@withRetry_gives_up_with_last_error nat nat flaky (fun _ => 0%Q)
           (no_backoff 2) 1 fresh_world); reflexivity.
Defined.

Lemma withRetry_no_attempts_witness :
  Client.withRetry flaky (fun _ => 0%Q) (Some (no_backoff 0)) fresh_world =
  (Rejected Errors.Undefined, fresh_world).
Proof.
  apply (@withRetry_no_attempts nat nat flaky (fun _ => 0%Q) (no_backoff 0)
           fresh_world).
  cbn. lia.
Defined.

(* ------------------------------------------------------------------ *)
(** ** Requests under the retry policy *)

Section RequestRetryProperties.
Import Errors GmailApi Client.
Variable T : Type.
Variable random : nat -> Q.

Lemma after_always_answered :
  forall cred clock (r : Response T) k s,
    after (always_answered cred clock r) k s = k + s.
Proof.
  intros cred clock r. induction k as [|k IH]; intros s; [reflexivity|].
  cbn [after always_answered snd]. rewrite IH. lia.
Qed.

Lemma always_answered_fails_retryably :
  forall cred clock (r : Response T) k s,
    (forall i, i < k -> token_expired cred (clock (i + s)) = false) ->
    ok r = false ->
    fails_retryably (always_answered cred clock r) k s = true.
Proof.
  intros cred clock r k s He Hok. unfold fails_retryably.
  apply forallb_forall. intros j Hj. apply in_seq in Hj.
  rewrite after_always_answered. unfold always_answered. cbn [fst].
  rewrite request_not_ok; [reflexivity | | exact Hok].
  apply He. lia.
Qed.

Lemma request_token_expired :
  forall cred now (fetched : outcome (Response T) Thrown),
    token_expired cred now = true ->
    exists e,
      request cred now fetched = Rejected (ErrorObj e)
      /\ cls e = AuthenticationErrorK /\ retryable e = Some false
      /\ cause e = None.
Proof.
  intros cred now fetched He. unfold request.
  unfold token_expired in He. rewrite He.
  destruct (truthy_opt (refreshToken cred)); eexists; repeat split.
Qed.

(** A request under the retry policy, every invocation reading the clock
    anew. While the token is valid, a response outside the 2xx range
    reaches the wrapper as a network error, whatever its status: the
    operation is invoked again until the attempts are used up, and the
    network error of the last answer is raised. When the token has run out
    by the time of an invocation, that invocation fails with the
    authentication error of the token test, which ends the retries at
    once. *)
Theorem withRetry_request_http_error :
  forall cred clock (r : Response T) c n (w : World nat),
    attempts c = Z.of_nat (S n) ->
    ok r = false ->
    ((forall k, k <= n -> token_expired cred (clock (k + env w)) = false) ->
     withRetry (always_answered cred clock r) random (Some c) w =
     (Rejected (ErrorObj (NetworkError (lit "Failed to connect to Gmail API")
                                       (as_cause (handleError r)))),
      {| env := S n + env w; calls := S n + calls w;
         slept := slept w ++ delays random c (drawn w) n;
         drawn := if draws_random c then drawn w + n else drawn w |}))
    /\ (forall j,
           j <= n ->
           (forall k, k < j -> token_expired cred (clock (k + env w)) = false) ->
           token_expired cred (clock (j + env w)) = true ->
           exists e,
             withRetry (always_answered cred clock r) random (Some c) w =
             (Rejected (ErrorObj e),
              {| env := S j + env w; calls := S j + calls w;
                 slept := slept w ++ delays random c (drawn w) j;
                 drawn := if draws_random c then drawn w + j else drawn w |})
             /\ cls e = AuthenticationErrorK /\ retryable e = Some false
             /\ cause e = None).
Proof.
  intros cred clock r c n w Ha Hok. split.
  - intros He.
    assert (Hf : fails_retryably (always_answered cred clock r) (S n) (env w)
                 = true).
    { apply always_answered_fails_retryably; [|exact Hok].
      intros i Hi. apply He. lia. }
    destruct (@retry_loop_gives_up nat (option T)
                (always_answered cred clock r) random c n w Ha Hf)
      as (e & Hlast & Hrun).
    unfold withRetry. rewrite Ha, Nat2Z.id, Hrun.
    rewrite after_always_answered in Hlast.
    unfold always_answered in Hlast. cbn [fst] in Hlast.
    rewrite request_not_ok in Hlast; [|apply He; lia|exact Hok].
    injection Hlast as <-. now rewrite after_always_answered.
  - intros j Hj Hvalid Hexp.
    destruct (@request_token_expired cred (clock (j + env w)) (Resolved r) Hexp)
      as (e & Hreq & Hc & Hr & Hcause).
    exists e. split; [|now repeat split].
    unfold withRetry. rewrite Ha, Nat2Z.id.
    replace (S n) with (j + S (n - j)) by lia.
    destruct (@retry_loop_failures nat (option T)
                (always_answered cred clock r) random c j (S (n - j)) 0
                Undefined w
                (@always_answered_fails_retryably cred clock r j (env w)
                   Hvalid Hok))
      as (last' & Hloop & _); [lia|].
    rewrite Hloop. cbn [Nat.add].
    rewrite after_always_answered.
    erewrite retry_loop_nonretryable.
    + reflexivity.
    + cbn [env]. unfold always_answered. rewrite Hreq. reflexivity.
    + unfold non_retryable. now rewrite Hr.
Qed.

End RequestRetryProperties.

Lemma withRetry_request_http_error_witness :
  Client.withRetry (always_answered oauth_token five_seconds_apart unauthorized)
                   (fun _ => 0%Q) (Some fixed_above_cap) fresh_world =
  (Rejected (Errors.ErrorObj
               (Errors.NetworkError (lit "Failed to connect to Gmail API")
                  (GmailApi.as_cause (GmailApi.handleError unauthorized)))),
   {| Client.env := 3; Client.calls := 3;
      Client.slept := [5000%Q; 5000%Q]; Client.drawn := 0 |})
  /\ exists e,
      Client.withRetry
        (always_answered short_lived_token five_seconds_apart unauthorized)
        (fun _ => 0%Q) (Some fixed_above_cap) fresh_world =
      (Rejected (Errors.ErrorObj e),
       {| Client.env := 2; Client.calls := 2;
          Client.slept := [5000%Q]; Client.drawn := 0 |})
      /\ Errors.cls e = Errors.AuthenticationErrorK
      /\ Errors.retryable e = Some false
      /\ Errors.cause e = None.
Proof.
  split.
  - apply (proj1 (@withRetry_request_http_error unit (fun _ => 0%Q) oauth_token
                    five_seconds_apart unauthorized fixed_above_cap 2
                    fresh_world eq_refl eq_refl)).
    reflexivity.
  - apply (proj2 (@withRetry_request_http_error unit (fun _ => 0%Q)
                    short_lived_token five_seconds_apart unauthorized
                    fixed_above_cap 2 fresh_world eq_refl eq_refl) 1).
    + lia.
    + intros k Hk. replace k with 0 by lia. reflexivity.
    + reflexivity.
Defined.

(* ------------------------------------------------------------------ *)
(** ** What a request can settle to *)

Section RequestProperties.
Import JS Errors GmailApi.
Variable T : Type.

(** Once the token check has passed, [request] resolves exactly when the
    response is in the 2xx range and, unless its status is 204, its body is
    read by [response.json()]. Every failure has an original error [t0]: what
    [fetch] rejected with, what [response.json()] rejected with on a 2xx
    response, or what [handleError] threw for a response outside the 2xx
    range (never an instance of [FaktoorApiError]). When [t0] is an
    instance of [FaktoorApiError] it is raised as it is; in every other
    case [request] raises a network error that is marked retryable and
    holds [t0], whatever value it is, as its cause. *)
Theorem request_resolves_or_network_error :
  forall cred now (fetched : outcome (Response T) Thrown),
    token_expired cred now = false ->
    (forall v,
        request cred now fetched = Resolved v <->
        exists r, fetched = Resolved r /\ ok r = true
                  /\ ((status r = 204%Z /\ v = None)
                      \/ (status r <> 204%Z
                          /\ exists x, payload r = Resolved x /\ v = Some x)))
    /\ (forall t,
           request cred now fetched = Rejected t ->
           exists t0,
             match fetched with
             | Rejected f => t0 = f
             | Resolved r =>
                 if ok r
                 then status r <> 204%Z /\ payload r = Rejected t0
                 else t0 = handleError r /\ is_FaktoorApiError t0 = false
             end
             /\ if is_FaktoorApiError t0 then t = t0
                else exists e,
                    t = ErrorObj e
                    /\ cls e = NetworkErrorK
                    /\ code e = Some (lit "NETWORK_ERROR")
                    /\ retryable e = Some true
                    /\ message e = lit "Failed to connect to Gmail API"
                    /\ cause e = as_cause t0).
Proof.
  intros cred now fetched He. unfold request.
  unfold token_expired in He. rewrite He.
  destruct fetched as [r|t0].
  - destruct (ok r) eqn:Hok; cbn [negb].
    + destruct (Z.eqb_spec (status r) 204) as [Hs|Hs].
      * split.
        -- intros v. split.
           ++ intros [= <-]. exists r. split; [reflexivity|].
              split; [exact Hok|]. left. now split.
           ++ intros (r' & [= <-] & _ & [[_ ->]|[Hn _]]); congruence.
        -- intros t [=].
      * destruct (payload r) as [x|t0] eqn:Hp.
        -- split.
           ++ intros v. split.
              ** intros [= <-]. exists r. split; [reflexivity|].
                 split; [exact Hok|]. right.
                 split; [exact Hs|]. now exists x.
              ** intros (r' & [= <-] & _ & [[Hn _]|[_ (y & Hy & ->)]]);
                   congruence.
           ++ intros t [=].
        -- split.
           ++ intros v. split.
              ** destruct (is_FaktoorApiError t0); intros [=].
              ** intros (r' & [= <-] & _ & [[Hn _]|[_ (y & Hy & _)]]);
                   congruence.
           ++ intros t Ht. exists t0. split; [now split|].
              destruct (is_FaktoorApiError t0).
              ** now injection Ht as <-.
              ** injection Ht as <-. eexists. split; [reflexivity|].
                 repeat split.
    + rewrite handleError_not_FaktoorApiError. split.
      * intros v. split; [intros [=]|].
        intros (r' & [= <-] & Hok' & _). congruence.
      * intros t [= <-]. exists (handleError r).
        split; [split; [reflexivity | apply handleError_not_FaktoorApiError]|].
        rewrite handleError_not_FaktoorApiError.
        eexists. split; [reflexivity|]. repeat split.
  - split.
    + intros v. split.
      * destruct (is_FaktoorApiError t0); intros [=].
      * intros (r' & [=] & _).
    + intros t Ht. exists t0. split; [reflexivity|].
      destruct (is_FaktoorApiError t0).
      * now injection Ht as <-.
      * injection Ht as <-. eexists. split; [reflexivity|]. repeat split.
Qed.

End RequestProperties.

Lemma request_resolves_or_network_error_witness :
  exists e,
    GmailApi.request oauth_token 0 (Resolved not_json) =
      Rejected (Errors.ErrorObj e)
    /\ Errors.cls e = Errors.NetworkErrorK
    /\ Errors.retryable e = Some true
    /\ Errors.cause e = Some not_json_error.
Proof.
  destruct (proj2 (@request_resolves_or_network_error unit oauth_token 0
                     (Resolved not_json) eq_refl) _ eq_refl)
    as (t0 & [_ Hp] & Ht).
  injection Hp as <-.
  change (GmailApi.is_FaktoorApiError not_json_error) with false in Ht.
  cbv iota in Ht.
  destruct Ht as (e & He & Hc & _ & Hr & _ & Hcause).
  exists e. split; [rewrite <- He; reflexivity|].
  repeat split; assumption.
Defined.

(* ------------------------------------------------------------------ *)
(** ** The Retry-After header *)

Section RetryAfterProperties.
Import JS Errors GmailApi.
Variable T : Type.

Lemma digits_value_digits :
  forall s acc n,
    forallb isDigit s = true ->
    digits_value acc n s =
    (fold_left (fun a c => (a * 10 + (Z.of_N c - 48))%Z) s acc, (n + length s)%nat).
Proof.
  induction s as [|c s IH]; intros acc n H.
  - cbn. now rewrite Nat.add_0_r.
  - cbn [forallb] in H. apply andb_true_iff in H as [Hc Hs].
    cbn [digits_value fold_left length]. rewrite Hc, IH by assumption.
    f_equal. lia.
Qed.

Lemma fold_digits_nonneg :
  forall s acc,
    forallb isDigit s = true -> (0 <= acc)%Z ->
    (0 <= fold_left (fun a c => (a * 10 + (Z.of_N c - 48))%Z) s acc)%Z.
Proof.
  induction s as [|c s IH]; intros acc H Ha; [exact Ha|].
  cbn [forallb] in H. apply andb_true_iff in H as [Hc Hs].
  cbn [fold_left]. apply IH; [assumption|].
  unfold isDigit in Hc. apply andb_true_iff in Hc as [H1 H2].
  apply N.leb_le in H1, H2. lia.
Qed.

Lemma round_double_exact :
  forall z, (0 <= z < 2 ^ 53)%Z -> round_double z = Fin z.
Proof.
  intros z [H0 H1]. unfold round_double.
  replace (0 <=? z)%Z with true by (symmetry; now apply Z.leb_le).
  unfold round_double_pos.
  replace (Z.log2 z + 1 <=? 53)%Z with true; [reflexivity|].
  symmetry. apply Z.leb_le.
  destruct (Z.eq_dec z 0) as [->|Hz]; [cbn; lia|].
  assert (Z.log2 z < 53)%Z by (apply Z.log2_lt_pow2; lia). lia.
Qed.

Lemma digit_not_space_or_sign :
  forall c, isDigit c = true ->
            isWhiteSpace c = false /\ (c =? 45)%N = false /\ (c =? 43)%N = false.
Proof.
  intros c H. unfold isDigit in H. apply andb_true_iff in H as [H1 H2].
  apply N.leb_le in H1, H2. unfold isWhiteSpace.
  repeat split; ncases; reflexivity.
Qed.

Lemma parseInt10_digits :
  forall s,
    s <> [] -> forallb isDigit s = true -> (decimal s < 2 ^ 53)%Z ->
    parseInt10 s = Fin (decimal s).
Proof.
  intros s Hne Hd Hv. unfold parseInt10.
  destruct s as [|c s]; [congruence|]. pose proof Hd as Hd'.
  cbn [forallb] in Hd. apply andb_true_iff in Hd as [Hc Hs].
  destruct (digit_not_space_or_sign c Hc) as (Hw & Hm & Hp).
  cbn [trimStart]. rewrite Hw, Hm, Hp.
  rewrite digits_value_digits by exact Hd'. cbn [length Nat.add].
  apply round_double_exact. split; [|exact Hv].
  apply fold_digits_nonneg; [exact Hd' | lia].
Qed.

Lemma parseInt10_not_a_number :
  forall c s,
    isWhiteSpace c = false -> isDigit c = false ->
    c <> 45%N -> c <> 43%N ->
    parseInt10 (c :: s) = NaN.
Proof.
  intros c s Hw Hd Hm Hp. unfold parseInt10. cbn [trimStart]. rewrite Hw.
  apply N.eqb_neq in Hm, Hp. rewrite Hm, Hp.
  cbn [digits_value]. now rewrite Hd.
Qed.

(** What [handleError] makes of the [Retry-After] header of a 429 response.
    A header of decimal digits, the number of seconds, becomes that many
    milliseconds; a header in the other form HTTP allows, a date (it starts
    with the letter of a week day), becomes [NaN]; without a header, or
    with an empty one, [retryAfter] is [undefined]. *)
Theorem handleError_retry_after :
  forall (r : Response T),
    status r = 429%Z -> errorBody r <> NullBody ->
    exists e,
      handleError r = ErrorObj e
      /\ cls e = RateLimitErrorK
      /\ (forall h,
             retryAfterHeader r = Some h -> h <> [] ->
             forallb isDigit h = true -> (decimal h * 1000 < 2 ^ 53)%Z ->
             retryAfter e = Some (Fin (decimal h * 1000)))
      /\ (forall c h,
             retryAfterHeader r = Some (c :: h) ->
             isWhiteSpace c = false -> isDigit c = false ->
             c <> 45%N -> c <> 43%N ->
             retryAfter e = Some NaN)
      /\ (retryAfterHeader r = None \/ retryAfterHeader r = Some [] ->
          retryAfter e = None).
Proof.
  intros r Hs Hb.
  destruct (handleError_table r Hb) as (e & He & _ & _ & H429 & _).
  destruct (H429 Hs) as (Hc & _ & _ & Hra).
  exists e. split; [exact He|]. split; [exact Hc|]. repeat split.
  - intros h Hh Hne Hd Hv. rewrite Hra, Hh.
    destruct h as [|c h]; [congruence|]. cbn [truthy].
    assert (Hdec : (0 <= decimal (c :: h))%Z)
      by (apply fold_digits_nonneg; [exact Hd | lia]).
    rewrite parseInt10_digits by (try congruence; try assumption; lia).
    cbn [times1000]. now rewrite round_double_exact by lia.
  - intros c h Hh Hw Hd Hm Hp. rewrite Hra, Hh. cbn [truthy].
    now rewrite parseInt10_not_a_number.
  - intros [Hh|Hh]; rewrite Hra, Hh; reflexivity.
Qed.

End RetryAfterProperties.

Lemma handleError_retry_after_witness :
  exists e,
    GmailApi.handleError (rate_limited "120") = Errors.ErrorObj e
    /\ Errors.retryAfter e = Some (JS.Fin 120000)
    /\ exists e',
        GmailApi.handleError (rate_limited "Wed, 21 Oct 2015 07:28:00 GMT")
          = Errors.ErrorObj e'
        /\ Errors.retryAfter e' = Some JS.NaN.
Proof.
  destruct (@handleError_retry_after unit (rate_limited "120") eq_refl)
    as (e & He & _ & Hsec & _); [discriminate|].
  exists e. split; [exact He|]. split.
  - apply (Hsec (lit "120")); [reflexivity | discriminate | reflexivity | reflexivity].
  - destruct (@handleError_retry_after unit
                (rate_limited "Wed, 21 Oct 2015 07:28:00 GMT") eq_refl)
      as (e' & He' & _ & _ & Hdate & _); [discriminate|].
    exists e'. split; [exact He'|].
    apply (Hdate 87%N (lit "ed, 21 Oct 2015 07:28:00 GMT"));
      [reflexivity | reflexivity | reflexivity | discriminate | discriminate].
Defined.

(* ------------------------------------------------------------------ *)
(** ** Reading the stream to its end *)

Section StreamReadProperties.
Import Errors GmailParser GmailProvider.
Variable B : Type.
Variable api_list :
  StreamParams -> option jsstring -> B -> outcome ListResponse Thrown * B.
Variable api_get : jsstring -> B -> outcome WireMessage Thrown * B.
Variable params : StreamParams.

Let World := GmailProvider.World B.

(** A page without messages ends the stream, whatever continuation token
    it carries: the generator completes and the pages behind the token are
    never requested. A used-up page whose token is missing or empty ends
    the stream without any request. *)
Theorem stream_ends_at_empty_page :
  forall g token (w : World) response b',
    (g = Fresh /\ token = None)
    \/ (g = AtYield [] token /\ truthy_opt token = true) ->
    api_list params token (backend w) = (Resolved response, b') ->
    messages response = None \/ messages response = Some [] ->
    next api_list api_get params g w =
      (Done, Completed,
       {| backend := b'; sent := sent w ++ [ListPage params token] |})
    /\ (forall w1 : World,
           next api_list api_get params Completed w1 = (Done, Completed, w1))
    /\ (forall (w1 : World) token1,
           truthy_opt token1 = false ->
           next api_list api_get params (AtYield [] token1) w1 =
           (Done, Completed, w1)).
Proof.
  intros g token w response b' Hg Hl Hm. split; [|split].
  - assert (Hf : fetch_page api_list api_get params token w =
                 (Done, Completed,
                  {| backend := b'; sent := sent w ++ [ListPage params token] |})).
    { unfold fetch_page. rewrite Hl. now destruct Hm as [-> | ->]. }
    destruct Hg as [[-> ->] | [-> Ht]]; cbn [next]; [exact Hf|].
    now rewrite Ht.
  - reflexivity.
  - intros w1 token1 Ht. cbn [next]. now rewrite Ht.
Qed.

Section WholeStream.
(** A backend whose answers depend on the request only. *)
Variable pages : option jsstring -> ListResponse.
Variable msg : jsstring -> WireMessage.
Hypothesis list_answers :
  forall tok b, api_list params tok b = (Resolved (pages tok), b).
Hypothesis get_answers :
  forall id b, api_get id b = (Resolved (msg id), b).

Let parsed (r : MessageRef) : option GmailEmail :=
  parseGmailMessage (msg (ref_id r)).

Lemma take_whole_stream :
  forall fuel rem tok (w : World) n,
    (truthy_opt tok = true -> ends_within pages fuel tok = true) ->
    let rest := if truthy_opt tok then listing pages fuel tok else [] in
    let reqs := if truthy_opt tok then requests pages params fuel tok else [] in
    Forall (fun r => parsed r <> None) (rem ++ rest) ->
    length (rem ++ rest) < n ->
    let '(items, g, w') := take api_list api_get params n (AtYield rem tok) w in
    map Some items = map parsed (rem ++ rest)
    /\ g = Completed
    /\ w' = {| backend := backend w;
               sent := sent w ++ map (fun r => GetMessage (ref_id r)) rem ++ reqs |}.
Proof.
  induction fuel as [|fuel IHfuel];
    (induction rem as [|m rem IHrem]; intros tok w n Hend rest reqs Hp Hn;
     subst rest reqs;
     (destruct n as [|n]; [cbn [length] in Hn; lia|]); cbn [take next]).
  - destruct (truthy_opt tok) eqn:Ht; [specialize (Hend eq_refl); discriminate|].
    destruct w. cbn. now rewrite app_nil_r.
  - cbn [app] in Hp. inversion Hp as [|? ? Hm Hp']; subst.
    unfold visit. rewrite get_answers. unfold parsed in Hm.
    destruct (parseGmailMessage (msg (ref_id m))) as [e|] eqn:He; [|congruence].
    match goal with
    | |- context [take api_list api_get params n (AtYield rem tok) ?w1] =>
        specialize (IHrem tok w1 n Hend Hp'); cbn zeta in IHrem;
        destruct (take api_list api_get params n (AtYield rem tok) w1)
          as [[items g] w'] eqn:Et
    end.
    destruct IHrem as (Hi & Hg & Hw); [cbn [app length] in Hn; lia|].
    cbn [app map]. unfold parsed at 1. rewrite He, Hi. repeat split; [exact Hg|].
    rewrite Hw. cbn [backend sent map]. now rewrite <- app_assoc.
  - destruct (truthy_opt tok) eqn:Ht.
    + specialize (Hend eq_refl). cbn [ends_within] in Hend.
      cbn [listing requests] in *.
      unfold fetch_page. rewrite list_answers.
      destruct (messages (pages tok)) as [[|m ms]|] eqn:Em.
      * destruct w. cbn. repeat split.
      * unfold visit. rewrite get_answers. cbn [backend sent].
        inversion Hp as [|? ? Hm Hp']; subst. unfold parsed in Hm.
        destruct (parseGmailMessage (msg (ref_id m))) as [e|] eqn:He;
          [|congruence].
        match goal with
        | |- context [take api_list api_get params n
                           (AtYield ms (nextPageToken (pages tok))) ?w1] =>
            pose proof (IHfuel ms (nextPageToken (pages tok)) w1 n) as IH;
            cbn zeta in IH;
            destruct (take api_list api_get params n
                           (AtYield ms (nextPageToken (pages tok))) w1)
              as [[items g] w'] eqn:Et
        end.
        destruct IH as (Hi & Hg & Hw).
        { intros Ht'. now rewrite Ht' in Hend. }
        { exact Hp'. }
        { cbn [app length] in Hn. lia. }
        cbn [app map]. unfold parsed at 1. rewrite He, Hi.
        repeat split; [exact Hg|].
        rewrite Hw. cbn [backend sent map app]. f_equal.
        rewrite <- !app_assoc. reflexivity.
      * destruct w. cbn. repeat split.
    + destruct w. cbn. now rewrite app_nil_r.
  - cbn [app] in Hp. inversion Hp as [|? ? Hm Hp']; subst.
    unfold visit. rewrite get_answers. unfold parsed in Hm.
    destruct (parseGmailMessage (msg (ref_id m))) as [e|] eqn:He; [|congruence].
    match goal with
    | |- context [take api_list api_get params n (AtYield rem tok) ?w1] =>
        specialize (IHrem tok w1 n Hend Hp'); cbn zeta in IHrem;
        destruct (take api_list api_get params n (AtYield rem tok) w1)
          as [[items g] w'] eqn:Et
    end.
    destruct IHrem as (Hi & Hg & Hw); [cbn [app length] in Hn; lia|].
    cbn [app map]. unfold parsed at 1. rewrite He, Hi. repeat split; [exact Hg|].
    rewrite Hw. cbn [backend sent map]. now rewrite <- app_assoc.
Qed.

(** Read to its end, the stream of a backend whose answers depend on the
    request only yields the messages of the first page, then those of the
    page its continuation token leads to, and so on, in listing order,
    until a page is empty or carries no token. Every page is requested once
    and every message is fetched once, just before it is yielded. *)
Theorem stream_yields_every_page :
  forall fuel (w : World) n,
    ends_within pages fuel None = true ->
    Forall (fun r => parseGmailMessage (msg (ref_id r)) <> None)
           (listing pages fuel None) ->
    length (listing pages fuel None) < n ->
    let '(items, g, w') := take api_list api_get params n Fresh w in
    map Some items =
      map (fun r => parseGmailMessage (msg (ref_id r))) (listing pages fuel None)
    /\ g = Completed
    /\ w' = {| backend := backend w;
               sent := sent w ++ requests pages params fuel None |}.
Proof.
  intros fuel w n Hend Hp Hn.
  destruct fuel as [|fuel]; [discriminate|].
  destruct n as [|n]; [lia|].
  cbn [ends_within] in Hend. cbn [listing requests] in *.
  cbn [take next]. unfold fetch_page. rewrite list_answers.
  destruct (messages (pages None)) as [[|m ms]|] eqn:Em.
  - destruct w. cbn. repeat split.
  - unfold visit. rewrite get_answers. cbn [backend sent].
    inversion Hp as [|? ? Hm Hp']; subst.
    destruct (parseGmailMessage (msg (ref_id m))) as [e|] eqn:He; [|congruence].
    match goal with
    | |- context [take api_list api_get params n
                       (AtYield ms (nextPageToken (pages None))) ?w1] =>
        pose proof (@take_whole_stream fuel ms (nextPageToken (pages None)) w1 n)
          as IH;
        cbn zeta in IH;
        destruct (take api_list api_get params n
                       (AtYield ms (nextPageToken (pages None))) w1)
          as [[items g] w'] eqn:Et
    end.
    destruct IH as (Hi & Hg & Hw).
    { intros Ht'. now rewrite Ht' in Hend. }
    { exact Hp'. }
    { cbn [app length] in Hn. lia. }
    cbn [app map]. rewrite He, Hi. repeat split; [exact Hg|].
    rewrite Hw. cbn [backend sent map app]. f_equal.
    rewrite <- !app_assoc. reflexivity.
  - destruct w. cbn. repeat split.
Qed.

End WholeStream.

End StreamReadProperties.

Lemma stream_ends_at_empty_page_witness :
  GmailProvider.next empty_first_page get_message default_params
                     GmailProvider.Fresh nothing_sent =
  (GmailProvider.Done, GmailProvider.Completed,
   {| GmailProvider.backend := tt;
      GmailProvider.sent := [GmailProvider.ListPage default_params None] |}).
Proof.
  apply (proj1 (@stream_ends_at_empty_page unit empty_first_page get_message
                  default_params GmailProvider.Fresh None nothing_sent
                  (page [] (Some (lit "p2"))) tt
                  (or_introl (conj eq_refl eq_refl)) eq_refl
                  (or_intror eq_refl))).
Defined.

Lemma stream_yields_every_page_witness :
  let '(items, g, w') :=
    GmailProvider.take three_pages get_message default_params 7
                       GmailProvider.Fresh nothing_sent in
  map Some items =
    map (fun r => GmailParser.parseGmailMessage (message_of (GmailProvider.ref_id r)))
        [ref "m1"; ref "m2"; ref "m3"; ref "m4"; ref "m5"; ref "m6"]
  /\ g = GmailProvider.Completed
  /\ w' = {| GmailProvider.backend := tt;
             GmailProvider.sent :=
               [] ++ requests three_pages_of default_params 3 None |}.
Proof.
  apply (@stream_yields_every_page unit three_pages get_message default_params
           three_pages_of message_of
           (fun _ _ => eq_refl) (fun _ _ => eq_refl) 3 nothing_sent 7).
  - reflexivity.
  - repeat constructor; discriminate.
  - cbn. lia.
Defined.

(* ------------------------------------------------------------------ *)
(** ** Attachments, folders and undecodable parts *)

Section TreeProperties.
Import JS GmailParser.

Let entry (p : GmailMessagePart) : list AttachmentMeta :=
  match attachment_of p with Some a => [a] | None => [] end.

Lemma processPart_entries :
  forall p acc, processPart p acc = acc ++ flat_map entry (all_parts p).
Proof.
  apply (part_induction
           (fun p => forall acc, processPart p acc = acc ++ flat_map entry (all_parts p))).
  intros mimeType filename headers body parts IH acc.
  cbn [processPart all_parts flat_map].
  set (acc1 := match body, filename with
               | Some b, Some f => _
               | _, _ => _
               end).
  assert (E1 : acc1 = acc ++ entry (Part mimeType filename headers body parts)).
  { subst acc1. unfold entry, attachment_of.
    destruct body as [b|]; [|now rewrite app_nil_r].
    destruct filename as [f|]; [|now rewrite app_nil_r].
    destruct (attachmentId b) as [a|]; [|now rewrite app_nil_r].
    destruct (truthy a && truthy f); [reflexivity | now rewrite app_nil_r]. }
  rewrite E1. clear E1 acc1.
  generalize (entry (Part mimeType filename headers body parts)) as e0.
  intros e0. rewrite app_assoc. generalize (acc ++ e0) as acc2. clear acc e0.
  destruct parts as [l|]; [|intros; now rewrite app_nil_r].
  induction l as [|q l IHl]; intros acc2; [now rewrite app_nil_r|].
  inversion IH as [|? ? Hq Hl]; subst.
  rewrite Hq, (IHl Hl). cbn [flat_map].
  rewrite flat_map_app, <- app_assoc. reflexivity.
Qed.

(** [extractAttachments] lists the parts that have an attachment id and a
    file name, neither of them empty, wherever they are in the tree and in
    document order; the parts under an attachment are visited too. A
    missing MIME type reads application/octet-stream and a missing size 0. *)
Theorem extractAttachments_document_order :
  forall payload,
    extractAttachments payload =
    flat_map (fun p => match attachment_of p with Some a => [a] | None => [] end)
             (parts_of payload).
Proof.
  intros [p|]; [|reflexivity].
  unfold extractAttachments, parts_of. now rewrite processPart_entries.
Qed.

(** The folder of a parsed message is one of the five system folders,
    never a user label and never of the custom type: it is a label the
    message carries, or INBOX. *)
Theorem parseGmailMessage_folder_is_system_folder :
  forall message e,
    parseGmailMessage message = Some e ->
    In (folder e) folder_labels
    /\ labelToFolderType (folder e) <> custom
    /\ (In (folder e) (match labelIds message with Some l => l | None => [] end)
        \/ folder e = lit "INBOX").
Proof.
  intros message e H. rewrite (parseGmailMessage_folder message H).
  set (l := match labelIds message with Some l => l | None => [] end).
  assert (Hin : In (folderLabel l) folder_labels
                /\ (In (folderLabel l) l \/ folderLabel l = lit "INBOX")).
  { destruct (folderLabel_first l)
      as [(before & f & after & -> & Hf & _ & ->) | [_ ->]].
    - split; [exact Hf|]. left. apply in_or_app. right. now left.
    - split; [now left | now right]. }
  destruct Hin as [Hin Hor]. split; [exact Hin|]. split; [|exact Hor].
  cbn in Hin.
  destruct Hin as [<-|[<-|[<-|[<-|[<-|[]]]]]]; discriminate.
Qed.

Lemma assign_all_fails :
  forall l st,
    assign_all l st = None <->
    Exists (fun kd => decodeBase64Url (snd kd) = None) l.
Proof.
  induction l as [|kd l IH]; intros st; cbn [assign_all].
  - split; [discriminate | intros H; inversion H].
  - unfold assign. destruct (decodeBase64Url (snd kd)) eqn:E.
    + rewrite IH. split; [now right|].
      intros H. inversion H as [? ? H1|? ? H1]; subst; [congruence | exact H1].
    + split; [now left | reflexivity].
Qed.

(** A message fails to parse (the exception of the decoder leaves
    [parseGmailMessage]) exactly when the data of one of the text parts the
    walk assigns from cannot be decoded; the data of any other part plays
    no role. *)
Theorem parseGmailMessage_fails_on_undecodable_text :
  forall message,
    parseGmailMessage message = None <->
    Exists (fun kd => decodeBase64Url (snd kd) = None)
           (leaves_of (payload message)).
Proof.
  intros message. rewrite <- (assign_all_fails _ {| html := None; text := [] |}).
  unfold parseGmailMessage, extractBody, leaves_of.
  destruct (payload message) as [p|].
  - rewrite processpart_assign_all.
    destruct (assign_all (qualifying_leaves p) _); split; congruence.
  - cbn. split; discriminate.
Qed.

End TreeProperties.

Lemma extractAttachments_document_order_example :
  map GmailParser.att_filename (GmailParser.extractAttachments (Some nested_attachments))
  = [lit "outer.eml"; lit "inner.pdf"; lit "last.txt"].
Proof. reflexivity. Qed.

Lemma parseGmailMessage_folder_is_system_folder_witness :
  exists e,
    GmailParser.parseGmailMessage (with_labels [lit "Label_7"; lit "UNREAD"]) = Some e
    /\ In (GmailParser.folder e) GmailParser.folder_labels
    /\ GmailParser.labelToFolderType (GmailParser.folder e) <> GmailParser.custom.
Proof.
  eexists. split; [reflexivity|].
  destruct (@parseGmailMessage_folder_is_system_folder
              (with_labels [lit "Label_7"; lit "UNREAD"]) _ eq_refl)
    as (H1 & H2 & _).
  split; [exact H1 | exact H2].
Defined.

(* ------------------------------------------------------------------ *)
(** ** Base64 across the two packages *)

Section CrossDecodeProperties.
Import JS RegExp.
Local Open Scope N_scope.

Lemma gmail_decodeBase64Url_body :
  forall l,
    Forall (fun b => b < 256) l ->
    GmailParser.decodeBase64Url (map to_url (b64_body l)) = Some l.
Proof.
  intros l Hl. unfold GmailParser.decodeBase64Url.
  change (lit "/") with [47]. change (lit "_") with [95].
  change (lit "+") with [43]. change (lit "-") with [45].
  rewrite !replace_all_char, !map_map.
  replace (map _ (b64_body l)) with (b64_body l).
  2:{ symmetry. rewrite <- (map_id (b64_body l)) at 2.
      apply map_ext_Forall. eapply Forall_impl; [|apply b64_body_alphabet].
      intros c Hc. apply (to_url_alphabet c Hc). }
  destruct (btoa_bytes_body l) as (E & _). cbn zeta in E. rewrite <- E.
  now apply atob_btoa_bytes.
Qed.

Lemma utf8_ascii : forall c, c < 128 -> utf8 c = [c].
Proof.
  intros c Hc. unfold utf8.
  replace (c <? 128) with true by (symmetry; now apply N.ltb_lt). reflexivity.
Qed.

Lemma utf8_bytes_ascii :
  forall s, Forall (fun c => c < 128) s -> utf8_bytes s = s.
Proof.
  induction 1 as [|c s Hc Hs IH]; [reflexivity|].
  cbn [utf8_bytes].
  replace (isLeadSurrogate c) with false
    by (symmetry; unfold isLeadSurrogate; apply andb_false_iff; left;
        apply N.leb_gt; lia).
  rewrite utf8_ascii, IH by assumption. reflexivity.
Qed.

Lemma ascii_well_formed :
  forall s, Forall (fun c => c < 128) s -> well_formed s = true.
Proof.
  induction 1 as [|c s Hc Hs IH]; [reflexivity|].
  cbn [well_formed]. unfold isLeadSurrogate, isTrailSurrogate. rewrite IH.
  ncases; reflexivity.
Qed.

Lemma utf8_length :
  forall cp, 1 <= N.of_nat (length (utf8 cp))
             /\ (128 <= cp -> 2 <= N.of_nat (length (utf8 cp))).
Proof.
  intros cp. unfold utf8. ncases; cbn [length]; lia.
Qed.

Lemma utf8_bytes_length :
  forall s,
    well_formed s = true ->
    (length s <= length (utf8_bytes s))%nat
    /\ (length (utf8_bytes s) = length s -> Forall (fun c => c < 128) s).
Proof.
  apply well_formed_ind.
  - split; [reflexivity | constructor].
  - intros c s Hl Ht Hc Hs [IH1 IH2]. cbn [utf8_bytes length]. rewrite Hl.
    rewrite length_app. destruct (utf8_length c) as [H1 H2]. split; [lia|].
    intros E. destruct (N.lt_ge_cases c 128) as [Hlt|Hge].
    + constructor; [exact Hlt|]. apply IH2. rewrite utf8_ascii in E by exact Hlt.
      cbn [length] in E. lia.
    + specialize (H2 Hge). lia.
  - intros c d s Hl Ht Hs [IH1 IH2]. cbn [utf8_bytes length]. rewrite Hl.
    rewrite length_app.
    destruct (pair_code_point c d Hl Ht) as (Hge & _ & _). cbn zeta in Hge.
    assert (H4 : length (utf8 ((c - 55296) * 1024 + (d - 56320) + 65536)) = 4%nat).
    { unfold utf8.
      replace (_ <? 128) with false by (symmetry; apply N.ltb_ge; lia).
      replace (_ <? 2048) with false by (symmetry; apply N.ltb_ge; lia).
      replace (_ <? 65536) with false by (symmetry; apply N.ltb_ge; lia).
      reflexivity. }
    rewrite H4. split; lia.
Qed.

Lemma encodeBase64Url_well_formed :
  forall s,
    well_formed s = true ->
    Parser.encodeBase64Url s = Some (map to_url (b64_body (utf8_bytes s))).
Proof.
  intros s Hs.
  destruct (unescape_encodeURIComponent s Hs) as [escaped [He Hu]].
  pose proof (utf8_bytes_octets s Hs) as Hoct.
  unfold Parser.encodeBase64Url. rewrite He, Hu. unfold btoa.
  replace (forallb _ (utf8_bytes s)) with true.
  2:{ symmetry. apply forallb_forall. rewrite Forall_forall in Hoct.
      intros x Hx. apply N.leb_le. specialize (Hoct x Hx). lia. }
  now rewrite url_safe_btoa.
Qed.

(** The decoder of the Gmail package undoes the base64url of the parser
    package only as far as the octets: a text comes back as the string of
    its UTF-8 octets. For a text of ASCII characters that is the text
    itself; for every other text it is a different, longer string. *)
Theorem gmail_decodeBase64Url_gives_octets :
  forall s,
    well_formed s = true ->
    exists e,
      Parser.encodeBase64Url s = Some e
      /\ GmailParser.decodeBase64Url e = Some (utf8_bytes s)
      /\ (GmailParser.decodeBase64Url e = Some s <-> Forall (fun c => c < 128) s).
Proof.
  intros s Hs.
  pose proof (utf8_bytes_octets s Hs) as Hoct.
  exists (map to_url (b64_body (utf8_bytes s))). split; [|split].
  - now apply encodeBase64Url_well_formed.
  - now apply gmail_decodeBase64Url_body.
  - rewrite gmail_decodeBase64Url_body by assumption. split.
    + intros [= E]. apply (utf8_bytes_length s Hs). now rewrite E.
    + intros Ha. now rewrite utf8_bytes_ascii.
Qed.

Lemma encodeURIComponent_lone_surrogate :
  forall n s,
    (length s <= n)%nat ->
    Forall (fun c => c < 65536) s ->
    well_formed s = false ->
    encodeURIComponent s = None.
Proof.
  induction n as [|n IH]; intros s Hn Hb Hw.
  - destruct s; [discriminate | cbn [length] in Hn; lia].
  - destruct s as [|c s]; [discriminate|].
    inversion Hb as [|? ? Hc Hb']; subst.
    cbn [length] in Hn. cbn [well_formed] in Hw. cbn [encodeURIComponent].
    destruct (uriUnescaped c) eqn:Hu.
    + destruct (uriUnescaped_ascii c Hu) as [Hlt _].
      assert (Hl : isLeadSurrogate c = false)
        by (unfold isLeadSurrogate; apply andb_false_iff; left;
            apply N.leb_gt; lia).
      assert (Ht : isTrailSurrogate c = false)
        by (unfold isTrailSurrogate; apply andb_false_iff; left;
            apply N.leb_gt; lia).
      rewrite Hl, Ht in Hw.
      replace (c <? 65536) with true in Hw by (symmetry; now apply N.ltb_lt).
      cbn [negb andb] in Hw. rewrite (IH s) by (try assumption; lia).
      reflexivity.
    + destruct (isLeadSurrogate c) eqn:Hl.
      * destruct s as [|d s]; [reflexivity|].
        destruct (isTrailSurrogate d) eqn:Ht; [|reflexivity].
        cbn [andb] in Hw. inversion Hb' as [|? ? _ Hb'']; subst.
        cbn [length] in Hn. rewrite (IH s) by (try assumption; lia).
        reflexivity.
      * destruct (isTrailSurrogate c) eqn:Ht; [reflexivity|].
        replace (c <? 65536) with true in Hw by (symmetry; now apply N.ltb_lt).
        cbn [negb andb] in Hw. rewrite (IH s) by (try assumption; lia).
        reflexivity.
Qed.

(** The encoder throws exactly on the strings that hold a surrogate code
    unit outside a pair; on every other string it returns. *)
Theorem encodeBase64Url_throws_on_lone_surrogate :
  forall s,
    Forall (fun c => c < 65536) s ->
    (Parser.encodeBase64Url s = None <-> well_formed s = false).
Proof.
  intros s Hb. split.
  - intros H. destruct (well_formed s) eqn:Hw; [|reflexivity].
    rewrite encodeBase64Url_well_formed in H by exact Hw. discriminate.
  - intros Hw. unfold Parser.encodeBase64Url.
    now rewrite (@encodeURIComponent_lone_surrogate (length s) s (le_n _) Hb Hw).
Qed.

Lemma map_from_url_btoa :
  forall l,
    map (fun x => if x =? 95 then 47 else x)
        (map (fun x => if x =? 45 then 43 else x) (btoa_bytes l)) = btoa_bytes l.
Proof.
  intros l. destruct (btoa_bytes_body l) as (E & _). cbn zeta in E. rewrite E.
  rewrite map_map. rewrite <- map_id. apply map_ext_Forall.
  apply Forall_app. split.
  - eapply Forall_impl; [|apply b64_body_alphabet].
    intros c Hc. destruct (in_alphabet_inv c Hc) as (_ & H45 & H95 & _).
    apply N.eqb_neq in H45, H95. now rewrite H45, H95.
  - unfold pad. apply Forall_forall. intros c Hc.
    apply repeat_spec in Hc. subst c. reflexivity.
Qed.

(** The decoder also reads ordinary base64, with [+], [/] and the padding:
    the base64 of the UTF-8 octets of a text decodes to the text. *)
Theorem decodeBase64Url_reads_padded_base64 :
  forall s,
    well_formed s = true ->
    Parser.decodeBase64Url (btoa_bytes (utf8_bytes s)) = Some s.
Proof.
  intros s Hs. pose proof (utf8_bytes_octets s Hs) as Hoct.
  unfold Parser.decodeBase64Url.
  change (lit "/") with [47]. change (lit "_") with [95].
  change (lit "+") with [43]. change (lit "-") with [45].
  rewrite !replace_all_char, map_from_url_btoa.
  destruct (btoa_bytes_body (utf8_bytes s)) as (E & _ & Hlen & _).
  cbn zeta in E, Hlen. rewrite <- E in Hlen. rewrite Hlen.
  cbn [Nat.sub Nat.modulo]. change ((4 - 0) mod 4)%nat with 0%nat.
  cbn [pad repeat]. rewrite app_nil_r, atob_btoa_bytes by assumption.
  unfold decodeURIComponent. rewrite items_percent by assumption.
  now apply decode_items_utf8_bytes.
Qed.

End CrossDecodeProperties.

Lemma decodeBase64Url_reads_padded_base64_witness :
  Parser.decodeBase64Url (lit "SMOp4oKs8J+YgA==") = Some sample_text.
Proof.
  apply (@decodeBase64Url_reads_padded_base64 sample_text). reflexivity.
Defined.

Lemma encodeBase64Url_throws_on_lone_surrogate_witness :
  Parser.encodeBase64Url [72; 55357]%N = None <-> well_formed [72; 55357]%N = false.
Proof.
  apply (@encodeBase64Url_throws_on_lone_surrogate [72; 55357]%N).
  repeat constructor.
Defined.

Lemma gmail_decodeBase64Url_gives_octets_witness :
  exists e,
    Parser.encodeBase64Url sample_text = Some e
    /\ GmailParser.decodeBase64Url e = Some (utf8_bytes sample_text)
    /\ (GmailParser.decodeBase64Url e = Some sample_text <->
        Forall (fun c => (c < 128)%N) sample_text).
Proof.
  apply (@gmail_decodeBase64Url_gives_octets sample_text). reflexivity.
Defined.

(* ------------------------------------------------------------------ *)
(** ** The first match and all the matches of a pattern *)

Section MatcherProperties.
Import JS RegExp.
Local Open Scope regex_scope.

(** The first way a pattern matches, construct by construct. *)
Lemma first_Cat :
  forall ic b a r st st1 y,
    hd_error (matches ic b a st) = Some st1 ->
    hd_error (matches ic b r st1) = Some y ->
    hd_error (matches ic b (a >> r) st) = Some y.
Proof.
  intros ic b a r st st1 y Ha Hr. rewrite matches_Cat.
  destruct (matches ic b a st) as [|x l]; [discriminate|].
  injection Ha as ->. rewrite hd_error_flat_map_cons. now rewrite Hr.
Qed.

Lemma first_Str :
  forall ic b p st,
    starts_with ic p (rest st) = true ->
    hd_error (matches ic b (Str p) st) = Some (advance st (length p)).
Proof. intros ic b p st H. cbn [matches]. now rewrite H. Qed.

Lemma first_Opt_taken :
  forall ic b a st st1,
    hd_error (matches ic b a st) = Some st1 ->
    pos st1 <> pos st ->
    hd_error (matches ic b (Opt a) st) = Some st1.
Proof.
  intros ic b a st st1 Ha Hp. cbn [matches].
  destruct (matches ic b a st) as [|x l]; [discriminate|].
  injection Ha as ->. cbn [filter].
  apply Nat.eqb_neq in Hp. now rewrite Hp.
Qed.

Lemma first_Opt_skipped :
  forall ic b a st,
    matches ic b a st = [] ->
    hd_error (matches ic b (Opt a) st) = Some st.
Proof. intros ic b a st H. cbn [matches]. now rewrite H. Qed.

Lemma first_Rep_greedy :
  forall ic b min (p : class) st,
    min <= run p (rest st) ->
    hd_error (matches ic b (Rep true min p) st) =
    Some (advance st (run p (rest st))).
Proof.
  intros ic b min p st H. cbn [matches].
  replace (S (run p (rest st)) - min) with (S (run p (rest st) - min)) by lia.
  rewrite seq_S, rev_app_distr. cbn [rev app map hd_error].
  do 2 f_equal. lia.
Qed.

Lemma first_Cap :
  forall ic b i a st st1,
    hd_error (matches ic b a st) = Some st1 ->
    hd_error (matches ic b (Cap i a) st) =
    Some {| pos := pos st1; rest := rest st1;
            captures := (i, firstn (pos st1 - pos st) (rest st)) :: captures st1 |}.
Proof.
  intros ic b i a st st1 H. cbn [matches].
  destruct (matches ic b a st) as [|x l]; [discriminate|].
  injection H as ->. reflexivity.
Qed.

Lemma first_Eol :
  forall ic b st, rest st = [] -> hd_error (matches ic b Eol st) = Some st.
Proof. intros ic b st H. cbn [matches]. now rewrite H. Qed.

(** All the ways a pattern matches, construct by construct. *)
Lemma In_matches_Cat :
  forall ic b a r st y,
    In y (matches ic b (a >> r) st) <->
    exists st1, In st1 (matches ic b a st) /\ In y (matches ic b r st1).
Proof. intros. rewrite matches_Cat. apply in_flat_map. Qed.

Lemma In_matches_Str :
  forall ic b p st y,
    In y (matches ic b (Str p) st) <->
    starts_with ic p (rest st) = true /\ y = advance st (length p).
Proof.
  intros ic b p st y. cbn [matches].
  destruct (starts_with ic p (rest st)); cbn [In]; split.
  - intros [<-|[]]. now split.
  - intros [_ ->]. now left.
  - intros [].
  - intros [H _]. discriminate.
Qed.

Lemma In_matches_Rep :
  forall ic b g min (p : class) st y,
    In y (matches ic b (Rep g min p) st) <->
    exists k, min <= k <= run p (rest st) /\ y = advance st k.
Proof.
  intros ic b g min p st y. cbn [matches]. rewrite in_map_iff.
  split.
  - intros (k & <- & Hk). exists k. split; [|reflexivity].
    assert (Hin : In k (seq min (S (run p (rest st)) - min)))
      by (destruct g; [now apply in_rev|exact Hk]).
    apply in_seq in Hin. lia.
  - intros (k & Hk & ->). exists k. split; [reflexivity|].
    assert (Hin : In k (seq min (S (run p (rest st)) - min)))
      by (apply in_seq; lia).
    destruct g; [now apply in_rev in Hin | exact Hin].
Qed.

Lemma In_matches_Cap :
  forall ic b i a st y,
    In y (matches ic b (Cap i a) st) <->
    exists st1,
      In st1 (matches ic b a st)
      /\ y = {| pos := pos st1; rest := rest st1;
                captures := (i, firstn (pos st1 - pos st) (rest st))
                              :: captures st1 |}.
Proof.
  intros ic b i a st y.
  change (matches ic b (Cap i a) st)
    with (map (fun st' =>
                 {| pos := pos st'; rest := rest st';
                    captures := (i, firstn (pos st' - pos st) (rest st))
                                  :: captures st' |})
              (matches ic b a st)).
  rewrite in_map_iff. split; intros (st1 & H1 & H2); exists st1; now split.
Qed.

Lemma In_matches_Opt :
  forall ic b a st y,
    In y (matches ic b (Opt a) st) <->
    (In y (matches ic b a st) /\ pos y <> pos st) \/ y = st.
Proof.
  intros ic b a st y.
  change (matches ic b (Opt a) st)
    with (filter (fun st' => negb (Nat.eqb (pos st') (pos st)))
                 (matches ic b a st) ++ [st]).
  rewrite in_app_iff, filter_In. cbn [In]. split.
  - intros [[H1 H2]|[<-|[]]]; [left | now right].
    split; [exact H1|]. apply negb_true_iff in H2. now apply Nat.eqb_neq.
  - intros [[H1 H2] | ->]; [left | right; now left].
    split; [exact H1|]. apply negb_true_iff. now apply Nat.eqb_neq.
Qed.

Lemma In_matches_Eol :
  forall ic b st y,
    In y (matches ic b Eol st) <-> rest st = [] /\ y = st.
Proof.
  intros ic b st y. cbn [matches].
  destruct (rest st); cbn [In]; split.
  - intros [<-|[]]. now split.
  - intros [_ ->]. now left.
  - intros [].
  - intros [H _]. discriminate.
Qed.

Lemma In_matches_Bol :
  forall ic b st y,
    In y (matches ic b Bol st) <-> b = true /\ pos st = 0 /\ y = st.
Proof.
  intros ic b st y. cbn [matches].
  destruct b; cbn [andb]; [|split; [intros [] | intros [H _]; discriminate]].
  destruct (Nat.eqb_spec (pos st) 0) as [E|E]; cbn [In]; split.
  - intros [<-|[]]. now repeat split.
  - intros (_ & _ & ->). now left.
  - intros [].
  - intros (_ & H & _). contradiction.
Qed.

(** The characters a run of a class covers. *)
Lemma run_prefix :
  forall (p : class) t k,
    k <= run p t ->
    Forall (fun c => p c = true) (firstn k t) /\ length (firstn k t) = k.
Proof.
  intros p. induction t as [|c t IH]; intros k Hk.
  - cbn [run] in Hk. replace k with 0 by lia. split; [constructor|reflexivity].
  - destruct k as [|k]; [split; [constructor|reflexivity]|].
    cbn [run] in Hk. destruct (p c) eqn:Hc; [|lia].
    destruct (IH k) as [H1 H2]; [lia|]. cbn [firstn length].
    split; [now constructor | now rewrite H2].
Qed.

Lemma run_app_le :
  forall (p : class) t u,
    Forall (fun c => p c = true) t -> length t <= run p (t ++ u).
Proof.
  intros p t u H. induction H as [|c t Hc Ht IH]; [apply Nat.le_0_l|].
  cbn [app run length]. rewrite Hc. lia.
Qed.

(** A pattern that starts with [^] matches at the start of the input or
    nowhere. *)
Lemma exec_from_Bol :
  forall ic r t i,
    i <> 0 -> exec_from ic (Bol >> r) i t = None.
Proof.
  intros ic r. induction t as [|c t IH]; intros i Hi; cbn [exec_from];
    apply Nat.eqb_neq in Hi; rewrite Hi;
    unfold match_at; rewrite matches_Cat; cbn [matches andb flat_map hd_error];
    [reflexivity|].
  apply IH. lia.
Qed.

Lemma exec_Bol :
  forall ic r s,
    exec ic (Bol >> r) s =
    match match_at ic (Bol >> r) true s with
    | Some st => Some (0, st)
    | None => None
    end.
Proof.
  intros ic r s. unfold exec. destruct s as [|c s]; cbn [exec_from Nat.eqb];
    destruct (match_at ic (Bol >> r) true _); try reflexivity.
  now apply exec_from_Bol.
Qed.

End MatcherProperties.

(* ------------------------------------------------------------------ *)
(** ** Addresses with a name *)

Section NamedAddressProperties.
Import JS RegExp Parser.
Local Open Scope regex_scope.

Lemma trim_ends :
  forall s,
    match s with c :: _ => isWhiteSpace c = false | [] => True end ->
    match rev s with c :: _ => isWhiteSpace c = false | [] => True end ->
    trim s = s.
Proof.
  intros s H1 H2. unfold trim, trimEnd.
  assert (E1 : trimStart s = s).
  { destruct s as [|c s]; [reflexivity|]. cbn [trimStart]. now rewrite H1. }
  rewrite E1.
  assert (E2 : trimStart (rev s) = rev s).
  { destruct (rev s) as [|c r]; [reflexivity|]. cbn [trimStart]. now rewrite H2. }
  rewrite E2. apply rev_involutive.
Qed.

Lemma run_stop :
  forall (p : class) t c u,
    Forall (fun x => p x = true) t -> p c = false ->
    run p (t ++ c :: u) = length t.
Proof. intros p t c u Ht Hc. now apply run_all. Qed.

Lemma firstn_length_app :
  forall (A : Type) (u v : list A), firstn (length u) (u ++ v) = u.
Proof.
  intros A u v. rewrite firstn_app, firstn_all, Nat.sub_diag.
  cbn [firstn]. apply app_nil_r.
Qed.

(** The name group on a quoted name followed by white space. *)
Lemma first_name_part_quoted :
  forall b n nm sp u caps,
    Forall (fun c => name_char c = true) nm ->
    Forall (fun c => isWhiteSpace c = true) sp ->
    match u with c :: _ => isWhiteSpace c = false | [] => True end ->
    hd_error (matches false b name_part
                {| pos := n; rest := 34%N :: nm ++ 34%N :: sp ++ u;
                   captures := caps |}) =
    Some {| pos := n + 1 + length nm + 1 + length sp; rest := u;
            captures := (1, nm) :: caps |}.
Proof.
  intros b n nm sp u caps Hnm Hsp Hu. unfold name_part.
  eapply first_Cat.
  { apply first_Opt_taken; [apply first_Str; reflexivity|].
    unfold advance; cbn [pos length]; lia. }
  unfold advance; cbn [pos rest captures skipn length].
  eapply first_Cat.
  { apply first_Cap. apply first_Rep_greedy. lia. }
  unfold advance; cbn [pos rest captures skipn length].
  rewrite (@run_stop name_char nm 34%N (sp ++ u) Hnm eq_refl).
  rewrite skipn_length_app.
  replace (n + 1 + length nm - (n + 1)) with (length nm) by lia.
  rewrite firstn_length_app.
  eapply first_Cat.
  { apply first_Opt_taken; [apply first_Str; reflexivity|].
    unfold advance; cbn [pos length]; lia. }
  unfold advance; cbn [pos rest captures skipn length].
  rewrite first_Rep_greedy by lia. unfold advance; cbn [pos rest captures skipn length].
  assert (Hrun : run space (sp ++ u) = length sp).
  { apply run_all; [exact Hsp|]. destruct u; [exact I | exact Hu]. }
  rewrite Hrun, skipn_length_app. reflexivity.
Qed.

(** What follows the name group, on an address in angle brackets. *)
Lemma first_address_part_bracketed :
  forall b n loc domain caps,
    loc <> [] -> domain <> [] ->
    Forall (fun c => addr_char c = true) loc ->
    Forall (fun c => addr_char c = true) domain ->
    hd_error (matches false b address_part
                {| pos := n; rest := 60%N :: loc ++ 64%N :: domain ++ [62%N];
                   captures := caps |}) =
    Some {| pos := n + 1 + length loc + 1 + length domain + 1; rest := [];
            captures := (2, loc ++ 64%N :: domain) :: caps |}.
Proof.
  intros b n loc domain caps Hl Hd Hloc Hdom. unfold address_part.
  assert (Ll : 1 <= length loc) by (destruct loc; [congruence | cbn; lia]).
  assert (Ld : 1 <= length domain) by (destruct domain; [congruence | cbn; lia]).
  eapply first_Cat.
  { apply first_Opt_taken; [apply first_Str; reflexivity|].
    unfold advance; cbn; lia. }
  change (length (lit "<")) with 1.
  unfold advance; cbn [pos rest captures skipn length].
  eapply first_Cat.
  { apply first_Cap. eapply first_Cat.
    { apply first_Rep_greedy. cbn [rest].
      rewrite (@run_stop addr_char loc 64%N (domain ++ [62%N]) Hloc eq_refl).
      exact Ll. }
    unfold advance; cbn [pos rest captures skipn length].
    rewrite (@run_stop addr_char loc 64%N (domain ++ [62%N]) Hloc eq_refl).
    rewrite skipn_length_app.
    eapply first_Cat; [apply first_Str; reflexivity|].
    change (length (lit "@")) with 1.
    unfold advance; cbn [pos rest captures skipn length].
    apply first_Rep_greedy. cbn [rest].
    rewrite (@run_stop addr_char domain 62%N [] Hdom eq_refl). exact Ld. }
  unfold advance; cbn [pos rest captures skipn length].
  rewrite (@run_stop addr_char domain 62%N [] Hdom eq_refl), skipn_length_app.
  eapply first_Cat.
  { apply first_Opt_taken; [apply first_Str; reflexivity|].
    unfold advance; cbn; lia. }
  change (length (lit ">")) with 1.
  unfold advance; cbn [pos rest captures skipn length].
  rewrite first_Eol by reflexivity. do 2 f_equal.
  replace (n + 1 + length loc + 1 + length domain - (n + 1))
    with (length (loc ++ 64%N :: domain))
    by (rewrite length_app; cbn [length]; lia).
  change (loc ++ 64%N :: domain ++ [62%N])
    with (loc ++ (64%N :: domain) ++ [62%N]).
  rewrite app_assoc, firstn_length_app. reflexivity.
Qed.

(** What [formatAddress] writes for an address with a name. *)
Lemma formatAddress_named :
  forall nm e,
    nm <> [] ->
    formatAddress {| email := e; name := Some nm |} =
    34%N :: nm ++ 34%N :: [32%N] ++ 60%N :: e ++ [62%N].
Proof.
  intros nm e Hnm. unfold formatAddress. cbn [name email truthy_opt].
  destruct nm as [|c nm]; [congruence|]. cbn [truthy].
  cbn [app lit]; f_equal; rewrite <- ?app_assoc; reflexivity.
Qed.

(** [parseAddress] on a quoted name and a bracketed email. *)
Lemma parseAddress_quoted :
  forall nm loc domain,
    nm <> [] -> trim nm = nm ->
    Forall (fun c => name_char c = true) nm ->
    loc <> [] -> domain <> [] ->
    Forall (fun c => addr_char c = true) (loc ++ domain) ->
    parseAddress (34%N :: nm ++ 34%N :: [32%N]
                    ++ 60%N :: (loc ++ 64%N :: domain) ++ [62%N]) =
    {| email := loc ++ 64%N :: domain; name := Some nm |}.
Proof.
  intros nm loc domain Hnm Htrim Hname Hl Hd Haddr.
  apply Forall_app in Haddr as [Hloc Hdom].
  rewrite <- (app_assoc loc (64%N :: domain) [62%N]). cbn [app].
  change (34%N :: nm ++ 34%N :: 32%N :: 60%N :: loc ++ 64%N :: domain ++ [62%N])
    with (34%N :: nm ++ 34%N :: [32%N]
            ++ 60%N :: loc ++ 64%N :: domain ++ [62%N]).
  unfold parseAddress.
  set (F := 34%N :: nm ++ 34%N :: [32%N] ++ 60%N :: loc ++ 64%N :: domain ++ [62%N]).
  assert (HF : trim F = F).
  { apply trim_ends; [reflexivity|].
    replace F with ((34%N :: nm ++ 34%N :: 32%N :: 60%N :: loc ++ 64%N :: domain)
                      ++ [62%N]).
    - rewrite rev_app_distr. reflexivity.
    - unfold F. cbn [app]. f_equal. rewrite <- app_assoc. cbn [app].
      do 3 f_equal. rewrite <- app_assoc. reflexivity. }
  rewrite HF.
  assert (Hm : match_at false address_re true F =
               Some {| pos := 0 + 1 + length nm + 1 + 1 + 1 + length loc + 1
                              + length domain + 1;
                       rest := [];
                       captures := [(2, loc ++ 64%N :: domain); (1, nm)] |}).
  { unfold match_at, address_re.
    eapply first_Cat; [reflexivity|].
    eapply first_Cat.
    { apply first_Opt_taken.
      - apply (@first_name_part_quoted true 0 nm [32%N]
                 (60%N :: loc ++ 64%N :: domain ++ [62%N]) []).
        + exact Hname.
        + repeat constructor.
        + reflexivity.
      - cbn [pos]. lia. }
    cbn [length].
    now apply first_address_part_bracketed. }
  unfold exec. rewrite (@exec_from_head false address_re 0 F _ Hm).
  cbn [capture captures find fst snd Nat.eqb option_map].
  rewrite Htrim.
  rewrite trim_id.
  2:{ apply Forall_app. split.
      - eapply Forall_impl; [|exact Hloc]. intros c Hc.
        unfold addr_char, neither, space in Hc.
        apply andb_true_iff in Hc as [_ Hc]. now apply negb_true_iff.
      - constructor; [reflexivity|].
        eapply Forall_impl; [|exact Hdom]. intros c Hc.
        unfold addr_char, neither, space in Hc.
        apply andb_true_iff in Hc as [_ Hc]. now apply negb_true_iff. }
  destruct nm; [congruence | reflexivity].
Qed.

(** An address with a name comes back from [parseAddress] as
    [formatAddress] wrote it, when the name is not empty, has no double
    quote, no [<] and no white space at its ends, and the email is a local
    part, [@] and a domain without white space, [>] or a further [@]. The
    name may hold commas and the email any other character. *)
Theorem parseAddress_formatAddress_named :
  forall nm loc domain,
    nm <> [] -> trim nm = nm ->
    Forall (fun c => name_char c = true) nm ->
    loc <> [] -> domain <> [] ->
    Forall (fun c => addr_char c = true) (loc ++ domain) ->
    let a := {| email := loc ++ 64%N :: domain; name := Some nm |} in
    formatAddress a = [34%N] ++ nm ++ [34%N] ++ lit " <" ++ email a ++ lit ">"
    /\ parseAddress (formatAddress a) = a.
Proof.
  intros nm loc domain Hnm Htrim Hname Hl Hd Haddr a.
  split.
  { unfold formatAddress, a. cbn [name email truthy_opt].
    destruct nm; [congruence | reflexivity]. }
  unfold a. rewrite (formatAddress_named _ Hnm).
  now apply parseAddress_quoted.
Qed.

(** The rest of the input after a match is a suffix of the input before
    it. *)
Lemma matches_rest_suffix :
  forall ic b r st y,
    In y (matches ic b r st) -> exists k, rest y = skipn k (rest st).
Proof.
  intros ic b. induction r as [p|p|r1 IH1 r2 IH2|r IH|g min p|i r IH| |];
    intros st y H.
  - apply In_matches_Str in H as [_ ->]. now exists (length p).
  - cbn [matches] in H. destruct (rest st) as [|c t] eqn:E; [destruct H|].
    destruct (p c); [|destruct H]. destruct H as [<-|[]].
    exists 1. cbn [advance rest]. now rewrite E.
  - apply In_matches_Cat in H as (st1 & H1 & H2).
    destruct (IH1 _ _ H1) as [k1 E1]. destruct (IH2 _ _ H2) as [k2 E2].
    exists (k2 + k1). now rewrite E2, E1, skipn_skipn.
  - apply In_matches_Opt in H as [[H _]| ->].
    + now apply IH.
    + now exists 0.
  - apply In_matches_Rep in H as (k & _ & ->). now exists k.
  - apply In_matches_Cap in H as (st1 & H & ->).
    cbn [rest]. now apply IH.
  - apply In_matches_Bol in H as (_ & _ & ->). now exists 0.
  - apply In_matches_Eol in H as (_ & ->). now exists 0.
Qed.

Lemma In_skipn_In :
  forall (A : Type) (x : A) k l, In x (skipn k l) -> In x l.
Proof.
  intros A x. induction k as [|k IH]; intros l H; [exact H|].
  destruct l as [|a l]; [exact H|]. right. now apply IH.
Qed.

(** A literal character of a pattern occurs in the input of every match
    that goes through it. *)
Lemma matches_through_char :
  forall ic b (a r : regex) c st y,
    ic = false ->
    In y (matches ic b (a >> Str [c] >> r) st) -> In c (rest st).
Proof.
  intros ic b a r c st y -> H.
  apply In_matches_Cat in H as (st1 & H1 & H2).
  apply In_matches_Cat in H2 as (st2 & H2 & _).
  apply In_matches_Str in H2 as [H2 _].
  destruct (matches_rest_suffix _ _ _ _ _ H1) as [k E].
  destruct (rest st1) as [|x t] eqn:E1; [discriminate|].
  cbn [starts_with char_eqb] in H2. apply andb_true_iff in H2 as [H2 _].
  apply N.eqb_eq in H2. subst x.
  apply (In_skipn_In c k). rewrite <- E. now left.
Qed.

Lemma address_part_needs_at :
  forall b st y,
    In y (matches false b address_part st) -> In 64%N (rest st).
Proof.
  intros b st y H. unfold address_part in H.
  apply In_matches_Cat in H as (st1 & H1 & H).
  apply In_matches_Cat in H as (st2 & H2 & _).
  apply In_matches_Cap in H2 as (st3 & H3 & _).
  change (lit "@") with [64%N] in H3.
  apply matches_through_char in H3; [|reflexivity].
  destruct (matches_rest_suffix _ _ _ _ _ H1) as [k E].
  apply (In_skipn_In _ k). now rewrite <- E.
Qed.

Lemma trimStart_suffix :
  forall s, exists a, s = a ++ trimStart s.
Proof.
  induction s as [|c s [a IH]]; [now exists []|].
  cbn [trimStart]. destruct (isWhiteSpace c).
  - exists (c :: a). cbn [app]. now f_equal.
  - now exists [].
Qed.

Lemma In_trim :
  forall c s, In c (trim s) -> In c s.
Proof.
  intros c s H. unfold trim, trimEnd in H. apply in_rev in H.
  destruct (trimStart_suffix (rev (trimStart s))) as [a Ea].
  assert (H1 : In c (rev (trimStart s)))
    by (rewrite Ea; apply in_or_app; now right).
  apply in_rev in H1.
  destruct (trimStart_suffix s) as [a' Ea'].
  rewrite Ea'. apply in_or_app. now right.
Qed.

(** A text without [@] is not taken apart: [parseAddress] returns it,
    trimmed, as the email, and no name. *)
Theorem parseAddress_without_at :
  forall raw,
    ~ In 64%N raw ->
    parseAddress raw = {| email := trim raw; name := None |}.
Proof.
  intros raw H. unfold parseAddress. unfold address_re. rewrite exec_Bol.
  unfold match_at.
  destruct (matches false true (Bol >> Opt name_part >> address_part)
                    {| pos := 0; rest := trim raw; captures := [] |})
    as [|y l] eqn:E; [reflexivity|].
  exfalso. apply H. apply In_trim.
  assert (Hy : In y (matches false true (Bol >> Opt name_part >> address_part)
                             {| pos := 0; rest := trim raw; captures := [] |}))
    by (rewrite E; now left).
  apply In_matches_Cat in Hy as (st1 & H1 & Hy).
  apply In_matches_Bol in H1 as (_ & _ & ->).
  apply In_matches_Cat in Hy as (st2 & H2 & Hy).
  apply address_part_needs_at in Hy.
  destruct (matches_rest_suffix _ _ _ _ _ H2) as [k Ek].
  apply (In_skipn_In _ k). cbn [rest] in Ek. now rewrite <- Ek.
Qed.

End NamedAddressProperties.

Lemma parseAddress_without_at_witness :
  Parser.parseAddress (lit "  not-an-email ") =
  {| Parser.email := lit "not-an-email"; Parser.name := None |}.
Proof.
  apply (@parseAddress_without_at (lit "  not-an-email ")).
  cbn. intuition discriminate.
Defined.

Lemma parseAddress_formatAddress_named_witness :
  Parser.parseAddress
    (Parser.formatAddress
       {| Parser.email := lit "john" ++ 64%N :: lit "example.com";
          Parser.name := Some (lit "Doe, John") |}) =
  {| Parser.email := lit "john" ++ 64%N :: lit "example.com";
     Parser.name := Some (lit "Doe, John") |}.
Proof.
  apply (@parseAddress_formatAddress_named (lit "Doe, John") (lit "john")
           (lit "example.com")).
  - discriminate.
  - reflexivity.
  - repeat constructor.
  - discriminate.
  - discriminate.
  - repeat constructor.
Defined.

(* ------------------------------------------------------------------ *)
(** ** Addresses in the Gmail package *)

Section GmailAddressProperties.
Import JS RegExp Parser.
Local Open Scope regex_scope.

Lemma none_of_gt_inv :
  forall c, none_of ">" c = true <-> c <> 62%N.
Proof.
  intros c. rewrite none_of_gt, negb_true_iff. apply N.eqb_neq.
Qed.

(** What follows the name group in the pattern of the Gmail package, on
    an address in angle brackets. *)
Lemma first_gmail_tail_bracketed :
  forall b n e caps,
    e <> [] -> Forall (fun c => c <> 62%N) e ->
    hd_error (matches false b
                (Opt (Str (lit "<")) >> Cap 2 (Rep true 1 (none_of ">"))
                 >> Opt (Str (lit ">")) >> Eol)
                {| pos := n; rest := 60%N :: e ++ [62%N]; captures := caps |}) =
    Some {| pos := n + 1 + length e + 1; rest := [];
            captures := (2, e) :: caps |}.
Proof.
  intros b n e caps He Hgt.
  assert (Le : 1 <= length e) by (destruct e; [congruence | cbn; lia]).
  assert (Hrun : run (none_of ">") (e ++ [62%N]) = length e).
  { apply run_stop; [|reflexivity].
    eapply Forall_impl; [|exact Hgt]. intros c. apply none_of_gt_inv. }
  eapply first_Cat.
  { apply first_Opt_taken; [apply first_Str; reflexivity|].
    unfold advance; cbn; lia. }
  change (length (lit "<")) with 1.
  unfold advance; cbn [pos rest captures skipn length].
  eapply first_Cat.
  { apply first_Cap. apply first_Rep_greedy. cbn [rest]. now rewrite Hrun. }
  unfold advance; cbn [pos rest captures skipn length].
  rewrite Hrun, skipn_length_app.
  eapply first_Cat.
  { apply first_Opt_taken; [apply first_Str; reflexivity|].
    unfold advance; cbn; lia. }
  change (length (lit ">")) with 1.
  unfold advance; cbn [pos rest captures skipn length].
  rewrite first_Eol by reflexivity. do 2 f_equal.
  replace (n + 1 + length e - (n + 1)) with (length e) by lia.
  now rewrite firstn_length_app.
Qed.

(** The [parseAddress] of the Gmail package on a quoted name and a
    bracketed email. *)
Lemma gmail_parseAddress_quoted :
  forall nm e,
    nm <> [] -> trim nm = nm ->
    Forall (fun c => name_char c = true) nm ->
    e <> [] -> trim e = e ->
    Forall (fun c => c <> 62%N) e ->
    GmailParser.parseAddress
      (34%N :: nm ++ 34%N :: [32%N] ++ 60%N :: e ++ [62%N]) =
    {| email := e; name := Some nm |}.
Proof.
  intros nm e Hnm Htrim Hname He Hetrim Hgt.
  unfold GmailParser.parseAddress.
  set (F := 34%N :: nm ++ 34%N :: [32%N] ++ 60%N :: e ++ [62%N]).
  assert (Hm : match_at false GmailParser.gmail_address_re true F =
               Some {| pos := 0 + 1 + length nm + 1 + 1 + 1 + length e + 1;
                       rest := [];
                       captures := [(2, e); (1, nm)] |}).
  { unfold match_at, GmailParser.gmail_address_re.
    eapply first_Cat; [reflexivity|].
    eapply first_Cat.
    { apply first_Opt_taken.
      - apply (@first_name_part_quoted true 0 nm [32%N] (60%N :: e ++ [62%N]) []).
        + exact Hname.
        + repeat constructor.
        + reflexivity.
      - cbn [pos]. lia. }
    cbn [length].
    now apply first_gmail_tail_bracketed. }
  unfold exec.
  rewrite (@exec_from_head false GmailParser.gmail_address_re 0 F _ Hm).
  cbn [capture captures find fst snd Nat.eqb option_map].
  rewrite Htrim, Hetrim.
  destruct nm; [congruence | reflexivity].
Qed.

(** The [parseAddress] of the Gmail package reads what [formatAddress]
    writes for an address with a name: the name when it is not empty, has
    no double quote, no [<] and no white space at its ends; the email when
    it is not empty, has no [>] and no white space at its ends. *)
Theorem gmail_parseAddress_formatAddress_named :
  forall nm e,
    nm <> [] -> trim nm = nm ->
    Forall (fun c => name_char c = true) nm ->
    e <> [] -> trim e = e ->
    Forall (fun c => c <> 62%N) e ->
    GmailParser.parseAddress (formatAddress {| email := e; name := Some nm |}) =
    {| email := e; name := Some nm |}.
Proof.
  intros nm e Hnm Htrim Hname He Hetrim Hgt.
  rewrite (formatAddress_named _ Hnm).
  now apply gmail_parseAddress_quoted.
Qed.

(** The end of the name group where there is neither a quote nor white
    space. *)
Lemma matches_name_end :
  forall b st,
    Forall (fun x => x <> 34%N) (rest st) ->
    run space (rest st) = 0 ->
    matches false b (Opt (Str [34%N]) >> Rep true 0 space) st = [advance st 0].
Proof.
  intros b st Hq Hr. rewrite matches_Cat, matches_Opt_absent by exact Hq.
  cbn [flat_map matches]. rewrite Hr. reflexivity.
Qed.

(** The name group tried at its two longest names, on a text without
    quote and [<] that does not end in white space: the whole text, then
    the text without its last character. *)
Lemma matches_name_part_longest :
  forall b init c,
    init <> [] ->
    Forall (fun x => name_char x = true) (init ++ [c]) ->
    isWhiteSpace c = false ->
    exists others,
      matches false b name_part
              {| pos := 0; rest := init ++ [c]; captures := [] |} =
      {| pos := length init + 1 + 0; rest := [];
         captures := [(1, init ++ [c])] |}
      :: {| pos := length init + 0; rest := [c]; captures := [(1, init)] |}
      :: others.
Proof.
  intros b init c Hi Hn Hw.
  assert (Hq : Forall (fun x => x <> 34%N) (init ++ [c])).
  { eapply Forall_impl; [|exact Hn]. intros x Hx ->. discriminate. }
  assert (Hc : c <> 34%N).
  { apply Forall_app in Hq as [_ Hq]. now inversion Hq. }
  unfold name_part. rewrite matches_Cat, matches_Opt_absent by exact Hq.
  cbn [flat_map]. rewrite app_nil_r, matches_Cat.
  change (matches false b (Cap 1 (Rep true 0 name_char)) ?st)
    with (map (fun st' =>
                 {| pos := pos st'; rest := rest st';
                    captures := (1, firstn (pos st' - pos st) (rest st))
                                  :: captures st' |})
              (map (advance st)
                   (rev (seq 0 (S (run name_char (rest st)) - 0))))).
  cbn [rest pos]. rewrite run_whole by exact Hn.
  rewrite Nat.sub_0_r, map_map, length_app. cbn [length].
  replace (length init + 1) with (S (length init)) by lia.
  rewrite !seq_rev_S. cbn [map flat_map].
  unfold advance. cbn [pos rest captures Nat.add].
  rewrite !Nat.sub_0_r.
  replace (S (length init)) with (length (init ++ [c]))
    by (rewrite length_app; cbn [length]; lia).
  rewrite skipn_all, firstn_all, skipn_length_app, firstn_length_app.
  rewrite !matches_name_end by (try (repeat constructor; exact Hc);
                                try reflexivity; cbn [rest run];
                                unfold space; now rewrite Hw).
  unfold advance. cbn [pos rest captures skipn app].
  rewrite length_app. cbn [length].
  eexists. f_equal. f_equal. lia.
Qed.

(** A text without quote and angle bracket, such as a bare address, is
    read by the [parseAddress] of the Gmail package as a name followed by
    a one-letter address: the last character becomes the email and
    everything before it, trimmed, becomes the name. *)
Theorem gmail_parseAddress_bare :
  forall init c,
    init <> [] ->
    Forall (fun x => name_char x = true /\ x <> 62%N) (init ++ [c]) ->
    isWhiteSpace c = false ->
    GmailParser.parseAddress (init ++ [c]) =
    {| email := [c];
       name := if truthy (trim init) then Some (trim init) else None |}.
Proof.
  intros init c Hi Hall Hw.
  assert (Hn : Forall (fun x => name_char x = true) (init ++ [c]))
    by (eapply Forall_impl; [|exact Hall]; now intros x [H _]).
  assert (Hc : name_char c = true /\ c <> 62%N).
  { apply Forall_app in Hall as [_ H]. now inversion H. }
  destruct Hc as [Hcn Hc62].
  assert (Hc60 : c <> 60%N) by (intros ->; discriminate).
  destruct (@matches_name_part_longest true init c Hi Hn Hw) as [others Hnp].
  assert (Li : 1 <= length init) by (destruct init; [congruence | cbn; lia]).
  assert (Hm : match_at false GmailParser.gmail_address_re true (init ++ [c]) =
               Some {| pos := length init + 0 + 1; rest := [];
                       captures := [(2, [c]); (1, init)] |}).
  { unfold match_at, GmailParser.gmail_address_re.
    eapply first_Cat; [reflexivity|].
    rewrite matches_Cat.
    change (matches false true (Opt name_part) ?st)
      with (filter (fun st' => negb (Nat.eqb (pos st') (pos st)))
                   (matches false true name_part st) ++ [st]).
    rewrite Hnp. cbn [filter pos].
    replace (Nat.eqb (length init + 1 + 0) 0) with false
      by (symmetry; apply Nat.eqb_neq; lia).
    replace (Nat.eqb (length init + 0) 0) with false
      by (symmetry; apply Nat.eqb_neq; lia).
    cbn [negb app]. rewrite hd_error_flat_map_cons.
    replace (matches false true _ {| pos := length init + 1 + 0; rest := [];
                                     captures := [(1, init ++ [c])] |})
      with (@nil state) by reflexivity.
    cbn [hd_error]. rewrite hd_error_flat_map_cons.
    replace (hd_error (matches false true _
                         {| pos := length init + 0; rest := [c];
                            captures := [(1, init)] |}))
      with (Some {| pos := length init + 0 + 1; rest := [];
                    captures := [(2, [c]); (1, init)] |}); [reflexivity|].
    symmetry. rewrite matches_Cat. change (lit "<") with [60%N].
    rewrite matches_Opt_absent by (repeat constructor; exact Hc60).
    cbn [flat_map]. rewrite app_nil_r.
    eapply first_Cat.
    { apply first_Cap. apply first_Rep_greedy. cbn [rest run].
      rewrite (proj2 (none_of_gt_inv c) Hc62). lia. }
    cbn [rest run]. rewrite (proj2 (none_of_gt_inv c) Hc62).
    unfold advance; cbn [pos rest captures skipn].
    rewrite matches_Cat. change (lit ">") with [62%N].
    rewrite matches_Opt_absent by constructor.
    cbn [flat_map matches rest app hd_error]. do 3 f_equal.
    replace (length init + 0 + 1 - (length init + 0)) with 1 by lia.
    reflexivity. }
  unfold GmailParser.parseAddress, exec.
  rewrite (@exec_from_head false GmailParser.gmail_address_re 0 _ _ Hm).
  cbn [capture captures find fst snd Nat.eqb option_map].
  rewrite (@trim_id [c]) by (repeat constructor; exact Hw).
  reflexivity.
Qed.

End GmailAddressProperties.

Lemma gmail_parseAddress_formatAddress_named_witness :
  GmailParser.parseAddress (Parser.formatAddress named_address) = named_address.
Proof.
  apply (@gmail_parseAddress_formatAddress_named (lit "John Doe")
           (lit "john@example.com")).
  - discriminate.
  - reflexivity.
  - repeat constructor.
  - discriminate.
  - reflexivity.
  - repeat constructor; discriminate.
Defined.

Lemma gmail_parseAddress_bare_witness :
  GmailParser.parseAddress (lit "user@example.co" ++ [109%N]) =
  {| Parser.email := [109%N]; Parser.name := Some (lit "user@example.co") |}.
Proof.
  apply (@gmail_parseAddress_bare (lit "user@example.co") 109%N).
  - discriminate.
  - repeat constructor; discriminate.
  - reflexivity.
Defined.

Lemma bare_address_not_restored_witness :
  Parser.parseAddress
    (Parser.formatAddress
       {| Parser.email := lit "jo" ++ 101%N :: 64%N :: lit "mail.example";
          Parser.name := None |}) =
  {| Parser.email := 101%N :: 64%N :: lit "mail.example";
     Parser.name := Some (lit "jo") |}.
Proof.
  apply (@bare_address_not_restored (lit "jo") 101%N (lit "mail.example")).
  - discriminate.
  - discriminate.
  - repeat constructor.
Defined.

(* ------------------------------------------------------------------ *)
(** ** Valid addresses and domains *)

Section ValidEmailProperties.
Import JS RegExp Parser.
Local Open Scope regex_scope.

Lemma starts_with_char :
  forall c t, starts_with false [c] t = true <-> exists u, t = c :: u.
Proof.
  intros c t. destruct t as [|x u]; cbn [starts_with char_eqb].
  - split; [discriminate | intros [u H]; discriminate].
  - rewrite andb_true_r, N.eqb_eq. split.
    + intros ->. now exists u.
    + now intros [u' [= <- _]].
Qed.

Lemma skipn_cons_split :
  forall (A : Type) k (t : list A) c u,
    skipn k t = c :: u -> t = firstn k t ++ c :: u.
Proof. intros A k t c u H. rewrite <- H. symmetry. apply firstn_skipn. Qed.

Lemma nonempty_length : forall (A : Type) (l : list A), l <> [] <-> 1 <= length l.
Proof.
  intros A [|x l]; cbn [length]; split; intros H; try congruence; lia.
Qed.

Lemma hd_error_In :
  forall (A : Type) (l : list A),
    (exists y, hd_error l = Some y) <-> (exists y, In y l).
Proof.
  intros A [|x l]; split; intros [y H]; try discriminate; try destruct H.
  - exists x. now left.
  - now exists x.
  - now exists x.
Qed.

(** [isValidEmail] accepts exactly the texts made of a local part, [@], a
    domain, a dot and a last label, all three non-empty and without white
    space and [@]. The domain and the last label may hold further dots;
    nothing else is required of the characters. *)
Theorem isValidEmail_exactly :
  forall s,
    isValidEmail s = true <->
    exists l d t,
      s = l ++ 64%N :: d ++ 46%N :: t
      /\ l <> [] /\ d <> [] /\ t <> []
      /\ Forall (fun c => email_char c = true) (l ++ d ++ t).
Proof.
  intros s. unfold isValidEmail, test, valid_email_re. rewrite exec_Bol.
  unfold match_at.
  set (st0 := {| pos := 0; rest := s; captures := [] |}).
  transitivity (exists y, In y (matches false true
                  (Bol >> Rep true 1 email_char >> Str (lit "@")
                   >> Rep true 1 email_char >> Str (lit ".")
                   >> Rep true 1 email_char >> Eol) st0)).
  { rewrite <- hd_error_In.
    destruct (hd_error _) as [y|]; split; try discriminate; try reflexivity.
    - intros _. now exists y.
    - intros [y H]. discriminate. }
  change (lit "@") with [64%N]. change (lit ".") with [46%N].
  split.
  - intros (y & H).
    apply In_matches_Cat in H as (s1 & H1 & H).
    apply In_matches_Bol in H1 as (_ & _ & ->).
    apply In_matches_Cat in H as (s2 & H2 & H).
    apply In_matches_Rep in H2 as (k1 & Hk1 & ->).
    apply In_matches_Cat in H as (s3 & H3 & H).
    apply In_matches_Str in H3 as (H3 & ->).
    apply In_matches_Cat in H as (s4 & H4 & H).
    apply In_matches_Rep in H4 as (k2 & Hk2 & ->).
    apply In_matches_Cat in H as (s5 & H5 & H).
    apply In_matches_Str in H5 as (H5 & ->).
    apply In_matches_Cat in H as (s6 & H6 & H).
    apply In_matches_Rep in H6 as (k3 & Hk3 & ->).
    apply In_matches_Eol in H as (H & _).
    unfold advance in *. cbn [pos rest captures length st0] in *.
    apply starts_with_char in H3 as [u1 E1].
    rewrite E1 in *. cbn [skipn] in *.
    apply starts_with_char in H5 as [u2 E2].
    rewrite E2 in *. cbn [skipn] in *.
    destruct (@run_prefix email_char s k1) as [F1 L1]; [lia|].
    destruct (@run_prefix email_char u1 k2) as [F2 L2]; [lia|].
    destruct (@run_prefix email_char u2 k3) as [F3 L3]; [lia|].
    exists (firstn k1 s), (firstn k2 u1), (firstn k3 u2).
    assert (E3 : u2 = firstn k3 u2).
    { rewrite <- (firstn_skipn k3 u2) at 1. rewrite H. apply app_nil_r. }
    split.
    { rewrite (@skipn_cons_split _ k1 s _ _ E1) at 1. do 2 f_equal.
      rewrite (@skipn_cons_split _ k2 u1 _ _ E2) at 1. now rewrite <- E3. }
    repeat split.
    + apply nonempty_length. lia.
    + apply nonempty_length. lia.
    + apply nonempty_length. lia.
    + apply Forall_app. split; [exact F1|].
      apply Forall_app. now split.
  - intros (l & d & t & -> & Hl & Hd & Ht & Hall).
    apply Forall_app in Hall as [Fl Hall]. apply Forall_app in Hall as [Fd Ft].
    apply nonempty_length in Hl, Hd, Ht.
    eexists.
    apply In_matches_Cat. eexists. split.
    { apply In_matches_Bol. repeat split. }
    apply In_matches_Cat. eexists. split.
    { apply In_matches_Rep. exists (length l). split; [|reflexivity].
      split; [exact Hl|]. cbn [rest st0]. now apply run_app_le. }
    unfold advance. cbn [pos rest captures st0]. rewrite skipn_length_app.
    apply In_matches_Cat. eexists. split.
    { apply In_matches_Str. split; reflexivity. }
    unfold advance. cbn [pos rest captures skipn length].
    apply In_matches_Cat. eexists. split.
    { apply In_matches_Rep. exists (length d). split; [|reflexivity].
      split; [exact Hd|]. cbn [rest]. now apply run_app_le. }
    unfold advance. cbn [pos rest captures]. rewrite skipn_length_app.
    apply In_matches_Cat. eexists. split.
    { apply In_matches_Str. split; reflexivity. }
    unfold advance. cbn [pos rest captures skipn length].
    apply In_matches_Cat. eexists. split.
    { apply In_matches_Rep. exists (length t). split; [|reflexivity].
      split; [exact Ht|]. cbn [rest].
      rewrite <- (app_nil_r t) at 2. now apply run_app_le. }
    unfold advance. cbn [pos rest captures]. rewrite skipn_all.
    apply In_matches_Eol. split; reflexivity.
Qed.

Lemma no_matches :
  forall (l : list state), (forall y, ~ In y l) -> l = [].
Proof.
  intros [|x l] H; [reflexivity|]. exfalso. apply (H x). now left.
Qed.

Lemma run_lt_length :
  forall (p : class) t c, In c t -> p c = false -> run p t < length t.
Proof.
  intros p. induction t as [|x t IH]; intros c Hin Hc; [destruct Hin|].
  cbn [run length]. destruct (p x) eqn:Hx; [|lia].
  destruct Hin as [->|Hin]; [congruence|]. specialize (IH c Hin Hc). lia.
Qed.

Lemma none_of_at : forall c, none_of "@" c = negb (N.eqb c 64).
Proof. intros c. unfold none_of. cbn. now rewrite orb_false_r. Qed.

(** The pattern of [getEmailDomain] does not match at a position that has
    an [@] further on. *)
Lemma domain_re_fails_before :
  forall b x t, In 64%N t -> match_at false domain_re b (x :: t) = None.
Proof.
  intros b x t Hin. unfold match_at.
  rewrite (@no_matches (matches false b domain_re _)); [reflexivity|].
  intros y H. unfold domain_re in H. change (lit "@") with [64%N] in H.
  apply In_matches_Cat in H as (s1 & H1 & H).
  apply In_matches_Str in H1 as (_ & ->).
  apply In_matches_Cat in H as (s2 & H2 & H).
  apply In_matches_Cap in H2 as (s3 & H3 & ->).
  apply In_matches_Rep in H3 as (k & Hk & ->).
  apply In_matches_Eol in H as (H & _).
  unfold advance in *. cbn [pos rest captures length skipn] in *.
  assert (Hlt : run (none_of "@") t < length t).
  { apply (@run_lt_length _ t 64%N Hin). reflexivity. }
  assert (Hlen : length (skipn k t) = length t - k) by apply length_skipn.
  rewrite H in Hlen. cbn [length] in Hlen. lia.
Qed.

Lemma exec_from_domain_skip :
  forall pre i u,
    In 64%N u ->
    exec_from false domain_re i (pre ++ u) =
    exec_from false domain_re (i + length pre) u.
Proof.
  induction pre as [|x pre IH]; intros i u Hu.
  - cbn [app length]. now rewrite Nat.add_0_r.
  - cbn [app exec_from length].
    rewrite domain_re_fails_before by (apply in_or_app; now right).
    rewrite IH by exact Hu. f_equal. lia.
Qed.

Lemma exec_from_domain_none :
  forall s i, ~ In 64%N s -> exec_from false domain_re i s = None.
Proof.
  induction s as [|x s IH]; intros i H.
  - reflexivity.
  - cbn [exec_from]. unfold domain_re at 1.
    rewrite match_at_absent.
    + apply IH. intros Hin. apply H. now right.
    + change (lit "@") with [64%N]. cbn [starts_with char_eqb].
      replace (N.eqb 64 x) with false; [reflexivity|].
      symmetry. apply N.eqb_neq. intros <-. apply H. now left.
Qed.

(** [getEmailDomain] returns what follows the last [@] of the text, and
    [null] when the text has no [@] or ends with one. *)
Theorem getEmailDomain_after_last_at :
  (forall pre d,
      d <> [] -> ~ In 64%N d ->
      getEmailDomain (pre ++ 64%N :: d) = Some d)
  /\ (forall s, ~ In 64%N s -> getEmailDomain s = None)
  /\ (forall pre, getEmailDomain (pre ++ [64%N]) = None).
Proof.
  split; [|split].
  - intros pre d Hd Hno. unfold getEmailDomain, exec.
    rewrite exec_from_domain_skip by now left.
    apply nonempty_length in Hd.
    assert (Hrun : run (none_of "@") d = length d).
    { apply run_whole. apply Forall_forall. intros c Hc.
      rewrite none_of_at. apply negb_true_iff, N.eqb_neq.
      intros ->. contradiction. }
    assert (Hm : match_at false domain_re (Nat.eqb (0 + length pre) 0) (64%N :: d) =
                 Some {| pos := 0 + 1 + length d; rest := [];
                         captures := [(1, d)] |}).
    { unfold match_at, domain_re.
      eapply first_Cat; [apply first_Str; reflexivity|].
      change (length (lit "@")) with 1.
      unfold advance; cbn [pos rest captures skipn].
      eapply first_Cat.
      { apply first_Cap. apply first_Rep_greedy. cbn [rest]. lia. }
      unfold advance; cbn [pos rest captures].
      rewrite Hrun, skipn_all, first_Eol by reflexivity.
      do 3 f_equal. replace (0 + 1 + length d - (0 + 1)) with (length d) by lia.
      now rewrite firstn_all. }
    now rewrite (@exec_from_head false domain_re _ _ _ Hm).
  - intros s H. unfold getEmailDomain, exec.
    now rewrite exec_from_domain_none.
  - intros pre. unfold getEmailDomain, exec.
    rewrite exec_from_domain_skip by now left.
    cbn [exec_from].
    replace (match_at false domain_re _ [64%N]) with (@None state) by reflexivity.
    reflexivity.
Qed.

Lemma getEmailDomain_after_last_at_witness :
  getEmailDomain (lit "a@b" ++ 64%N :: lit "mail.example.com") =
  Some (lit "mail.example.com").
Proof.
  apply (proj1 getEmailDomain_after_last_at (lit "a@b") (lit "mail.example.com")).
  - discriminate.
  - vm_compute. intuition discriminate.
Defined.

End ValidEmailProperties.

(* ------------------------------------------------------------------ *)
(** ** The shape of the text [htmlToText] returns *)

Section TextShapeProperties.
Import JS RegExp Parser.
Local Open Scope regex_scope.

Let nl : class := fun c => (c =? 10)%N.
Let collapse (b : bool) (x : jsstring) : jsstring :=
  replace_from false (Rep true 3 nl) (const (newline ++ newline)) b 0 x.

Lemma run_skipn_run : forall (p : class) t, run p (skipn (run p t) t) = 0.
Proof.
  intros p. induction t as [|c t IH]; [reflexivity|].
  cbn [run]. destruct (p c) eqn:E; cbn [skipn]; [exact IH|].
  cbn [run]. now rewrite E.
Qed.

Lemma run_le_length : forall (p : class) t, run p t <= length t.
Proof.
  intros p. induction t as [|c t IH]; [reflexivity|].
  cbn [run length]. destruct (p c); lia.
Qed.

Lemma match_at_newlines :
  forall b x,
    match_at false (Rep true 3 nl) b x =
    if 3 <=? run nl x
    then Some {| pos := 0 + run nl x; rest := skipn (run nl x) x; captures := [] |}
    else None.
Proof.
  intros b x. unfold match_at. destruct (Nat.leb_spec 3 (run nl x)) as [H|H].
  - now rewrite first_Rep_greedy.
  - cbn [matches rest]. replace (S (run nl x) - 3) with 0 by lia. reflexivity.
Qed.

Lemma collapse_cons_short :
  forall b c x,
    run nl (c :: x) < 3 -> collapse b (c :: x) = c :: collapse false x.
Proof.
  intros b c x H. unfold collapse. cbn [replace_from].
  rewrite match_at_newlines.
  replace (3 <=? run nl (c :: x)) with false
    by (symmetry; apply Nat.leb_gt; exact H).
  reflexivity.
Qed.

Lemma collapse_long :
  forall b x,
    3 <= run nl x ->
    collapse b x = 10%N :: 10%N :: collapse false (skipn (run nl x) x).
Proof.
  intros b x H. unfold collapse.
  destruct x as [|c x]; [cbn [run] in H; lia|].
  cbn [replace_from]. rewrite match_at_newlines.
  replace (3 <=? run nl (c :: x)) with true by (symmetry; now apply Nat.leb_le).
  cbn [pos Nat.add const newline app].
  destruct (run nl (c :: x)) as [|k] eqn:E; [lia|].
  cbn [skipn]. do 2 f_equal.
  assert (Hk : k <= length x).
  { pose proof (run_le_length nl (c :: x)) as L. rewrite E in L.
    cbn [length] in L. lia. }
  rewrite <- (firstn_skipn k x) at 1.
  replace k with (length (firstn k x)) at 1
    by (rewrite length_firstn; lia).
  now apply replace_from_skip.
Qed.

Lemma collapse_nil : forall b, collapse b [] = [].
Proof. reflexivity. Qed.

(** After the collapse every run of line feeds has at most two. *)
Lemma collapse_runs :
  forall n x b,
    length x <= n ->
    run nl (collapse b x) = Nat.min (run nl x) 2
    /\ forall k, run nl (skipn k (collapse b x)) <= 2.
Proof.
  induction n as [|n IH]; intros x b Hn.
  - destruct x; [|cbn [length] in Hn; lia].
    rewrite collapse_nil.
    split; [reflexivity|]. intros k. rewrite skipn_nil. cbn; lia.
  - destruct (Nat.leb_spec 3 (run nl x)) as [H|H].
    + rewrite collapse_long by exact H.
      assert (Hlen : length (skipn (run nl x) x) <= n)
        by (rewrite length_skipn; lia).
      destruct (IH (skipn (run nl x) x) false Hlen) as [H1 H2].
      rewrite run_skipn_run in H1. cbn [Nat.min] in H1.
      split.
      * change (run nl (10%N :: 10%N :: ?t)) with (S (S (run nl t))).
        rewrite H1. lia.
      * intros [|[|k]]; cbn [skipn].
        -- change (run nl (10%N :: 10%N :: ?t)) with (S (S (run nl t))).
           rewrite H1. lia.
        -- change (run nl (10%N :: ?t)) with (S (run nl t)).
           rewrite H1. lia.
        -- apply H2.
    + destruct x as [|c x];
        [rewrite collapse_nil; split; [reflexivity|]; intros k;
         rewrite skipn_nil; cbn; lia|].
      rewrite collapse_cons_short by exact H.
      cbn [length] in Hn.
      destruct (IH x false) as [H1 H2]; [lia|].
      split.
      * cbn [run] in *. destruct (nl c); [|reflexivity]. rewrite H1. lia.
      * intros [|k]; cbn [skipn]; [|apply H2].
        cbn [run] in *. destruct (nl c); [|lia]. rewrite H1. lia.
Qed.

Lemma trimStart_head :
  forall s, match trimStart s with
            | c :: _ => isWhiteSpace c = false
            | [] => True
            end.
Proof.
  induction s as [|c s IH]; [exact I|].
  cbn [trimStart]. destruct (isWhiteSpace c) eqn:E; [exact IH | exact E].
Qed.

Lemma trimEnd_prefix :
  forall s, exists b, s = trimEnd s ++ b.
Proof.
  intros s. unfold trimEnd.
  destruct (trimStart_suffix (rev s)) as [a Ea].
  exists (rev a). rewrite <- rev_app_distr, <- Ea. symmetry.
  apply rev_involutive.
Qed.

Lemma trim_substring :
  forall s, exists a b, s = a ++ trim s ++ b.
Proof.
  intros s. unfold trim.
  destruct (trimStart_suffix s) as [a Ea].
  destruct (trimEnd_prefix (trimStart s)) as [b Eb].
  exists a, b. now rewrite <- Eb.
Qed.

Lemma trim_trimmed :
  forall s,
    match trim s with c :: _ => isWhiteSpace c = false | [] => True end
    /\ match rev (trim s) with c :: _ => isWhiteSpace c = false | [] => True end.
Proof.
  intros s. split.
  - unfold trim. destruct (trimEnd_prefix (trimStart s)) as [b Eb].
    pose proof (trimStart_head s) as Hh.
    destruct (trimEnd (trimStart s)) as [|c t]; [exact I|].
    rewrite Eb in Hh. exact Hh.
  - unfold trim, trimEnd. rewrite rev_involutive. apply trimStart_head.
Qed.

Lemma run_three :
  forall pre post,
    run nl (skipn (length pre) (pre ++ [10; 10; 10]%N ++ post)) >= 3.
Proof.
  intros pre post. rewrite skipn_length_app.
  change (run nl ([10; 10; 10]%N ++ post)) with (S (S (S (run nl post)))). lia.
Qed.

(** The text [htmlToText] returns never holds three line feeds in a row
    and has no white space at its ends, whatever the input. *)
Theorem htmlToText_shape :
  forall html,
    (forall pre post, htmlToText html <> pre ++ [10; 10; 10]%N ++ post)
    /\ match htmlToText html with
       | c :: _ => isWhiteSpace c = false
       | [] => True
       end
    /\ match rev (htmlToText html) with
       | c :: _ => isWhiteSpace c = false
       | [] => True
       end.
Proof.
  intros html. unfold htmlToText. cbv zeta.
  match goal with
  | |- context [trim (replace_all false ?r ?f ?x)] =>
      change (replace_all false r f x) with (collapse true x);
      generalize x
  end.
  intros x. split; [|apply trim_trimmed].
  intros pre post E.
  destruct (trim_substring (collapse true x)) as (a & b & Hab).
  rewrite E in Hab.
  destruct (@collapse_runs (length x) x true (le_n _)) as [_ Hruns].
  specialize (Hruns (length (a ++ pre))).
  replace (collapse true x)
    with ((a ++ pre) ++ [10; 10; 10]%N ++ (post ++ b)) in Hruns.
  - pose proof (run_three (a ++ pre) (post ++ b)). lia.
  - rewrite Hab. rewrite <- !app_assoc. reflexivity.
Qed.

End TextShapeProperties.

(* ------------------------------------------------------------------ *)
(** ** Plain text through [htmlToText] *)

Section PlainTextProperties.
Import JS RegExp Parser.
Local Open Scope regex_scope.

(** A character below the letters equals, with or without the [i] flag,
    only itself. *)
Lemma char_eqb_below_letters :
  forall ic c y, (c <? 65)%N = true -> char_eqb ic c y = true -> y = c.
Proof.
  intros ic c y Hc H. apply N.ltb_lt in Hc. unfold char_eqb in H.
  destruct ic; apply N.eqb_eq in H; [|congruence].
  unfold canonicalize in H.
  destruct ((97 <=? c) && (c <=? 122))%N eqn:Ec.
  { apply andb_true_iff in Ec as [Ec _]. apply N.leb_le in Ec. lia. }
  destruct ((97 <=? y) && (y <=? 122))%N eqn:Ey; [|congruence].
  apply andb_true_iff in Ey as [E1 E2].
  apply N.leb_le in E1. apply N.leb_le in E2. lia.
Qed.

Lemma starts_with_lacking :
  forall ic c p t,
    (c <? 65)%N = true -> lacks c t = true ->
    starts_with ic (c :: p) t = false.
Proof.
  intros ic c p [|y t] Hc H; [reflexivity|].
  cbn [starts_with]. cbn [lacks forallb] in H.
  apply andb_true_iff in H as [Hy _]. apply negb_true_iff in Hy.
  destruct (char_eqb ic c y) eqn:E; [|reflexivity].
  apply (@char_eqb_below_letters ic c y Hc) in E. subst y.
  now rewrite N.eqb_refl in Hy.
Qed.

(** A replacement whose pattern matches nowhere changes nothing. *)
Lemma replace_from_unmatched :
  forall ic r f s b,
    (forall b' k, match_at ic r b' (skipn k s) = None) ->
    replace_from ic r f b 0 s = s.
Proof.
  intros ic r f. induction s as [|c s IH]; intros b H; cbn [replace_from].
  - pose proof (H b 0) as H0. cbn [skipn] in H0. now rewrite H0.
  - pose proof (H b 0) as H0. cbn [skipn] in H0. rewrite H0.
    f_equal. apply IH. intros b' k. apply (H b' (S k)).
Qed.

Lemma lacks_skipn :
  forall c k s, lacks c s = true -> lacks c (skipn k s) = true.
Proof.
  intros c. induction k as [|k IH]; intros [|x s] H; try assumption.
  cbn [skipn]. apply IH. cbn [lacks forallb] in H.
  now apply andb_true_iff in H as [_ H].
Qed.

Lemma replace_all_lacking :
  forall ic c p f s,
    (c <? 65)%N = true -> lacks c s = true ->
    replace_all ic (Str (c :: p)) f s = s.
Proof.
  intros ic c p f s Hc H. apply replace_from_unmatched. intros b k.
  unfold match_at. cbn [matches rest].
  now rewrite (@starts_with_lacking ic c p _ Hc (@lacks_skipn c k s H)).
Qed.

Lemma replace_all_lacking_first :
  forall ic c p r f s,
    (c <? 65)%N = true -> lacks c s = true ->
    replace_all ic (Str (c :: p) >> r) f s = s.
Proof.
  intros ic c p r f s Hc H. apply replace_from_unmatched. intros b k.
  apply match_at_absent.
  exact (@starts_with_lacking ic c p _ Hc (@lacks_skipn c k s H)).
Qed.

Lemma calm_skipn :
  forall k s, calm s = true -> calm (skipn k s) = true.
Proof.
  induction k as [|k IH]; intros [|x s] H; try assumption.
  cbn [skipn]. apply IH. cbn [calm] in H.
  now apply andb_true_iff in H as [_ H].
Qed.

Lemma replace_all_calm :
  forall f s,
    calm s = true ->
    replace_all false (Rep true 3 (fun c => (c =? 10)%N)) f s = s.
Proof.
  intros f s H. apply replace_from_unmatched. intros b k.
  pose proof (@calm_skipn k s H) as Hk.
  assert (Hr : run (fun c => (c =? 10)%N) (skipn k s) < 3).
  { destruct (skipn k s); cbn [calm] in Hk;
      apply andb_true_iff in Hk as [Hk _]; now apply Nat.ltb_lt in Hk. }
  unfold match_at. cbn [matches rest].
  replace (S (run (fun c => (c =? 10)%N) (skipn k s)) - 3) with 0 by lia.
  reflexivity.
Qed.

(** A text without [<] and [&], without three line feeds in a row and
    without white space at its ends goes through [htmlToText] unchanged. *)
Theorem htmlToText_plain_text :
  forall s, plain_text s = true -> htmlToText s = s.
Proof.
  intros s H. unfold plain_text in H.
  apply andb_true_iff in H as [H Htrim].
  apply andb_true_iff in H as [H Hcalm].
  apply andb_true_iff in H as [Hlt Hamp].
  apply jseqb_eq in Htrim.
  unfold htmlToText. cbv zeta. unfold block_re.
  rewrite (@replace_all_lacking_first true 60 (lit "style") _ _ s eq_refl Hlt).
  rewrite (@replace_all_lacking_first true 60 (lit "script") _ _ s eq_refl Hlt).
  rewrite (@replace_all_lacking_first true 60 (lit "br") _ _ s eq_refl Hlt).
  rewrite (@replace_all_lacking true 60 (lit "/p>") _ s eq_refl Hlt).
  rewrite (@replace_all_lacking true 60 (lit "/div>") _ s eq_refl Hlt).
  rewrite (@replace_all_lacking true 60 (lit "/li>") _ s eq_refl Hlt).
  rewrite (@replace_all_lacking_first true 60 (lit "li") _ _ s eq_refl Hlt).
  rewrite (@replace_all_lacking_first false 60 [] _ _ s eq_refl Hlt).
  rewrite (@replace_all_lacking false 38 (lit "nbsp;") _ s eq_refl Hamp).
  rewrite (@replace_all_lacking false 38 (lit "amp;") _ s eq_refl Hamp).
  rewrite (@replace_all_lacking false 38 (lit "lt;") _ s eq_refl Hamp).
  rewrite (@replace_all_lacking false 38 (lit "gt;") _ s eq_refl Hamp).
  rewrite (@replace_all_lacking false 38 (lit "quot;") _ s eq_refl Hamp).
  rewrite (@replace_all_lacking_first false 38 (lit "#") _ _ s eq_refl Hamp).
  rewrite (@replace_all_calm _ s Hcalm).
  exact Htrim.
Qed.

Lemma htmlToText_plain_text_witness :
  htmlToText (lit "Dear all," ++ [10; 10]%N ++ lit "2 > 1; see you at 5 pm")
  = lit "Dear all," ++ [10; 10]%N ++ lit "2 > 1; see you at 5 pm".
Proof.
  apply (@htmlToText_plain_text
           (lit "Dear all," ++ [10; 10]%N ++ lit "2 > 1; see you at 5 pm")).
  reflexivity.
Defined.

End PlainTextProperties.

(* ------------------------------------------------------------------ *)
(** ** Quoted-printable *)

Section QuotedPrintableProperties.
Import JS RegExp Parser.
Local Open Scope regex_scope.

Lemma hex_digit_inv :
  forall x,
    hex_digit x = true ->
    exists v, hexval x = Some v /\ (v < 16)%N
              /\ (N.eqb 61 x = false /\ N.eqb 13 x = false /\ N.eqb 10 x = false)
              /\ isWhiteSpace x = false
              /\ (N.eqb x 45 = false /\ N.eqb x 43 = false
                  /\ N.eqb x 120 = false /\ N.eqb x 88 = false).
Proof.
  intros x H. unfold hex_digit in H.
  destruct (hexval x) as [v|] eqn:E; [|discriminate].
  exists v. split; [reflexivity|].
  unfold hexval in E. unfold isWhiteSpace.
  destruct ((48 <=? x) && (x <=? 57))%N eqn:E1.
  { apply andb_true_iff in E1 as [A B]. apply N.leb_le in A, B.
    injection E as <-. repeat split; ncases; try reflexivity; lia. }
  destruct ((65 <=? x) && (x <=? 70))%N eqn:E2.
  { apply andb_true_iff in E2 as [A B]. apply N.leb_le in A, B.
    injection E as <-. repeat split; ncases; try reflexivity; lia. }
  destruct ((97 <=? x) && (x <=? 102))%N eqn:E3; [|discriminate].
  apply andb_true_iff in E3 as [A B]. apply N.leb_le in A, B.
  injection E as <-. repeat split; ncases; try reflexivity; lia.
Qed.

Lemma parseInt16_two_digits :
  forall x y v,
    hex_digit x = true -> hex_digit y = true -> hex2 x y = Some v ->
    fromCharCode (parseInt16 [x; y]) = [v].
Proof.
  intros x y v Hx Hy Hv.
  destruct (hex_digit_inv x Hx) as (vx & Ex & Lx & _ & Wx & (X45 & X43 & _)).
  destruct (hex_digit_inv y Hy) as (vy & Ey & Ly & _ & _ & (_ & _ & Y120 & Y88)).
  unfold hex2 in Hv. rewrite Ex, Ey in Hv. injection Hv as <-.
  unfold parseInt16. cbn [trimStart]. rewrite Wx, X45, X43, Y120, Y88.
  rewrite andb_false_r. cbn [hex_digits_value]. rewrite Ex, Ey.
  rewrite round_double_exact by lia.
  cbn [fromCharCode]. f_equal.
  rewrite Z.mod_small by lia. lia.
Qed.

Lemma match_at_soft_break_lit :
  forall b c t,
    N.eqb c 61 = false -> match_at false soft_break b (c :: t) = None.
Proof.
  intros b c t H. unfold soft_break. apply match_at_absent.
  change (lit "=") with [61%N]. cbn [starts_with char_eqb].
  now rewrite N.eqb_sym, H.
Qed.

Lemma match_at_soft_break_esc :
  forall b x t,
    hex_digit x = true -> match_at false soft_break b (61%N :: x :: t) = None.
Proof.
  intros b x t Hx.
  destruct (hex_digit_inv x Hx) as (_ & _ & _ & (_ & X13 & X10) & _).
  unfold match_at.
  rewrite (@no_matches (matches false b soft_break _)); [reflexivity|].
  intros y H. unfold soft_break in H. change (lit "=") with [61%N] in H.
  apply In_matches_Cat in H as (s1 & H1 & H).
  apply In_matches_Str in H1 as (_ & ->).
  apply In_matches_Cat in H as (s2 & H2 & H).
  apply In_matches_Str in H as (H & _).
  unfold advance in *. cbn [pos rest captures length skipn] in *.
  apply In_matches_Opt in H2 as [[H2 _] | ->].
  - apply In_matches_Str in H2 as (H2 & _).
    cbn [rest starts_with char_eqb] in H2. now rewrite X13 in H2.
  - cbn [rest starts_with char_eqb] in H. now rewrite X10 in H.
Qed.

Lemma hex_digit_not_equals :
  forall x, hex_digit x = true -> N.eqb x 61 = false.
Proof.
  intros x Hx. destruct (hex_digit_inv x Hx) as (_ & _ & _ & (X & _) & _).
  now rewrite N.eqb_sym.
Qed.

Lemma soft_breaks_removed :
  forall l b,
    forallb qp_item_ok l = true ->
    replace_from false soft_break (const []) b 0 (flat_map qp_render l) =
    flat_map qp_render (filter (fun i => negb (qp_soft i)) l).
Proof.
  induction l as [|i l IH]; intros b Hok; [reflexivity|].
  cbn [forallb] in Hok. apply andb_true_iff in Hok as [Hi Hl].
  destruct i as [c|x y|[|]]; cbn [flat_map qp_render filter qp_soft negb app].
  - cbn [qp_item_ok] in Hi. apply negb_true_iff in Hi.
    cbn [replace_from]. rewrite match_at_soft_break_lit by exact Hi.
    now rewrite IH.
  - cbn [qp_item_ok] in Hi. apply andb_true_iff in Hi as [Hx Hy].
    cbn [replace_from]. rewrite match_at_soft_break_esc by exact Hx.
    rewrite !match_at_soft_break_lit by now apply hex_digit_not_equals.
    now rewrite IH.
  - cbn [replace_from].
    replace (match_at false soft_break b (61%N :: 13%N :: 10%N :: flat_map qp_render l))
      with (Some {| pos := 3; rest := flat_map qp_render l; captures := [] |})
      by reflexivity.
    cbn [const pos app]. now apply IH.
  - cbn [replace_from].
    replace (match_at false soft_break b (61%N :: 10%N :: flat_map qp_render l))
      with (Some {| pos := 2; rest := flat_map qp_render l; captures := [] |})
      by reflexivity.
    cbn [const pos app]. now apply IH.
Qed.

Lemma first_Set :
  forall ic b (p : class) st c t,
    rest st = c :: t -> p c = true ->
    hd_error (matches ic b (Set_ p) st) = Some (advance st 1).
Proof.
  intros ic b p st c t E Hc. cbn [matches]. now rewrite E, Hc.
Qed.

Lemma match_at_escaped_octet :
  forall b x y t,
    hex_digit x = true -> hex_digit y = true ->
    match_at false escaped_octet b (61%N :: x :: y :: t) =
    Some {| pos := 3; rest := t; captures := [(1, [x; y])] |}.
Proof.
  intros b x y t Hx Hy. unfold match_at, escaped_octet.
  eapply first_Cat; [apply first_Str; reflexivity|].
  change (length (lit "=")) with 1.
  unfold advance; cbn [pos rest captures skipn Nat.add].
  rewrite (@first_Cap false b 1 _ _ {| pos := 3; rest := t; captures := [] |});
    [reflexivity|].
  eapply first_Cat.
  - eapply first_Set; [reflexivity | exact Hx].
  - unfold advance; cbn [pos rest captures skipn].
    erewrite first_Set; [reflexivity | reflexivity | exact Hy].
Qed.

Lemma octets_decoded :
  forall l b,
    forallb qp_item_ok l = true ->
    forallb (fun i => negb (qp_soft i)) l = true ->
    replace_from false escaped_octet char_of_hex b 0 (flat_map qp_render l) =
    flat_map qp_value l.
Proof.
  induction l as [|i l IH]; intros b Hok Hns; [reflexivity|].
  cbn [forallb] in Hok, Hns.
  apply andb_true_iff in Hok as [Hi Hl]. apply andb_true_iff in Hns as [Hs Hns].
  destruct i as [c|x y|crlf]; [| |discriminate];
    cbn [flat_map qp_render qp_value app].
  - cbn [qp_item_ok] in Hi. apply negb_true_iff in Hi.
    cbn [replace_from]. unfold escaped_octet at 1.
    rewrite match_at_absent.
    + now rewrite IH.
    + change (lit "=") with [61%N]. cbn [starts_with char_eqb].
      now rewrite N.eqb_sym, Hi.
  - cbn [qp_item_ok] in Hi. apply andb_true_iff in Hi as [Hx Hy].
    cbn [replace_from]. rewrite match_at_escaped_octet by assumption.
    cbn [pos]. unfold char_of_hex. cbn [capture captures find fst snd Nat.eqb option_map].
    destruct (hex_digit_inv x Hx) as (vx & Ex & _).
    destruct (hex_digit_inv y Hy) as (vy & Ey & _).
    assert (Hv : hex2 x y = Some (vx * 16 + vy)%N)
      by (unfold hex2; now rewrite Ex, Ey).
    rewrite (parseInt16_two_digits x y Hx Hy Hv), Hv. cbn [app].
    now rewrite IH.
Qed.

(** [decodeQuotedPrintable] reads a quoted-printable text item by item: a
    character other than [=] stands for itself, [=] with two hexadecimal
    digits (of either case) for the character with that code, and a soft
    line break ([=] before CR LF or LF) for nothing. A decoded [=3D] is not
    read again as the start of an octet. *)
Theorem decodeQuotedPrintable_items :
  forall l,
    forallb qp_item_ok l = true ->
    decodeQuotedPrintable (flat_map qp_render l) = flat_map qp_value l.
Proof.
  intros l Hok. unfold decodeQuotedPrintable, replace_all.
  rewrite soft_breaks_removed by exact Hok.
  rewrite octets_decoded.
  - clear Hok. induction l as [|i l IH]; [reflexivity|].
    destruct i as [c|x y|crlf]; cbn [filter qp_soft negb flat_map qp_value app];
      now rewrite IH.
  - apply forallb_forall. intros i Hi. apply filter_In in Hi as [Hi _].
    rewrite forallb_forall in Hok. now apply Hok.
  - apply forallb_forall. intros i Hi. now apply filter_In in Hi as [_ Hi].
Qed.

End QuotedPrintableProperties.

Lemma decodeQuotedPrintable_items_witness :
  Parser.decodeQuotedPrintable (flat_map qp_render qp_sample) =
  [99; 97; 102; 195; 169; 61; 52; 49]%N.
Proof.
  apply (@decodeQuotedPrintable_items qp_sample). reflexivity.
Defined.

(* ------------------------------------------------------------------ *)
(** ** Splitting an address list *)

Section SplitProperties.
Import JS RegExp Parser.
Local Open Scope regex_scope.

Lemma quotes_app : forall u v, quotes (u ++ v) = quotes u + quotes v.
Proof. intros u v. unfold quotes. now rewrite filter_app, length_app. Qed.

Lemma quotes_free :
  forall u, Forall (fun c => not_quote c = true) u -> quotes u = 0.
Proof.
  induction 1 as [|c u Hc Hu IH]; [reflexivity|].
  unfold quotes in *. cbn [filter]. unfold not_quote in Hc.
  apply negb_true_iff in Hc. now rewrite Hc.
Qed.

Lemma quotes_cons_quote : forall t, quotes (34%N :: t) = S (quotes t).
Proof. reflexivity. Qed.

Lemma run_lt_skipn :
  forall (p : class) t k,
    k < run p t -> exists x u, skipn k t = x :: u /\ p x = true.
Proof.
  intros p. induction t as [|c t IH]; intros k Hk; [cbn in Hk; lia|].
  cbn [run] in Hk. destruct (p c) eqn:Hc; [|lia].
  destruct k as [|k]; [now exists c, t|].
  cbn [skipn]. apply IH. lia.
Qed.

Lemma run_stops :
  forall (p : class) t,
    match skipn (run p t) t with
    | [] => True
    | x :: _ => p x = false
    end.
Proof.
  intros p. induction t as [|c t IH]; [exact I|].
  cbn [run]. destruct (p c) eqn:Hc; [exact IH | cbn [skipn]; exact Hc].
Qed.

(** A greedy run followed by something that cannot start inside the run:
    only the whole run is tried with success. *)
Lemma matches_greedy_only :
  forall b (p : class) r st,
    (forall k, k < run p (rest st) -> matches false b r (advance st k) = []) ->
    matches false b (Rep true 0 p >> r) st =
    matches false b r (advance st (run p (rest st))).
Proof.
  intros b p r st H. rewrite matches_Cat.
  change (matches false b (Rep true 0 p) st)
    with (map (advance st) (rev (seq 0 (S (run p (rest st)) - 0)))).
  rewrite Nat.sub_0_r, seq_rev_S. cbn [map flat_map].
  rewrite (@flat_map_nil _ _ (matches false b r)); [apply app_nil_r|].
  intros x Hx. apply in_map_iff in Hx as (k & <- & Hk).
  apply in_rev, in_seq in Hk. apply H. lia.
Qed.

Lemma matches_Str_mismatch :
  forall b c x u n caps,
    x <> c ->
    matches false b (Str [c]) {| pos := n; rest := x :: u; captures := caps |} = [].
Proof.
  intros b c x u n caps H. apply matches_Str_absent. exact H.
Qed.

(** The remainder without a quote: [[^Q]*$]. *)
Lemma matches_final :
  forall b n t caps,
    matches false b (Rep true 0 not_quote >> Eol)
            {| pos := n; rest := t; captures := caps |} =
    if Nat.eqb (quotes t) 0
    then [{| pos := n + length t; rest := []; captures := caps |}]
    else [].
Proof.
  intros b n t caps. rewrite matches_greedy_only.
  - unfold advance. cbn [pos rest captures matches].
    pose proof (run_stops not_quote t) as Hs.
    pose proof (@run_prefix not_quote t (run not_quote t) (le_n _)) as [Hp Hl].
    assert (Hq : quotes t = quotes (skipn (run not_quote t) t)).
    { rewrite <- (firstn_skipn (run not_quote t) t) at 1.
      now rewrite quotes_app, (quotes_free Hp). }
    assert (Hn : length t = run not_quote t
                            + length (skipn (run not_quote t) t)).
    { rewrite <- (firstn_skipn (run not_quote t) t) at 1.
      now rewrite length_app, Hl. }
    rewrite Hq, Hn.
    destruct (skipn (run not_quote t) t) as [|x u] eqn:E.
    + cbn [quotes filter length Nat.eqb]. now rewrite Nat.add_0_r.
    + unfold not_quote in Hs. apply negb_false_iff, N.eqb_eq in Hs. subst x.
      now rewrite quotes_cons_quote.
  - intros k Hk. unfold advance. cbn [pos rest captures matches].
    destruct (@run_lt_skipn not_quote t k Hk) as (x & u & -> & _). reflexivity.
Qed.

(** A run of characters other than the quote and then the quote. *)
Lemma matches_to_quote :
  forall b r n t caps,
    matches false b (Rep true 0 not_quote >> Str [34%N] >> r)
            {| pos := n; rest := t; captures := caps |} =
    match skipn (run not_quote t) t with
    | [] => []
    | _ :: u =>
        matches false b r {| pos := n + run not_quote t + 1; rest := u;
                             captures := caps |}
    end.
Proof.
  intros b r n t caps. rewrite matches_greedy_only.
  - unfold advance. cbn [pos rest captures]. rewrite matches_Cat.
    pose proof (run_stops not_quote t) as Hs.
    destruct (skipn (run not_quote t) t) as [|x u] eqn:E; [reflexivity|].
    unfold not_quote in Hs. apply negb_false_iff, N.eqb_eq in Hs. subst x.
    erewrite matches_Str_present by reflexivity.
    cbn [flat_map]. rewrite app_nil_r. unfold advance.
    cbn [pos rest captures skipn]. reflexivity.
  - intros k Hk. unfold advance. cbn [pos rest captures].
    destruct (@run_lt_skipn not_quote t k Hk) as (x & u & -> & Hx).
    rewrite matches_Cat, matches_Str_mismatch; [reflexivity|].
    intros ->. discriminate.
Qed.

(** One pair of quotes, when there is one. *)
Lemma matches_quoted_pair :
  forall b n t caps,
    matches false b quoted_pair {| pos := n; rest := t; captures := caps |} =
    match skipn (run not_quote t) t with
    | [] => []
    | _ :: u =>
        match skipn (run not_quote u) u with
        | [] => []
        | _ :: v =>
            [{| pos := n + run not_quote t + 1 + run not_quote u + 1;
                rest := v; captures := caps |}]
        end
    end.
Proof.
  intros b n t caps. unfold quoted_pair. rewrite matches_to_quote.
  destruct (skipn (run not_quote t) t) as [|x u]; [reflexivity|].
  rewrite matches_greedy_only.
  - unfold advance. cbn [pos rest captures].
    pose proof (run_stops not_quote u) as Hs.
    destruct (skipn (run not_quote u) u) as [|y v] eqn:E; [reflexivity|].
    unfold not_quote in Hs. apply negb_false_iff, N.eqb_eq in Hs. subst y.
    erewrite matches_Str_present by reflexivity.
    unfold advance. cbn [pos rest captures skipn]. reflexivity.
  - intros k Hk. unfold advance. cbn [pos rest captures].
    destruct (@run_lt_skipn not_quote u k Hk) as (y & v & -> & Hy).
    apply matches_Str_mismatch. intros ->. discriminate.
Qed.

Lemma skipn_run_length :
  forall (p : class) t x u,
    skipn (run p t) t = x :: u -> length t = run p t + S (length u).
Proof.
  intros p t x u E.
  rewrite <- (firstn_skipn (run p t) t) at 1.
  rewrite length_app, E.
  now destruct (@run_prefix p t (run p t) (le_n _)) as [_ ->].
Qed.

Lemma skipn_run_quotes :
  forall t, quotes t = quotes (skipn (run not_quote t) t).
Proof.
  intros t. rewrite <- (firstn_skipn (run not_quote t) t) at 1.
  destruct (@run_prefix not_quote t (run not_quote t) (le_n _)) as [Hp _].
  now rewrite quotes_app, (quotes_free Hp).
Qed.

Lemma skipn_run_quote :
  forall t x u, skipn (run not_quote t) t = x :: u -> x = 34%N.
Proof.
  intros t x u E. pose proof (run_stops not_quote t) as Hs.
  rewrite E in Hs. unfold not_quote in Hs.
  now apply negb_false_iff, N.eqb_eq in Hs.
Qed.

(** The pairs of quotes and the remainder: the assertion holds exactly
    when the number of quotes that follow is even. *)
Lemma star_quoted_pairs :
  forall fuel t n caps,
    length t <= fuel ->
    (exists y ys,
        flat_map (matches false false (Rep true 0 not_quote >> Eol))
                 (star fuel (matches false false quoted_pair)
                       {| pos := n; rest := t; captures := caps |}) = y :: ys)
    <-> Nat.even (quotes t) = true.
Proof.
  induction fuel as [|fuel IH]; intros t n caps Hlen.
  - destruct t; [|cbn in Hlen; lia].
    cbn [star flat_map]. rewrite matches_final. cbn. split; eauto.
  - cbn [star]. rewrite matches_quoted_pair.
    rewrite (skipn_run_quotes t).
    destruct (skipn (run not_quote t) t) as [|x u] eqn:E.
    + cbn [flat_map app]. rewrite matches_final.
      rewrite (skipn_run_quotes t), E. cbn. split; eauto.
    + pose proof (skipn_run_quote _ E) as ->.
      pose proof (skipn_run_length _ _ E) as Hn.
      rewrite quotes_cons_quote, (skipn_run_quotes u).
      destruct (skipn (run not_quote u) u) as [|y v] eqn:E2.
      * cbn [flat_map app]. rewrite matches_final.
        rewrite (skipn_run_quotes t), E, quotes_cons_quote.
        cbn. split; [intros (? & ? & ?); discriminate | discriminate].
      * pose proof (skipn_run_quote _ E2) as ->.
        pose proof (skipn_run_length _ _ E2) as Hn2.
        rewrite quotes_cons_quote.
        cbn [flat_map pos]. rewrite app_nil_r.
        replace (n + run not_quote t + 1 + run not_quote u + 1 =? n)
          with false by (symmetry; apply Nat.eqb_neq; lia).
        rewrite flat_map_app. cbn [flat_map]. rewrite app_nil_r.
        rewrite (@matches_final false n t caps).
        rewrite (skipn_run_quotes t), E, quotes_cons_quote.
        cbn [Nat.eqb]. rewrite app_nil_r.
        change (Nat.even (S (S (quotes v)))) with (Nat.even (quotes v)).
        apply IH. lia.
Qed.

Lemma outside_quotes_even :
  forall t, outside_quotes t = Nat.even (quotes t).
Proof.
  intros t. unfold outside_quotes.
  pose proof (@star_quoted_pairs (length t) t 0 [] (le_n _)) as H.
  destruct (flat_map _ _) as [|y ys].
  - destruct (Nat.even (quotes t)); [|reflexivity].
    destruct (proj2 H eq_refl) as (? & ? & ?). discriminate.
  - symmetry. apply H. eauto.
Qed.

(** No cut among characters that are not commas. *)
Lemma split_from_no_comma :
  forall x piece t,
    Forall (fun c => c <> 44%N) x ->
    split_from piece (x ++ t) = split_from (rev x ++ piece) t.
Proof.
  induction x as [|c x IH]; intros piece t H; [reflexivity|].
  inversion H as [|? ? Hc Hx]; subst.
  cbn [app split_from]. apply N.eqb_neq in Hc. rewrite Hc. cbn [andb].
  rewrite IH by exact Hx. cbn [rev]. now rewrite <- app_assoc.
Qed.

(** No cut inside a pair of quotes. *)
Lemma split_from_quoted :
  forall x piece t,
    Forall (fun c => not_quote c = true) x ->
    Nat.even (quotes t) = false ->
    split_from piece (x ++ t) = split_from (rev x ++ piece) t.
Proof.
  induction x as [|c x IH]; intros piece t H Ht; [reflexivity|].
  inversion H as [|? ? Hc Hx]; subst.
  cbn [app split_from].
  rewrite outside_quotes_even, quotes_app, (quotes_free Hx). cbn [Nat.add].
  rewrite Ht, andb_false_r.
  rewrite IH by assumption. cbn [rev]. now rewrite <- app_assoc.
Qed.

End SplitProperties.

(* ------------------------------------------------------------------ *)
(** ** Address lists *)

Section AddressListProperties.
Import JS RegExp Parser.

Lemma listable_inv :
  forall nm loc domain,
    listable (nm, loc, domain) = true ->
    nm <> [] /\ trim nm = nm /\ Forall (fun c => name_char c = true) nm
    /\ loc <> [] /\ domain <> []
    /\ Forall (fun c => addr_char c = true) (loc ++ domain)
    /\ Forall (fun c => not_quote c = true) (loc ++ domain)
    /\ Forall (fun c => c <> 44%N) (loc ++ domain).
Proof.
  intros nm loc domain H. unfold listable in H.
  repeat (apply andb_true_iff in H as [H ?]).
  match goal with F : forallb _ (loc ++ domain) = true |- _ =>
    rename F into HF end.
  rewrite forallb_forall in HF.
  repeat split.
  - now destruct nm.
  - now apply jseqb_eq.
  - apply Forall_forall. now apply forallb_forall.
  - now destruct loc.
  - now destruct domain.
  - apply Forall_forall. intros c Hc. specialize (HF c Hc).
    apply andb_true_iff in HF as [HF _].
    now apply andb_true_iff in HF as [HF _].
  - apply Forall_forall. intros c Hc. specialize (HF c Hc).
    apply andb_true_iff in HF as [HF _].
    now apply andb_true_iff in HF as [_ HF].
  - apply Forall_forall. intros c Hc. specialize (HF c Hc).
    apply andb_true_iff in HF as [_ HF].
    now apply N.eqb_neq, negb_true_iff.
Qed.

Lemma formatAddress_mailbox :
  forall a, listable a = true -> formatAddress (mailbox a) = written a.
Proof.
  intros [[nm loc] domain] H.
  apply listable_inv in H as (Hnm & _).
  unfold mailbox, written. now apply formatAddress_named.
Qed.

Lemma name_char_not_quote :
  forall nm, Forall (fun c => name_char c = true) nm ->
             Forall (fun c => not_quote c = true) nm.
Proof.
  intros nm H. eapply Forall_impl; [|exact H]. intros c Hc.
  unfold name_char in Hc. unfold not_quote.
  apply negb_true_iff, orb_false_iff in Hc as [Hc _]. now rewrite Hc.
Qed.

Lemma quotes_written :
  forall a, listable a = true -> quotes (written a) = 2.
Proof.
  intros [[nm loc] domain] H.
  apply listable_inv in H as (_ & _ & Hname & _ & _ & _ & Hq & _).
  unfold written.
  change (34%N :: nm ++ 34%N :: [32%N]
            ++ 60%N :: (loc ++ 64%N :: domain) ++ [62%N])
    with ([34%N] ++ nm ++ [34%N; 32%N; 60%N]
            ++ (loc ++ 64%N :: domain) ++ [62%N]).
  rewrite !quotes_app, (quotes_free (name_char_not_quote Hname)).
  apply Forall_app in Hq as [Hl Hd].
  rewrite (quotes_free Hl).
  rewrite (@quotes_free (64%N :: domain)) by (constructor; [reflexivity|exact Hd]).
  reflexivity.
Qed.

(** The whole of a written address goes to one piece. *)
Lemma split_from_written :
  forall a piece t,
    listable a = true -> Nat.even (quotes t) = true ->
    split_from piece (written a ++ t) =
    split_from (rev (written a) ++ piece) t.
Proof.
  intros [[nm loc] domain] piece t H Ht.
  apply listable_inv in H as (_ & _ & Hname & _ & _ & _ & Hq & Hc).
  apply Forall_app in Hq as [Hql Hqd]. apply Forall_app in Hc as [Hcl Hcd].
  set (tail := 34%N :: 32%N :: 60%N :: (loc ++ 64%N :: domain) ++ [62%N]).
  assert (E : written (nm, loc, domain) = [34%N] ++ nm ++ tail).
  { reflexivity. }
  assert (Htail : Forall (fun c => c <> 44%N) tail).
  { unfold tail. repeat (constructor; [discriminate|]).
    apply Forall_app. split.
    - apply Forall_app. split; [exact Hcl|].
      constructor; [discriminate | exact Hcd].
    - repeat constructor. discriminate. }
  assert (Hodd : Nat.even (quotes (tail ++ t)) = false).
  { unfold tail.
    change ((34%N :: 32%N :: 60%N :: (loc ++ 64%N :: domain) ++ [62%N]) ++ t)
      with (34%N :: ([32%N; 60%N] ++ (loc ++ 64%N :: domain) ++ [62%N]) ++ t).
    rewrite quotes_cons_quote, !quotes_app, (quotes_free Hql).
    rewrite (@quotes_free (64%N :: domain))
      by (constructor; [reflexivity|exact Hqd]).
    change (quotes [32%N; 60%N]) with 0. change (quotes [62%N]) with 0.
    cbn [Nat.add].
    rewrite Nat.even_succ, <- Nat.negb_even, Ht. reflexivity. }
  rewrite E, <- !app_assoc.
  rewrite (@split_from_no_comma [34%N]) by (repeat constructor; discriminate).
  rewrite (@split_from_quoted nm _ _ (name_char_not_quote Hname) Hodd).
  rewrite (@split_from_no_comma tail _ _ Htail).
  f_equal. rewrite !rev_app_distr, <- !app_assoc. reflexivity.
Qed.

Lemma quotes_join_written :
  forall l,
    forallb listable l = true ->
    Nat.even (quotes (join (lit ", ") (map written l))) = true.
Proof.
  induction l as [|a l IH]; intros H; [reflexivity|].
  cbn [forallb] in H. apply andb_true_iff in H as [Ha Hl].
  cbn [map join]. destruct l as [|b l].
  - cbn [map]. now rewrite (quotes_written _ Ha).
  - cbn [map]. cbn [map] in IH. rewrite !quotes_app, (quotes_written _ Ha).
    change (quotes (lit ", ")) with 0. cbn [Nat.add].
    change (Nat.even (S (S ?n))) with (Nat.even n).
    now apply IH.
Qed.

(** The pieces of a written list: the addresses as written, all but the
    first after the space that follows the comma. *)
Lemma split_from_join_written :
  forall l a piece,
    listable a = true -> forallb listable l = true ->
    split_from piece (join (lit ", ") (map written (a :: l))) =
    (rev piece ++ written a) :: map (fun b => 32%N :: written b) l.
Proof.
  induction l as [|b l IH]; intros a piece Ha Hl.
  - cbn [map join]. rewrite <- (app_nil_r (written a)) at 1.
    rewrite split_from_written by (exact Ha || reflexivity).
    cbn [split_from]. now rewrite rev_app_distr, rev_involutive.
  - pose proof (quotes_join_written _ Hl) as Hq.
    cbn [forallb] in Hl. pose proof Hl as Hl'.
    apply andb_true_iff in Hl as [Hb Hl].
    change (join (lit ", ") (map written (a :: b :: l)))
      with (written a ++ 44%N :: 32%N :: join (lit ", ") (map written (b :: l))).
    rewrite split_from_written; [|exact Ha|exact Hq].
    cbn [split_from N.eqb Pos.eqb andb].
    rewrite outside_quotes_even.
    change (quotes (32%N :: ?t)) with (quotes t). rewrite Hq.
    rewrite rev_app_distr, rev_involutive.
    f_equal. cbn [split_from N.eqb Pos.eqb andb].
    rewrite (IH b [32%N] Hb Hl). reflexivity.
Qed.

Lemma trim_after_space : forall s, trim (32%N :: s) = trim s.
Proof. reflexivity. Qed.

Lemma trim_written :
  forall a, trim (written a) = written a.
Proof.
  intros [[nm loc] domain]. apply trim_ends; [reflexivity|].
  unfold written.
  replace (34%N :: nm ++ 34%N :: [32%N]
            ++ 60%N :: (loc ++ 64%N :: domain) ++ [62%N])
    with ((34%N :: nm ++ 34%N :: 32%N :: 60%N :: (loc ++ 64%N :: domain))
            ++ [62%N]).
  - rewrite rev_app_distr. reflexivity.
  - cbn [app]. now rewrite <- app_assoc.
Qed.

Lemma trimStart_keeps_last :
  forall x c, isWhiteSpace c = false -> trimStart (x ++ [c]) <> [].
Proof.
  induction x as [|y x IH]; intros c Hc; cbn [app trimStart].
  - rewrite Hc. discriminate.
  - destruct (isWhiteSpace y); [now apply IH | discriminate].
Qed.

Lemma trim_keeps_head :
  forall c s, isWhiteSpace c = false -> truthy (trim (c :: s)) = true.
Proof.
  intros c s Hc. unfold trim, trimEnd. cbn [trimStart]. rewrite Hc.
  cbn [rev]. pose proof (@trimStart_keeps_last (rev s) c Hc) as H.
  destruct (trimStart (rev s ++ [c])) as [|y ys]; [congruence|].
  cbn [rev]. now destruct (rev ys).
Qed.

Lemma parseAddress_written :
  forall a, listable a = true -> parseAddress (written a) = mailbox a.
Proof.
  intros [[nm loc] domain] H.
  apply listable_inv in H as (H1 & H2 & H3 & H4 & H5 & H6 & _).
  now apply parseAddress_quoted.
Qed.

Lemma gmail_parseAddress_written :
  forall a, listable a = true ->
            GmailParser.parseAddress (written a) = mailbox a.
Proof.
  intros [[nm loc] domain] H.
  apply listable_inv in H as (H1 & H2 & H3 & H4 & H5 & H6 & _).
  apply Forall_app in H6 as [Hl Hd].
  assert (Hc : Forall (fun c => addr_char c = true) (loc ++ 64%N :: domain)
               -> False \/ True) by (intros _; now right).
  assert (Hws : Forall (fun c => isWhiteSpace c = false) (loc ++ 64%N :: domain)).
  { apply Forall_app. split.
    - eapply Forall_impl; [|exact Hl]. intros c Hx.
      unfold addr_char, neither, space in Hx.
      apply andb_true_iff in Hx as [_ Hx]. now apply negb_true_iff.
    - constructor; [reflexivity|].
      eapply Forall_impl; [|exact Hd]. intros c Hx.
      unfold addr_char, neither, space in Hx.
      apply andb_true_iff in Hx as [_ Hx]. now apply negb_true_iff. }
  assert (Hgt : Forall (fun c => c <> 62%N) (loc ++ 64%N :: domain)).
  { apply Forall_app. split.
    - eapply Forall_impl; [|exact Hl]. intros c Hx ->. discriminate.
    - constructor; [discriminate|].
      eapply Forall_impl; [|exact Hd]. intros c Hx ->. discriminate. }
  unfold written, mailbox.
  apply gmail_parseAddress_quoted; try assumption.
  - now destruct loc.
  - now apply trim_id.
Qed.

Lemma mailbox_has_at :
  forall a, existsb (N.eqb 64) (email (mailbox a)) = true.
Proof.
  intros [[nm loc] domain]. cbn [mailbox email].
  rewrite existsb_app. cbn [existsb]. rewrite N.eqb_refl.
  now rewrite orb_true_r.
Qed.

Lemma filter_all_in :
  forall (A : Type) (f : A -> bool) l,
    (forall x, In x l -> f x = true) -> filter f l = l.
Proof.
  intros A f. induction l as [|x l IH]; intros H; [reflexivity|].
  cbn [filter]. rewrite (H x (or_introl eq_refl)).
  f_equal. apply IH. intros y Hy. apply H. now right.
Qed.

(** A list of addresses with names comes back from [parseAddressList] as
    [formatAddressList] wrote it, commas inside the names included: each
    name is not empty, has no double quote, no [<] and no white space at
    its ends; each email is a local part, [@] and a domain without white
    space, [>], [@], double quote or comma. *)
Theorem parseAddressList_formatAddressList :
  forall l,
    forallb listable l = true ->
    parseAddressList (formatAddressList (map mailbox l)) = map mailbox l.
Proof.
  intros l H. unfold formatAddressList. rewrite map_map.
  rewrite (@map_ext_in _ _ (fun x => formatAddress (mailbox x)) written).
  2:{ intros a Ha. apply formatAddress_mailbox.
      rewrite forallb_forall in H. now apply H. }
  destruct l as [|a l]; [reflexivity|].
  cbn [forallb] in H. apply andb_true_iff in H as [Ha Hl].
  unfold parseAddressList, split_addresses.
  assert (Ht : truthy (trim (join (lit ", ") (map written (a :: l)))) = true).
  { cbn [map join]. destruct a as [[nm loc] domain].
    destruct (map written l) as [|x xs]; now apply trim_keeps_head. }
  rewrite Ht. cbn [negb].
  rewrite (split_from_join_written l a [] Ha Hl).
  cbn [rev app map].
  rewrite (parseAddress_written _ Ha), map_map.
  rewrite (@map_ext_in _ _ (fun x => parseAddress (32%N :: written x)) mailbox).
  2:{ intros b Hb. unfold parseAddress at 1. rewrite trim_after_space.
      rewrite forallb_forall in Hl.
      apply (parseAddress_written _ (Hl b Hb)). }
  apply (@filter_all_in _ _ (mailbox a :: map mailbox l)).
  intros x [<-|Hx]; [apply mailbox_has_at|].
  apply in_map_iff in Hx as (b & <- & _). apply mailbox_has_at.
Qed.

Lemma parseAddressList_formatAddressList_witness :
  parseAddressList (formatAddressList (map mailbox two_mailboxes)) =
  map mailbox two_mailboxes.
Proof.
  apply (@parseAddressList_formatAddressList two_mailboxes). reflexivity.
Defined.

(** The [parseAddresses] of the Gmail package reads the same lists as
    [formatAddressList] wrote them. *)
Theorem gmail_parseAddresses_formatAddressList :
  forall l,
    forallb listable l = true ->
    GmailParser.parseAddresses (Some (formatAddressList (map mailbox l))) =
    map mailbox l.
Proof.
  intros l H. unfold formatAddressList. rewrite map_map.
  rewrite (@map_ext_in _ _ (fun x => formatAddress (mailbox x)) written).
  2:{ intros a Ha. apply formatAddress_mailbox.
      rewrite forallb_forall in H. now apply H. }
  destruct l as [|a l]; [reflexivity|].
  cbn [forallb] in H. apply andb_true_iff in H as [Ha Hl].
  unfold GmailParser.parseAddresses, split_addresses.
  assert (Ht : truthy (join (lit ", ") (map written (a :: l))) = true).
  { cbn [map join]. destruct (map written l) as [|x xs];
      destruct a as [[nm loc] domain]; reflexivity. }
  rewrite Ht. cbn [negb].
  rewrite (split_from_join_written l a [] Ha Hl).
  cbn [rev app map].
  rewrite trim_written, (gmail_parseAddress_written _ Ha), map_map.
  rewrite (@map_ext_in _ _
             (fun x => GmailParser.parseAddress (trim (32%N :: written x)))
             mailbox).
  2:{ intros b Hb. rewrite trim_after_space, trim_written.
      rewrite forallb_forall in Hl.
      apply (gmail_parseAddress_written _ (Hl b Hb)). }
  apply (@filter_all_in _ _ (mailbox a :: map mailbox l)).
  assert (Hm : forall b, truthy (email (mailbox b)) = true).
  { intros [[nm loc] domain]. cbn [mailbox email]. now destruct loc. }
  intros x [<-|Hx]; [apply Hm|].
  apply in_map_iff in Hx as (b & <- & _). apply Hm.
Qed.

Lemma gmail_parseAddresses_formatAddressList_witness :
  GmailParser.parseAddresses
    (Some (formatAddressList (map mailbox two_mailboxes))) =
  map mailbox two_mailboxes.
Proof.
  apply (@gmail_parseAddresses_formatAddressList two_mailboxes). reflexivity.
Defined.

End AddressListProperties.

(* ------------------------------------------------------------------ *)
(** ** Every closed block is stripped *)

Section BlockDocumentProperties.
Import JS RegExp Parser.
Local Open Scope regex_scope.

(** *** The length of a replacement *)

Lemma starts_with_length :
  forall ic s t, starts_with ic s t = true -> length s <= length t.
Proof.
  intros ic. induction s as [|x s IH]; intros [|y t] H; cbn [length];
    try lia; try discriminate.
  cbn [starts_with] in H. apply andb_true_iff in H as [_ H].
  apply IH in H. lia.
Qed.

(** A match consumes what it advances over. *)
Lemma matches_measure :
  forall ic b r st y,
    In y (matches ic b r st) ->
    pos y + length (rest y) = pos st + length (rest st).
Proof.
  intros ic b. induction r as [s|p|r1 IH1 r2 IH2|r IH|g min p|i r IH| |];
    intros st y H.
  - apply In_matches_Str in H as [Hs ->]. apply starts_with_length in Hs.
    unfold advance. cbn [pos rest]. rewrite length_skipn. lia.
  - cbn [matches] in H. destruct (rest st) as [|c t] eqn:E; [destruct H|].
    destruct (p c); [|destruct H]. destruct H as [<-|[]].
    unfold advance. cbn [pos rest]. rewrite E. cbn [skipn length]. lia.
  - apply In_matches_Cat in H as (st1 & H1 & H2).
    rewrite (IH2 _ _ H2). now apply IH1.
  - apply In_matches_Opt in H as [[H _]| ->]; [now apply IH | reflexivity].
  - apply In_matches_Rep in H as (k & Hk & ->).
    pose proof (run_le_length p (rest st)).
    unfold advance. cbn [pos rest]. rewrite length_skipn. lia.
  - apply In_matches_Cap in H as (st1 & H1 & ->). cbn [pos rest].
    now apply IH.
  - now apply In_matches_Bol in H as (_ & _ & ->).
  - now apply In_matches_Eol in H as (_ & ->).
Qed.

Lemma matches_min_len :
  forall ic b r st y,
    In y (matches ic b r st) -> pos st + min_len r <= pos y.
Proof.
  intros ic b. induction r as [s|p|r1 IH1 r2 IH2|r IH|g min p|i r IH| |];
    intros st y H; cbn [min_len].
  - apply In_matches_Str in H as [_ ->]. unfold advance. cbn [pos]. lia.
  - cbn [matches] in H. destruct (rest st) as [|c t]; [destruct H|].
    destruct (p c); [|destruct H]. destruct H as [<-|[]].
    unfold advance. cbn [pos]. lia.
  - apply In_matches_Cat in H as (st1 & H1 & H2).
    apply IH1 in H1. apply IH2 in H2. lia.
  - apply In_matches_Opt in H as [[H _]| ->]; [|lia].
    apply IH in H. lia.
  - apply In_matches_Rep in H as (k & Hk & ->). unfold advance. cbn [pos]. lia.
  - apply In_matches_Cap in H as (st1 & H1 & ->). cbn [pos]. now apply IH.
  - apply In_matches_Bol in H as (_ & _ & ->). lia.
  - apply In_matches_Eol in H as (_ & ->). lia.
Qed.

Lemma match_at_bounds :
  forall ic r b t st,
    match_at ic r b t = Some st ->
    min_len r <= pos st /\ pos st <= length t.
Proof.
  intros ic r b t st H. unfold match_at in H.
  assert (Hin : In st (matches ic b r {| pos := 0; rest := t; captures := [] |})).
  { destruct (matches ic b r _) as [|x l]; [discriminate|].
    injection H as ->. now left. }
  pose proof (matches_min_len _ _ _ _ _ Hin) as H1.
  pose proof (matches_measure _ _ _ _ _ Hin) as H2.
  cbn [pos rest] in H1, H2. lia.
Qed.

(** A replacement that is never longer than what the pattern consumes
    does not lengthen the text. *)
Lemma replace_from_length :
  forall ic r f m,
    (forall st, length (f st) <= m) -> m <= min_len r ->
    forall t b skip,
      length (replace_from ic r f b skip t) <= length t - skip.
Proof.
  intros ic r f m Hf Hm. induction t as [|c t IH]; intros b skip.
  - destruct skip; cbn [replace_from]; [|cbn; lia].
    destruct (match_at ic r b []) as [st|] eqn:E; [|cbn; lia].
    apply match_at_bounds in E as [E1 E2]. cbn [length] in E2.
    rewrite app_nil_r. specialize (Hf st). cbn [length]. lia.
  - destruct skip as [|k]; cbn [replace_from].
    + destruct (match_at ic r b (c :: t)) as [st|] eqn:E.
      * apply match_at_bounds in E as [E1 E2]. cbn [length] in E2.
        specialize (Hf st). rewrite length_app.
        destruct (pos st) as [|k] eqn:Ep.
        -- specialize (IH false 0). cbn [length]. lia.
        -- specialize (IH false k). cbn [length]. lia.
      * specialize (IH false 0). cbn [length]. lia.
    + specialize (IH false k). cbn [length]. lia.
Qed.

Lemma replace_all_const_length :
  forall ic r x s,
    length x <= min_len r ->
    length (replace_all ic r (const x) s) <= length s.
Proof.
  intros ic r x s H. unfold replace_all.
  pose proof (@replace_from_length ic r (const x) (length x)
                (fun _ => le_n _) H s true 0). lia.
Qed.

Lemma replace_all_reference_length :
  forall ic r s,
    1 <= min_len r ->
    length (replace_all ic r char_of_reference s) <= length s.
Proof.
  intros ic r s H. unfold replace_all.
  assert (Hf : forall st, length (char_of_reference st) <= 1).
  { intros st. unfold char_of_reference, fromCharCode.
    destruct (parseInt10 _); cbn [length]; lia. }
  pose proof (@replace_from_length ic r char_of_reference 1 Hf H s true 0).
  lia.
Qed.

Lemma trim_length : forall s, length (trim s) <= length s.
Proof.
  intros s. destruct (trim_substring s) as (a & b & E).
  assert (H : length s = length (a ++ trim s ++ b)) by (now rewrite <- E).
  rewrite !length_app in H. lia.
Qed.

(** *** Blocks one after the other *)

Lemma absent_before_le :
  forall p n m s,
    absent_before p (n + m) s = true -> absent_before p n s = true.
Proof.
  intros p. induction n as [|n IH]; intros m s H; [reflexivity|].
  cbn [Nat.add absent_before] in *.
  apply andb_true_iff in H as [H1 H2]. rewrite H1. cbn [andb].
  destruct s as [|c s]; [reflexivity|]. now apply (IH m).
Qed.

Lemma absent_before_skip :
  forall p a n s,
    absent_before p (length a + n) (a ++ s) = true ->
    absent_before p n s = true.
Proof.
  intros p. induction a as [|c a IH]; intros n s H; [exact H|].
  cbn [length Nat.add app absent_before] in H.
  apply andb_true_iff in H as [_ H]. now apply IH.
Qed.

(** A character that is none of [p], up to letter case, is none of the
    first characters an occurrence of [p] begins with. *)
Lemma starts_with_interrupted :
  forall o0 o' p u,
    forallb (fun x => negb (char_eqb true x o0)) p = true ->
    length u < length p ->
    starts_with true p (u ++ o0 :: o') = false.
Proof.
  intros o0 o'. induction p as [|y p IH]; intros u Hp Hu;
    [cbn in Hu; lia|].
  cbn [forallb] in Hp. apply andb_true_iff in Hp as [Hy Hp].
  apply negb_true_iff in Hy.
  destruct u as [|z u]; cbn [app starts_with].
  - now rewrite Hy.
  - rewrite IH; [apply andb_false_r | exact Hp | cbn [length] in Hu; lia].
Qed.

Lemma char_eqb_ci_trans :
  forall x c o, char_eqb true c o = true -> char_eqb true x o = char_eqb true x c.
Proof.
  intros x c o H. unfold char_eqb in *. apply N.eqb_eq in H. now rewrite H.
Qed.

(** Where no occurrence of the opening literal begins in the text before
    a block, none begins there that would reach into the block: the
    literal starts with a character it does not hold again. *)
Lemma absent_before_block :
  forall c1 p1 pre x o,
    forallb (fun y => negb (char_eqb true y c1)) p1 = true ->
    ci_equal (c1 :: p1) o = true ->
    absent_before (c1 :: p1) (length pre) (pre ++ x) = true ->
    absent_before (c1 :: p1) (length pre) (pre ++ o) = true.
Proof.
  intros c1 p1 pre x o Hp Ho.
  apply andb_true_iff in Ho as [_ Ho].
  destruct o as [|o0 o']; [discriminate|].
  cbn [starts_with] in Ho. apply andb_true_iff in Ho as [Ho0 _].
  assert (Hp' : forallb (fun y => negb (char_eqb true y o0)) p1 = true).
  { rewrite forallb_forall in *. intros y Hy.
    rewrite (char_eqb_ci_trans y _ _ Ho0). now apply Hp. }
  induction pre as [|c pre IH]; intros H; [reflexivity|].
  cbn [length app absent_before] in *.
  apply andb_true_iff in H as [H1 H2].
  rewrite (IH H2), andb_true_r.
  destruct (Nat.le_gt_cases (length (c1 :: p1)) (length (c :: pre))) as [Hl|Hl].
  - change (c :: pre ++ o0 :: o') with ((c :: pre) ++ o0 :: o').
    change (c :: pre ++ x) with ((c :: pre) ++ x) in H1.
    rewrite starts_with_app_long in * by exact Hl. exact H1.
  - apply negb_true_iff. cbn [starts_with].
    rewrite (@starts_with_interrupted o0 o' p1 pre Hp');
      [apply andb_false_r|].
    cbn [length] in Hl. lia.
Qed.

Lemma opening_of_cons :
  forall k, opening_of k = 60%N :: lit (tag_of k).
Proof. intros k. reflexivity. Qed.

Lemma opening_first_unique :
  forall k,
    forallb (fun y => negb (char_eqb true y 60)) (lit (tag_of k)) = true.
Proof. intros [|]; reflexivity. Qed.

Lemma same_kind_eq : forall k k', same_kind k k' = true -> k' = k.
Proof. intros [|] [|]; cbn; congruence. Qed.

Lemma render_cons :
  forall p d, render (p :: d) = render_piece p ++ render d.
Proof. reflexivity. Qed.

Lemma drop_cons :
  forall k p d,
    drop k (p :: d) = if is_block k p then drop k d else p :: drop k d.
Proof.
  intros k p d. unfold drop. cbn [filter].
  now destruct (is_block k p).
Qed.

(** The blocks of one kind are removed one after the other, and what is
    not a block of the kind is copied. *)
Lemma strip_blocks :
  forall k d pre tail,
    forallb closed d = true ->
    absent_before (opening_of k) (length (pre ++ render (drop k d)))
                  ((pre ++ render (drop k d)) ++ tail) = true ->
    replace_all true (block_re (tag_of k)) (const []) (pre ++ render d ++ tail) =
    pre ++ render (drop k d)
        ++ replace_all true (block_re (tag_of k)) (const []) tail.
Proof.
  intros k. induction d as [|p d IH]; intros pre tail Hc H.
  - cbn [render drop filter flat_map app] in *. rewrite app_nil_r in H.
    now apply strip_prefix.
  - cbn [forallb] in Hc. apply andb_true_iff in Hc as [Hp Hc].
    rewrite drop_cons in *. rewrite render_cons.
    destruct (is_block k p) eqn:Ek.
    + destruct p as [t|k' o a b c]; [discriminate|].
      cbn [is_block] in Ek. apply same_kind_eq in Ek. subst k'.
      cbn [closed] in Hp.
      apply andb_true_iff in Hp as [Hp Hb].
      apply andb_true_iff in Hp as [Hp Ha].
      apply andb_true_iff in Hp as [Ho Hcl].
      cbn [render_piece].
      replace (pre ++ ((o ++ a ++ lit ">" ++ b ++ c) ++ render d) ++ tail)
        with (pre ++ o ++ a ++ lit ">" ++ b ++ c ++ (render d ++ tail))
        by (now rewrite <- !app_assoc).
      rewrite length_app, <- app_assoc in H.
      rewrite strip_block; try assumption.
      * f_equal. apply (IH [] tail Hc). cbn [app].
        now apply absent_before_skip in H.
      * apply absent_before_le in H.
        change (lit "<" ++ lit (tag_of k)) with (60%N :: lit (tag_of k)).
        rewrite opening_of_cons in H, Ho.
        exact (@absent_before_block 60%N (lit (tag_of k)) pre
                 (render (drop k d) ++ tail) o
                 (opening_first_unique k) Ho H).
    + rewrite render_cons in *.
      replace (pre ++ (render_piece p ++ render d) ++ tail)
        with ((pre ++ render_piece p) ++ render d ++ tail)
        by (now rewrite <- !app_assoc).
      rewrite (IH (pre ++ render_piece p) tail Hc).
      * now rewrite <- !app_assoc.
      * now rewrite <- !app_assoc in *.
Qed.

(** *** Whatever follows *)

Lemma starts_with_begins :
  forall p u z, starts_with true p (u ++ z) = true -> begins p u = true.
Proof.
  induction p as [|x p IH]; intros u z H; [reflexivity|].
  destruct u as [|y u]; [reflexivity|].
  cbn [app starts_with begins] in *.
  apply andb_true_iff in H as [H1 H2]. rewrite H1. cbn [andb].
  now apply (IH u z).
Qed.

Lemma begins_nowhere_absent :
  forall p t z,
    begins_nowhere p t = true ->
    absent_before p (length t) (t ++ z) = true.
Proof.
  intros p. induction t as [|c t IH]; intros z H; [reflexivity|].
  cbn [begins_nowhere] in H. apply andb_true_iff in H as [H1 H2].
  cbn [length app absent_before]. rewrite (IH z H2), andb_true_r.
  apply negb_true_iff in H1. apply negb_true_iff.
  destruct (starts_with true p (c :: t ++ z)) eqn:E; [|reflexivity].
  change (c :: t ++ z) with ((c :: t) ++ z) in E.
  apply starts_with_begins in E. congruence.
Qed.

Lemma closed_drop :
  forall k d, forallb closed d = true -> forallb closed (drop k d) = true.
Proof.
  intros k d H. rewrite forallb_forall in *. intros p Hp.
  apply filter_In in Hp as [Hp _]. now apply H.
Qed.

(** The two passes on a tidy document with what follows it, and on its
    text alone with what follows. *)
Lemma strip_tidy :
  forall d tail,
    tidy d = true ->
    replace_all true (block_re "script") (const [])
      (replace_all true (block_re "style") (const []) (render d ++ tail))
    = replace_all true (block_re "script") (const [])
        (replace_all true (block_re "style") (const []) (texts d ++ tail)).
Proof.
  intros d tail H. unfold tidy in H.
  apply andb_true_iff in H as [H Hcut].
  apply andb_true_iff in H as [H Htexts].
  apply andb_true_iff in H as [Hclosed Hw].
  set (S := replace_all true (block_re "style") (const []) tail).
  pose proof (@strip_blocks StyleBlock d [] tail Hclosed) as E1.
  cbn [app tag_of] in E1.
  rewrite E1 by (apply begins_nowhere_absent; exact Hw). fold S.
  pose proof (@strip_blocks ScriptBlock (drop StyleBlock d) [] S
                (closed_drop StyleBlock d Hclosed)) as E2.
  cbn [app tag_of] in E2. unfold without_style, texts in *.
  rewrite E2 by (apply begins_nowhere_absent; exact Htexts).
  rewrite (@strip_prefix "style" _ tail (begins_nowhere_absent _ _ tail Hcut)).
  fold S.
  now rewrite (@strip_prefix "script" _ S (begins_nowhere_absent _ _ S Htexts)).
Qed.

(** C8, as the code has it. [htmlToText] is defined on every string, and
    what it returns is never longer than its input. Where the input
    starts with a document made of text and of style and script blocks,
    each block closed by the literal end tag of its kind, every block of
    the document is removed with its content, whatever follows the
    document: the result is that of the text of the document with what
    follows. The blocks are what the opening literals announce ([tidy]):
    no [<style] begins outside the style blocks and no [<script] in the
    text, and putting the text together brings no [<style] into being. *)
Theorem htmlToText_strips_closed_blocks :
  (forall html, length (htmlToText html) <= length html)
  /\ (forall d rest,
         tidy d = true ->
         htmlToText (render d ++ rest) = htmlToText (texts d ++ rest)).
Proof.
  split.
  - intros html. unfold htmlToText. cbv zeta.
    eapply Nat.le_trans; [apply trim_length|].
    repeat (eapply Nat.le_trans;
            [first [ apply replace_all_const_length; apply Nat.leb_le;
                     reflexivity
                   | apply replace_all_reference_length; apply Nat.leb_le;
                     reflexivity ] |]).
    apply Nat.le_refl.
  - intros d tail H. pose proof (strip_tidy d tail H) as E.
    unfold htmlToText. cbv zeta. now rewrite E.
Qed.

Lemma htmlToText_strips_closed_blocks_witness :
  htmlToText (render sample_page ++ malformed_rest)
  = htmlToText (lit "<p>Hi</p><p>there</p><p>bye</p>" ++ malformed_rest).
Proof.
  apply (proj2 htmlToText_strips_closed_blocks sample_page malformed_rest).
  reflexivity.
Defined.

End BlockDocumentProperties.
